(** * Markdown to HTML parser: a shallow embedding of [parser.py]

    The development follows [repository_after/parser.py]: the helpers of the
    Python runtime the parser calls ([str.find], [str.strip], [html.escape],
    ...), then [parse_inline], [is_list_line], [parse_list] and the block
    loop of [parse_markdown], then the theorems about them.

    A Python [str] is a list of characters; characters are the code points
    U+0000..U+00FF, on which [isspace], [isdigit], [lower] and [splitlines]
    are written out as CPython defines them. *)

From Stdlib Require Import Ascii String.
From Stdlib Require Import List Arith Bool NArith Lia.
Import ListNotations.

Open Scope string_scope.
Open Scope list_scope.
Open Scope nat_scope.

(** ** Python strings *)

Definition str := list ascii.

(** String literals are read as lists of characters. *)
Definition lit (s : string) : list ascii := list_ascii_of_string s.
Coercion lit : string >-> list.

Definition strs (l : list string) : list str := map lit l.

Definition dquote : ascii := "034"%char.
Definition squote : ascii := "039"%char.

Module Py.

Definition code (c : ascii) : N := N_of_ascii c.

Definition in_range (lo hi : N) (c : ascii) : bool :=
  ((lo <=? code c) && (code c <=? hi))%N.

(** [str.isspace] on one character. *)
Definition isspace (c : ascii) : bool :=
  in_range 9 13 c || in_range 28 32 c || (code c =? 133)%N || (code c =? 160)%N.

(** [str.isdigit] on one character: the decimal digits and the
    superscripts U+00B2, U+00B3, U+00B9. *)
Definition isdigit (c : ascii) : bool :=
  in_range 48 57 c || (code c =? 178)%N || (code c =? 179)%N || (code c =? 185)%N.

(** The line boundaries of [str.splitlines]. *)
Definition is_linebreak (c : ascii) : bool :=
  in_range 10 13 c || in_range 28 30 c || (code c =? 133)%N.

Definition lower_char (c : ascii) : ascii :=
  if in_range 65 90 c || (in_range 192 222 c && negb (code c =? 215)%N)
  then ascii_of_N (code c + 32) else c.

Definition lower (s : str) : str := map lower_char s.

Fixpoint eq_str (a b : str) : bool :=
  match a, b with
  | [], [] => true
  | x :: a', y :: b' => Ascii.eqb x y && eq_str a' b'
  | _, _ => false
  end.

Definition nonempty {A} (l : list A) : bool :=
  match l with [] => false | _ :: _ => true end.

(** [s.startswith(pre)] *)
Fixpoint startswith (pre s : str) : bool :=
  match pre, s with
  | [], _ => true
  | p :: pre', c :: s' => Ascii.eqb p c && startswith pre' s'
  | _ :: _, [] => false
  end.

(** [s.startswith(pre, i)] *)
Definition startswith_at (pre s : str) (i : nat) : bool :=
  startswith pre (skipn i s).

(** [s[a:b]] for non-negative [a] and [b]; [s[a:]] is [skipn a s]. *)
Definition slice {A} (s : list A) (a b : nat) : list A :=
  firstn (b - a) (skipn a s).

(** [j < len(s) and s[j] == c]: the index is read under its guard. *)
Definition char_is (s : str) (j : nat) (c : ascii) : bool :=
  match nth_error s j with
  | Some x => Ascii.eqb x c
  | None => false
  end.

Fixpoint find_from (sub s : str) (k : nat) : option nat :=
  match s with
  | [] => if startswith sub [] then Some k else None
  | _ :: s' => if startswith sub s then Some k else find_from sub s' (S k)
  end.

(** [s.find(sub, start)]; [None] stands for [-1]. *)
Definition find (sub s : str) (start : nat) : option nat :=
  find_from sub (skipn start s) start.

(** [sub in s] *)
Definition contains (sub s : str) : bool :=
  match find sub s 0 with Some _ => true | None => false end.

(** [s.count(sub)]: occurrences that do not overlap. *)
Fixpoint count_from (sub s : str) (skip : nat) : nat :=
  match s with
  | [] => 0
  | _ :: s' =>
      match skip with
      | S k => count_from sub s' k
      | O => if startswith sub s
             then S (count_from sub s' (length sub - 1))
             else count_from sub s' 0
      end
  end.

Definition count (sub s : str) : nat := count_from sub s 0.

Fixpoint dropwhile (p : ascii -> bool) (s : str) : str :=
  match s with
  | [] => []
  | c :: s' => if p c then dropwhile p s' else s
  end.

Definition lstrip_by (p : ascii -> bool) (s : str) : str := dropwhile p s.
Definition rstrip_by (p : ascii -> bool) (s : str) : str :=
  rev (dropwhile p (rev s)).

(** [s.lstrip()], [s.strip()] *)
Definition lstrip (s : str) : str := lstrip_by isspace s.
Definition strip (s : str) : str := rstrip_by isspace (lstrip_by isspace s).

(** [s.lstrip(" ")] *)
Definition lstrip_sp (s : str) : str := lstrip_by (Ascii.eqb " ") s.

(** [s.rstrip("# ")] *)
Definition rstrip_hash_sp (s : str) : str :=
  rstrip_by (fun c => Ascii.eqb c "#" || Ascii.eqb c " ") s.

(** [sep.join(parts)] *)
Fixpoint join (sep : str) (parts : list str) : str :=
  match parts with
  | [] => []
  | [p] => p
  | p :: rest => p ++ sep ++ join sep rest
  end.

(** [s.splitlines()]: [cur] is the line being read, last character first;
    [after_cr] says that the previous character was a carriage return, whose
    following line feed belongs to the same boundary. *)
Fixpoint splitlines_aux (s : str) (cur : str) (after_cr : bool) : list str :=
  match s with
  | [] => match cur with [] => [] | _ :: _ => [rev cur] end
  | c :: s' =>
      if after_cr && Ascii.eqb c "010" then splitlines_aux s' cur false
      else if is_linebreak c
           then rev cur :: splitlines_aux s' [] (Ascii.eqb c "013")
           else splitlines_aux s' (c :: cur) false
  end.

Definition splitlines (s : str) : list str := splitlines_aux s [] false.

(** [s.replace(old, new)] for a one-character [old]. *)
Definition replace (old : ascii) (new : str) (s : str) : str :=
  flat_map (fun c => if Ascii.eqb c old then new else [c]) s.

(** [html.escape(s, quote)] of the standard library:
    [s.replace("&", "&amp;")] first, then [<], [>], and with [quote] the
    two quote characters.  [quote] is true unless the caller says
    otherwise, and the parser never does: every [escape(x)] of the source
    is [escape x true] here. *)
Definition escape (s : str) (quote : bool) : str :=
  let s := replace "&" "&amp;" s in
  let s := replace "<" "&lt;" s in
  let s := replace ">" "&gt;" s in
  if quote
  then replace squote "&#x27;" (replace dquote "&quot;" s)
  else s.

End Py.
Import Py.

(** ** Results of the imperative code

    An index read outside its sequence raises [IndexError]; a loop that the
    model cuts off before it ended gives [OutOfFuel]. *)

Inductive exn : Type := IndexError.

Inductive res (A : Type) : Type :=
| Ok (a : A)
| Raise (e : exn)
| OutOfFuel.
Arguments Ok {A} a.
Arguments Raise {A} e.
Arguments OutOfFuel {A}.

Definition bind {A B} (m : res A) (k : A -> res B) : res B :=
  match m with
  | Ok a => k a
  | Raise e => Raise e
  | OutOfFuel => OutOfFuel
  end.

Notation "x <- m ;; k" := (bind m (fun x => k))
  (at level 61, m at next level, right associativity).

(** [l[i]] *)
Definition get {A} (l : list A) (i : nat) : res A :=
  match nth_error l i with
  | Some x => Ok x
  | None => Raise IndexError
  end.

Definition unwrap {A} (d : A) (m : res A) : A :=
  match m with Ok a => a | _ => d end.

(** ** [parse_inline] *)

Definition MAX_INLINE_CHARS : N := 100000.

(** [len(text) > MAX_INLINE_CHARS] *)
Definition too_long (text : str) : bool :=
  (MAX_INLINE_CHARS <? N.of_nat (length text))%N.

(** The scan for the closing delimiter of an italic span,
    [while True: end = text.find(ch, end) ...], started at [e]. *)
Fixpoint em_scan (fuel : nat) (text : str) (ch : ascii) (e : nat)
  : res (option nat) :=
  match fuel with
  | O => OutOfFuel
  | S f =>
      match find [ch] text e with
      | None => Ok None
      | Some e' =>
          if negb ((e' + 1 <? length text) && char_is text (e' + 1) ch)
          then Ok (Some e')
          else em_scan f text ch (e' + 2)
      end
  end.

(** [parse_inline_fuel] is the function, [inline_loop] its [while i < L]
    loop and [inline_step] one turn of the loop: every branch of the loop
    body appends one string to [result] and moves [i], and [inline_step]
    returns that string and the new [i]. *)
Fixpoint parse_inline_fuel (fuel : nat) (text : str) {struct fuel} : res str :=
  match fuel with
  | O => OutOfFuel
  | S f =>
      if too_long text then Ok (escape text true)
      else result <- inline_loop f text 0 [] ;; Ok (concat result)
  end

with inline_loop (fuel : nat) (text : str) (i : nat) (result : list str)
  {struct fuel} : res (list str) :=
  match fuel with
  | O => OutOfFuel
  | S f =>
      if i <? length text then
        st <- inline_step f text i ;;
        inline_loop f text (snd st) (result ++ [fst st])
      else Ok result
  end

with inline_step (fuel : nat) (text : str) (i : nat) {struct fuel}
  : res (str * nat) :=
  match fuel with
  | O => OutOfFuel
  | S f =>
      ch <- get text i ;;
      if Ascii.eqb ch "`" then
        (* Inline code: single backticks, content escaped *)
        match find "`" text (i + 1) with
        | Some e =>
            Ok ("<code>" ++ escape (slice text (i + 1) e) true ++ "</code>", e + 1)
        | None => Ok (escape [ch] true, i + 1)
        end
      else if startswith_at "**" text i || startswith_at "__" text i then
        (* Bold *)
        let delim := slice text i (i + 2) in
        match find delim text (i + 2) with
        | Some e =>
            inner <- parse_inline_fuel f (slice text (i + 2) e) ;;
            Ok ("<strong>" ++ inner ++ "</strong>", e + 2)
        | None => Ok (escape delim true, i + 2)
        end
      else if Ascii.eqb ch "*" || Ascii.eqb ch "_" then
        (* Italic *)
        if (i + 1 <? length text) && char_is text (i + 1) ch then
          Ok (escape [ch; ch] true, i + 2)
        else
          e <- em_scan f text ch (i + 1) ;;
          match e with
          | Some e =>
              inner <- parse_inline_fuel f (slice text (i + 1) e) ;;
              Ok ("<em>" ++ inner ++ "</em>", e + 1)
          | None => Ok (escape [ch] true, i + 1)
          end
      else if Ascii.eqb ch "[" then
        (* Link; javascript: URLs rejected *)
        match find "]" text (i + 1) with
        | Some close_bracket =>
            if (close_bracket + 1 <? length text)
               && char_is text (close_bracket + 1) "("
            then
              match find ")" text (close_bracket + 2) with
              | Some close_paren =>
                  let label_text := slice text (i + 1) close_bracket in
                  let url := strip (slice text (close_bracket + 2) close_paren) in
                  if negb (startswith "javascript:" (lower url)) then
                    label <- parse_inline_fuel f label_text ;;
                    Ok ("<a href=" ++ [dquote] ++ escape url true ++ [dquote]
                          ++ ">" ++ label ++ "</a>", close_paren + 1)
                  else
                    label <- parse_inline_fuel f label_text ;;
                    Ok (label, close_paren + 1)
              | None => Ok (escape [ch] true, i + 1)
              end
            else Ok (escape [ch] true, i + 1)
        | None => Ok (escape [ch] true, i + 1)
        end
      else Ok (escape [ch] true, i + 1)
  end.

(** Fuel that is enough for a text (see [parse_inline_fuel_enough]). *)
Definition inline_fuel (text : str) : nat := 2 * length text + 2.

(** [parse_inline], which returns on every text. *)
Definition parse_inline (text : str) : str :=
  unwrap [] (parse_inline_fuel (inline_fuel text) text).

(** One turn of the loop at cursor [i], and the output of the loop from
    [i] on. *)
Definition inline_piece (text : str) (i : nat) : str * nat :=
  unwrap ([], i) (inline_step (2 * (length text - i)) text i).

Definition inline_from (text : str) (i : nat) : str :=
  concat (unwrap [] (inline_loop (2 * (length text - i) + 1) text i [])).

(** ** [is_list_line] and [parse_list] *)

Inductive ltype : Type := ul | ol.

Definition ltype_eqb (a b : ltype) : bool :=
  match a, b with
  | ul, ul | ol, ol => true
  | _, _ => false
  end.

Definition tag (t : ltype) : str :=
  match t with ul => "ul" | ol => "ol" end.

Definition open_tag (t : ltype) : str := "<" ++ tag t ++ ">".
Definition close_tag (t : ltype) : str := "</" ++ tag t ++ ">".

(** [s.startswith(("- ", "* ", "+ "))] *)
Definition starts_bullet (s : str) : bool :=
  startswith "- " s || startswith "* " s || startswith "+ " s.

(** [j = 0; while j < len(s) and s[j].isdigit(): j += 1] *)
Fixpoint digit_run (s : str) : nat :=
  match s with
  | c :: s' => if isdigit c then S (digit_run s') else 0
  | [] => 0
  end.

(** [j > 0 and j < len(s) and s[j] == "." and s[j + 1:j + 2] == " "] *)
Definition ordinal_at (s : str) (j : nat) : bool :=
  (0 <? j) && (j <? length s) && char_is s j "."
  && eq_str (slice s (j + 1) (j + 2)) " ".

Definition is_list_line (s : str) : bool :=
  if negb (nonempty s) then false
  else if starts_bullet s then true
  else ordinal_at s (digit_run s).

(** The marker of a list line in [parse_list]: its list type and the text
    after the marker; [None] is the [break] of the loop. *)
Definition list_item (stripped : str) : option (ltype * str) :=
  if starts_bullet stripped then Some (ul, skipn 2 stripped)
  else
    let j := digit_run stripped in
    if ordinal_at stripped j then Some (ol, skipn (j + 2) stripped)
    else None.

(** [len(line) - len(line.lstrip(" "))] *)
Definition indent_of (line : str) : nat :=
  length line - length (lstrip_sp line).

(** The stack of open lists has its innermost level first. *)
Definition level : Type := ltype * nat.

(** [while stack and (indent < stack[-1][1] or
                      (indent == stack[-1][1] and ltype != stack[-1][0]))] *)
Fixpoint close_levels (indent : nat) (lt : ltype) (stack : list level)
  (html : list str) : list level * list str :=
  match stack with
  | (t, ind) :: rest =>
      if (indent <? ind) || ((indent =? ind) && negb (ltype_eqb lt t))
      then close_levels indent lt rest (html ++ [close_tag t])
      else (stack, html)
  | [] => ([], html)
  end.

(** [if not stack or ltype != stack[-1][0] or indent > stack[-1][1]] *)
Definition opens_level (indent : nat) (lt : ltype) (stack : list level) : bool :=
  match stack with
  | [] => true
  | (t, ind) :: _ => negb (ltype_eqb lt t) || (ind <? indent)
  end.

Definition open_level (indent : nat) (lt : ltype) (stack : list level)
  (html : list str) : list level * list str :=
  if opens_level indent lt stack
  then ((lt, indent) :: stack, html ++ [open_tag lt])
  else (stack, html).

(** The lookahead of [parse_list]: the indentation of the next line when
    it starts a nested list; [line] is the current line, at index [i]. *)
Definition nested_indent (lines : list str) (i : nat) (line : str) (indent : nat)
  : res (option nat) :=
  let next_i := i + 1 in
  if (next_i <? length lines) && nonempty (strip line) then
    next_line <- get lines next_i ;;
    let next_indent := indent_of next_line in
    let next_stripped := lstrip_sp next_line in
    if (indent <? next_indent) && is_list_line next_stripped
    then Ok (Some next_indent)
    else Ok None
  else Ok None.

(** The state of the loop of [parse_list]: [html], [stack] and [i]. *)
Definition list_state : Type := list str * list level * nat.

(** [parse_list_fuel] is the function and [list_loop] its [while i < n]
    loop.  The function never reads [base_indent], here as in the source.
    [parse_inline] is the inline formatter run with enough fuel. *)

Fixpoint parse_list_fuel (fuel : nat) (lines : list str) (start base_indent : nat)
  {struct fuel} : res (str * nat) :=
  match fuel with
  | O => OutOfFuel
  | S f =>
      st <- list_loop f lines start [] [] ;;
      let '(html, stack, i) := st in
      (* while stack: html.append(f"</{stack.pop()[0]}>") *)
      Ok (concat (html ++ map (fun lv => close_tag (fst lv)) stack), i)
  end

with list_loop (fuel : nat) (lines : list str) (i : nat) (stack : list level)
  (html : list str) {struct fuel} : res list_state :=
  match fuel with
  | O => OutOfFuel
  | S f =>
      if i <? length lines then
        line <- get lines i ;;
        if negb (nonempty (strip line)) then Ok (html, stack, i)
        else
          let indent := indent_of line in
          let stripped := lstrip_sp line in
          match list_item stripped with
          | None => Ok (html, stack, i)
          | Some (lt, content) =>
              let '(stack1, html1) := close_levels indent lt stack html in
              let '(stack2, html2) := open_level indent lt stack1 html1 in
              nested <- nested_indent lines i line indent ;;
              match nested with
              | Some next_indent =>
                  let html3 := html2 ++ ["<li>" ++ parse_inline content] in
                  r <- parse_list_fuel f lines (i + 1) next_indent ;;
                  let '(nested_html, new_i) := r in
                  list_loop f lines new_i stack2 (html3 ++ [nested_html] ++ ["</li>" : str])
              | None =>
                  list_loop f lines (i + 1) stack2
                    (html2 ++ ["<li>" ++ parse_inline content ++ "</li>"])
              end
          end
      else Ok (html, stack, i)
  end.

(** Fuel that is enough from line [start] on (see [parse_list_fuel_enough]). *)
Definition list_fuel (lines : list str) (start : nat) : nat :=
  2 * (length lines - start) + 2.

(** [parse_list], which returns on every line sequence. *)
Definition parse_list (lines : list str) (start base_indent : nat) : str * nat :=
  unwrap ([], start) (parse_list_fuel (list_fuel lines start) lines start base_indent).

(** ** The block loop of [parse_markdown] *)

(** [for j in range(i + 1, n): if lines[j].startswith("```")] over the
    lines from index [j] on. *)
Fixpoint find_fence (ls : list str) (j : nat) : option nat :=
  match ls with
  | [] => None
  | l :: ls' => if startswith "```" l then Some j else find_fence ls' (S j)
  end.

(** [while hashes < len(stripped) and stripped[hashes] == "#"] *)
Fixpoint hash_run (s : str) : nat :=
  match s with
  | c :: s' => if Ascii.eqb c "#" then S (hash_run s') else 0
  | [] => 0
  end.

(** The digit of a heading level, [f"{hashes}"] for [1 <= hashes <= 6]. *)
Definition level_digit (hashes : nat) : str :=
  [ascii_of_nat (48 + hashes)].

(** [while i < n and lines[i].strip(): para.append(lines[i].strip())]
    over the lines from the cursor on. *)
Fixpoint para_lines (ls : list str) : list str :=
  match ls with
  | [] => []
  | l :: ls' => if nonempty (strip l) then strip l :: para_lines ls' else []
  end.

(** The test of the block loop for a list line:
    [stripped.startswith(("- ", "* ", "+ ")) or
     (stripped and stripped[0].isdigit() and "." in stripped)] *)
Definition takes_for_list (stripped : str) : bool :=
  starts_bullet stripped
  || (nonempty stripped
      && match stripped with c :: _ => isdigit c | [] => false end
      && contains "." stripped).

(** One turn of the block loop at line [i]: the block appended to [output],
    if any, and the new [i]. *)
Definition block_step (lines : list str) (i : nat) : res (option str * nat) :=
  line <- get lines i ;;
  if startswith "```" line then
    match find_fence (skipn (i + 1) lines) (i + 1) with
    | None => Ok (Some ("<p>" ++ escape line true ++ "</p>"), i + 1)
    | Some close_idx =>
        let lang := strip (skipn 3 line) in
        let code := map (fun l => escape l true) (slice lines (i + 1) close_idx) in
        let class_attr : str :=
          if nonempty lang
          then " class=" ++ [dquote] ++ "language-" ++ escape lang true ++ [dquote]
          else [] in
        Ok (Some ("<pre><code" ++ class_attr ++ ">" ++ ["010"%char]
                    ++ join ["010"%char] code
                    ++ ["010"%char] ++ "</code></pre>"), close_idx + 1)
    end
  else
    let stripped := lstrip line in
    let hashes := hash_run stripped in
    if (1 <=? hashes) && (hashes <=? 6)
       && eq_str (slice stripped hashes (hashes + 1)) " "
    then
      let text := strip (rstrip_hash_sp (skipn (hashes + 1) stripped)) in
      Ok (Some ("<h" ++ level_digit hashes ++ ">" ++ parse_inline text
                  ++ "</h" ++ level_digit hashes ++ ">"), i + 1)
    else
      let stripped := lstrip_sp line in
      let indent := length line - length stripped in
      if takes_for_list stripped then
        let '(html, i') := parse_list lines i indent in
        Ok (Some html, i')
      else if nonempty (strip line) then
        let para := strip line :: para_lines (skipn (i + 1) lines) in
        Ok (Some ("<p>" ++ parse_inline (join " " para) ++ "</p>"),
            i + length para)
      else Ok (None, i + 1).

(** [while i < n] of [parse_markdown]; [fuel] bounds the turns, for the
    loop does not end on every input. *)
Fixpoint block_loop (fuel : nat) (lines : list str) (i : nat) (output : list str)
  : res (list str) :=
  match fuel with
  | O => OutOfFuel
  | S f =>
      if i <? length lines then
        st <- block_step lines i ;;
        let '(block, i') := st in
        block_loop f lines i'
          (match block with Some b => output ++ [b] | None => output end)
      else Ok output
  end.

Definition parse_markdown_fuel (fuel : nat) (markdown : str) : res str :=
  if negb (nonempty markdown) || negb (nonempty (strip markdown)) then Ok []
  else
    output <- block_loop fuel (splitlines markdown) 0 [] ;;
    Ok (join ["010"%char] output).


(** ** Notions the theorems are stated with *)

(** The closing delimiter the italic scan finds from [e] on. *)
Definition em_close (text : str) (ch : ascii) (e : nat) : option nat :=
  unwrap None (em_scan (S (length text - e)) text ch e).

(** The delimiter characters of bold and italic spans. *)
Definition is_emph (d : ascii) : Prop := d = "*"%char \/ d = "_"%char.



(** The loop of [parse_list] from line [i] on, with enough fuel. *)
Definition list_run (lines : list str) (i : nat) (stack : list level)
  (html : list str) : list_state :=
  unwrap (html, stack, i)
    (list_loop (2 * (length lines - i) + 1) lines i stack html).

(** Where the loop of [parse_list] stops: at the end of the lines, at a
    blank line, or at a line that is no list item. *)
Definition list_stops (lines : list str) (i : nat) : Prop :=
  length lines <= i
  \/ exists line, nth_error lines i = Some line
                  /\ (nonempty (strip line) = false
                      \/ list_item (lstrip_sp line) = None).

(** What [parse_list] reads of a line: whether it is blank, its
    indentation, and its list marker with the text after it. *)
Definition line_view (line : str) : bool * nat * option (ltype * str) :=
  (nonempty (strip line), indent_of line, list_item (lstrip_sp line)).

(** An ordered-list item line: spaces, a numeral, [". "] and the content. *)
Definition ordinal_line (sp numeral content : str) : str :=
  sp ++ numeral ++ ". " ++ content.

Definition all_spaces (sp : str) : Prop := Forall (fun c => c = " "%char) sp.

Definition is_numeral (d : str) : Prop := d <> [] /\ forallb isdigit d = true.

(** What the italic scan passes over while it looks for the closing [ch]:
    characters other than [ch], and doubled [ch]. *)
Inductive skips (ch : ascii) : str -> Prop :=
| skips_nil : skips ch []
| skips_other c s : c <> ch -> skips ch s -> skips ch (c :: s)
| skips_pair s : skips ch s -> skips ch (ch :: ch :: s).

(** The anchor element of a link. *)
Definition anchor (url label_html : str) : str :=
  "<a href=" ++ [dquote] ++ escape url true ++ [dquote] ++ ">"
    ++ label_html ++ "</a>".

(** The strings one turn of the inline loop appends, by kind. *)
Inductive piece_shape (text : str) : str -> Prop :=
| ps_escaped s : piece_shape text (escape s true)
| ps_code s : piece_shape text ("<code>" ++ escape s true ++ "</code>")
| ps_strong a b :
    0 < a -> piece_shape text ("<strong>" ++ parse_inline (slice text a b) ++ "</strong>")
| ps_em a b :
    0 < a -> piece_shape text ("<em>" ++ parse_inline (slice text a b) ++ "</em>")
| ps_link a b url :
    0 < a -> In "]"%char text ->
    piece_shape text (anchor url (parse_inline (slice text a b)))
| ps_label a b :
    0 < a -> piece_shape text (parse_inline (slice text a b)).

(** The entity [html.escape] writes for a character, or the character. *)
Definition entity (c : ascii) : str :=
  if Ascii.eqb c "&" then "&amp;"
  else if Ascii.eqb c "<" then "&lt;"
  else if Ascii.eqb c ">" then "&gt;"
  else if Ascii.eqb c dquote then "&quot;"
  else if Ascii.eqb c squote then "&#x27;"
  else [c].

(** The characters [html.escape] replaces when [quote] is true. *)
Definition html_special (c : ascii) : Prop :=
  c = "&"%char \/ c = "<"%char \/ c = ">"%char \/ c = dquote \/ c = squote.

(** Every [<] is followed by a character other than [a]: the text holds
    no start of an anchor tag and does not end in [<]. *)
Fixpoint no_anchor_start (s : str) : bool :=
  match s with
  | [] => true
  | c :: s' =>
      if Ascii.eqb c "<" then
        match s' with
        | [] => false
        | x :: _ => negb (Ascii.eqb x "a") && no_anchor_start s'
        end
      else no_anchor_start s'
  end.

(** ** The shape of the output

    [inline_html] holds of the texts built from escaped text and from
    the span elements, each with its closing tag. *)
Inductive inline_html : str -> Prop :=
| ih_nil : inline_html []
| ih_text s : inline_html (escape s true)
| ih_app x y : inline_html x -> inline_html y -> inline_html (x ++ y)
| ih_code s : inline_html ("<code>" ++ escape s true ++ "</code>")
| ih_strong h : inline_html h -> inline_html ("<strong>" ++ h ++ "</strong>")
| ih_em h : inline_html h -> inline_html ("<em>" ++ h ++ "</em>")
| ih_link url h : inline_html h -> inline_html (anchor url h).

(** The fragments of [parse_list]: list and item tags around inline
    output. *)
Inductive list_html : str -> Prop :=
| lh_nil : list_html []
| lh_app x y : list_html x -> list_html y -> list_html (x ++ y)
| lh_open t : list_html (open_tag t)
| lh_close t : list_html (close_tag t)
| lh_item_open : list_html "<li>"
| lh_item_close : list_html "</li>"
| lh_inline h : inline_html h -> list_html h.

(** The [class] attribute of a code block. *)
Definition class_attr (lang : str) : str :=
  if nonempty lang
  then " class=" ++ [dquote] ++ "language-" ++ escape lang true ++ [dquote]
  else [].

(** The code block built from the opening fence line and the body lines. *)
Definition code_block (lang : str) (body : list str) : str :=
  "<pre><code" ++ class_attr lang ++ ">" ++ ["010"%char]
    ++ join ["010"%char] (map (fun l => escape l true) body)
    ++ ["010"%char] ++ "</code></pre>".

(** The blocks of [parse_markdown]. *)
Inductive block_html : str -> Prop :=
| bh_literal line : block_html ("<p>" ++ escape line true ++ "</p>")
| bh_code lang body : block_html (code_block lang body)
| bh_heading n h :
    1 <= n <= 6 -> inline_html h ->
    block_html ("<h" ++ level_digit n ++ ">" ++ h ++ "</h" ++ level_digit n ++ ">")
| bh_list h : list_html h -> block_html h
| bh_para h : inline_html h -> block_html ("<p>" ++ h ++ "</p>").

Definition doc_html (out : str) : Prop :=
  exists blocks, Forall block_html blocks /\ out = join ["010"%char] blocks.

(** The input of the nested-list scenario, as the specification gives it
    and with the space after [c] that the repository's test has, and the
    output for the first. *)
Definition nested_input : str :=
  "- a" ++ ["010"%char] ++ "- b" ++ ["010"%char] ++ "- c" ++ ["010"%char]
    ++ "  - nested1" ++ ["010"%char] ++ "  - nested2".

Definition nested_input_spaced : str :=
  "- a" ++ ["010"%char] ++ "- b" ++ ["010"%char] ++ "- c " ++ ["010"%char]
    ++ "  - nested1" ++ ["010"%char] ++ "  - nested2".

Definition nested_output : str :=
  "<ul><li>a</li><li>b</li><li>c<ul><li>nested1</li><li>nested2</li></ul></li></ul>".

(** [sub in parse_markdown(markdown)], for the tests of the repository. *)
Definition output_has (fuel : nat) (markdown sub : str) : bool :=
  match parse_markdown_fuel fuel markdown with
  | Ok out => contains sub out
  | _ => false
  end.

Definition nl : str := ["010"%char].

(** ** Notions for the further properties *)

(** A character that starts no span: not a backtick, [*], [_] or [[]. *)
Definition plain_char (c : ascii) : Prop :=
  c <> "`"%char /\ ~ is_emph c /\ c <> "["%char.

Definition plain_text (s : str) : Prop := Forall plain_char s.

(** A result with its index moved by [m]. *)
Definition shift_scan (m : nat) (r : res (option nat)) : res (option nat) :=
  x <- r ;; Ok (option_map (Nat.add m) x).

Definition shift_step (m : nat) (r : res (str * nat)) : res (str * nat) :=
  st <- r ;; Ok (fst st, m + snd st).


(** Line [k] is a list item: the loop of [parse_list] reads it. *)
Definition is_item_line (lines : list str) (k : nat) : Prop :=
  exists line item,
    nth_error lines k = Some line /\ list_item (lstrip_sp line) = Some item.

(** Well-nested list output: [list_elems] is a sequence of whole list
    elements, [list_items] one or more whole items, each holding its inline
    content and then a sequence of nested list elements. *)
Inductive list_elems : str -> Prop :=
| le_nil : list_elems []
| le_cons t items rest :
    list_items items -> list_elems rest ->
    list_elems (open_tag t ++ items ++ close_tag t ++ rest)
with list_items : str -> Prop :=
| li_one body nested :
    inline_html body -> list_elems nested ->
    list_items ("<li>" ++ body ++ nested ++ "</li>")
| li_more items body nested :
    list_items items -> inline_html body -> list_elems nested ->
    list_items (items ++ "<li>" ++ body ++ nested ++ "</li>").

(** Output with one list still open: whole list elements, the opening
    tag, and the items read so far. *)
Definition open_list (t : ltype) (out : str) : Prop :=
  exists L I, out = L ++ open_tag t ++ I /\ list_elems L /\ list_items I.

(** The state of the loop of [parse_list] at line [i]: no list open, or
    one list open whose indentation no coming item exceeds. *)
Definition list_state_ok (lines : list str) (i : nat) (stack : list level)
  (html : list str) : Prop :=
  match stack with
  | [] => list_elems (concat html)
  | [(t, ind)] =>
      open_list t (concat html)
      /\ forall line item,
           nth_error lines i = Some line ->
           list_item (lstrip_sp line) = Some item -> indent_of line <= ind
  | _ => False
  end.

Definition list_final_ok (stack : list level) (html : list str) : Prop :=
  match stack with
  | [] => list_elems (concat html)
  | [(t, _)] => open_list t (concat html)
  | _ => False
  end.


(** The heading test of the block loop on the line stripped of leading
    whitespace: [1 <= hashes <= 6 and stripped[hashes:hashes + 1] == " "]. *)
Definition heading_test (stripped : str) : bool :=
  (1 <=? hash_run stripped) && (hash_run stripped <=? 6)
  && eq_str (slice stripped (hash_run stripped) (hash_run stripped + 1)) " ".

(** A line on which the block loop opens a paragraph: no fence, no
    heading, not taken for a list line, not blank. *)
Definition opens_paragraph (line : str) : Prop :=
  startswith "```" line = false
  /\ heading_test (lstrip line) = false
  /\ takes_for_list (lstrip_sp line) = false
  /\ nonempty (strip line) = true.

Definition heading_element (n : nat) (h : str) : str :=
  "<h" ++ level_digit n ++ ">" ++ h ++ "</h" ++ level_digit n ++ ">".

(** A line on which the block loop calls [parse_list] and [parse_list]
    reads nothing: the line is no fence and no heading, it passes the list
    test of the block loop, and the marker test of [parse_list] fails on
    it. *)
Definition stalls (line : str) : bool :=
  negb (startswith "```" line)
  && negb (heading_test (lstrip line))
  && takes_for_list (lstrip_sp line)
  && match list_item (lstrip_sp line) with Some _ => false | None => true end.

(** A fence line with indentation: whitespace, not empty, before the
    token. *)
Definition indented_fence (ws rest : str) : str := ws ++ "```" ++ rest.

Definition indentation (ws : str) : Prop :=
  ws <> [] /\ Forall (fun c => isspace c = true) ws.

(** One turn of the loop of [parse_list] at line [i], from the state
    [html], [stack]: the state at the next loop head, or [None] where the
    loop ends ([i] past the lines, a blank line, a line that is no list
    item).  The recursive call is [parse_list], run with enough fuel. *)
Definition list_turn (lines : list str) (i : nat) (stack : list level)
  (html : list str) : option list_state :=
  match nth_error lines i with
  | None => None
  | Some line =>
      if negb (nonempty (strip line)) then None
      else
        match list_item (lstrip_sp line) with
        | None => None
        | Some (lt, content) =>
            let '(stack1, html1) := close_levels (indent_of line) lt stack html in
            let '(stack2, html2) := open_level (indent_of line) lt stack1 html1 in
            match unwrap None (nested_indent lines i line (indent_of line)) with
            | Some next_indent =>
                let '(nested_html, new_i) := parse_list lines (i + 1) next_indent in
                Some ((html2 ++ ["<li>" ++ parse_inline content])
                        ++ [nested_html] ++ ["</li>" : str], stack2, new_i)
            | None =>
                Some (html2 ++ ["<li>" ++ parse_inline content ++ "</li>"],
                      stack2, i + 1)
            end
        end
  end.

(** The states at the head of the loop of [parse_list] in a call that
    starts at line [start]: the initial state, and the state after a turn
    from a state reached before. *)
Inductive list_reaches (lines : list str) (start : nat) : list_state -> Prop :=
| reach_start : list_reaches lines start ([], [], start)
| reach_turn html stack i st :
    list_reaches lines start (html, stack, i) ->
    list_turn lines i stack html = Some st ->
    list_reaches lines start st.

(** ** Text beyond U+00FF

    A Python [str] holds any code point, and [str.lower] is not Unicode
    case folding.  [Wide] is [parse_inline] once more, branch for branch as
    above, over lists of code points.  [isspace] is written out for every
    code point; [lower], which the formatter applies to the URL of a link
    only, for U+0000..U+00FF and for U+017F, LATIN SMALL LETTER LONG S
    ([modelled]). *)

Module Wide.

Definition wstr := list N.

(** The code point of a character, and a literal as code points. *)
Definition cp (c : ascii) : N := N_of_ascii c.
Definition widen (s : str) : wstr := map cp s.
Definition w (s : string) : wstr := widen (lit s).

Definition long_s : N := 0x17F.

Definition modelled (c : N) : bool := (c <=? 0xFF)%N || (c =? long_s)%N.

Definition in_range (lo hi c : N) : bool := ((lo <=? c) && (c <=? hi))%N.

(** [str.isspace] on one code point. *)
Definition isspace (c : N) : bool :=
  in_range 9 13 c || in_range 28 32 c || (c =? 0x85)%N || (c =? 0xA0)%N
  || (c =? 0x1680)%N || in_range 0x2000 0x200A c || (c =? 0x2028)%N
  || (c =? 0x2029)%N || (c =? 0x202F)%N || (c =? 0x205F)%N || (c =? 0x3000)%N.

(** [str.lower] on one modelled code point: the capitals of Basic Latin
    and Latin-1 move by 32; U+017F is a lower-case letter and stays. *)
Definition lower_char (c : N) : N :=
  if in_range 65 90 c || (in_range 192 222 c && negb (c =? 215)%N)
  then (c + 32)%N else c.

Definition lower (s : wstr) : wstr := map lower_char s.

(** Unicode case folding ([str.casefold]) on one modelled code point: as
    [str.lower], but U+00B5 folds to U+03BC, U+00DF to [ss] and U+017F to
    [s].  The parser does not call it; the specification names it. *)
Definition casefold_char (c : N) : wstr :=
  if (c =? 0xB5)%N then [0x3BC%N]
  else if (c =? 0xDF)%N then [0x73%N; 0x73%N]
  else if (c =? long_s)%N then [0x73%N]
  else [lower_char c].

Definition casefold (s : wstr) : wstr := flat_map casefold_char s.

Fixpoint startswith (pre s : wstr) : bool :=
  match pre, s with
  | [], _ => true
  | p :: pre', c :: s' => (p =? c)%N && startswith pre' s'
  | _ :: _, [] => false
  end.

Definition startswith_at (pre s : wstr) (i : nat) : bool :=
  startswith pre (skipn i s).

Definition char_is (s : wstr) (j : nat) (c : N) : bool :=
  match nth_error s j with
  | Some x => (x =? c)%N
  | None => false
  end.

Fixpoint find_from (sub s : wstr) (k : nat) : option nat :=
  match s with
  | [] => if startswith sub [] then Some k else None
  | _ :: s' => if startswith sub s then Some k else find_from sub s' (S k)
  end.

Definition find (sub s : wstr) (start : nat) : option nat :=
  find_from sub (skipn start s) start.

Fixpoint dropwhile (p : N -> bool) (s : wstr) : wstr :=
  match s with
  | [] => []
  | c :: s' => if p c then dropwhile p s' else s
  end.

(** [s.strip()] *)
Definition strip (s : wstr) : wstr :=
  rev (dropwhile isspace (rev (dropwhile isspace s))).

Definition replace (old : N) (new : wstr) (s : wstr) : wstr :=
  flat_map (fun c => if (c =? old)%N then new else [c]) s.

(** [html.escape(s, quote)] *)
Definition escape (s : wstr) (quote : bool) : wstr :=
  let s := replace (cp "&") (w "&amp;") s in
  let s := replace (cp "<") (w "&lt;") s in
  let s := replace (cp ">") (w "&gt;") s in
  if quote
  then replace (cp squote) (w "&#x27;") (replace (cp dquote) (w "&quot;") s)
  else s.

Definition too_long (text : wstr) : bool :=
  (MAX_INLINE_CHARS <? N.of_nat (length text))%N.

Fixpoint em_scan (fuel : nat) (text : wstr) (ch : N) (e : nat)
  : res (option nat) :=
  match fuel with
  | O => OutOfFuel
  | S f =>
      match find [ch] text e with
      | None => Ok None
      | Some e' =>
          if negb ((e' + 1 <? length text) && char_is text (e' + 1) ch)
          then Ok (Some e')
          else em_scan f text ch (e' + 2)
      end
  end.

Fixpoint parse_inline_fuel (fuel : nat) (text : wstr) {struct fuel} : res wstr :=
  match fuel with
  | O => OutOfFuel
  | S f =>
      if too_long text then Ok (escape text true)
      else result <- inline_loop f text 0 [] ;; Ok (concat result)
  end

with inline_loop (fuel : nat) (text : wstr) (i : nat) (result : list wstr)
  {struct fuel} : res (list wstr) :=
  match fuel with
  | O => OutOfFuel
  | S f =>
      if i <? length text then
        st <- inline_step f text i ;;
        inline_loop f text (snd st) (result ++ [fst st])
      else Ok result
  end

with inline_step (fuel : nat) (text : wstr) (i : nat) {struct fuel}
  : res (wstr * nat) :=
  match fuel with
  | O => OutOfFuel
  | S f =>
      ch <- get text i ;;
      if (ch =? cp "`")%N then
        match find (w "`") text (i + 1) with
        | Some e =>
            Ok (w "<code>" ++ escape (slice text (i + 1) e) true ++ w "</code>", e + 1)
        | None => Ok (escape [ch] true, i + 1)
        end
      else if startswith_at (w "**") text i || startswith_at (w "__") text i then
        let delim := slice text i (i + 2) in
        match find delim text (i + 2) with
        | Some e =>
            inner <- parse_inline_fuel f (slice text (i + 2) e) ;;
            Ok (w "<strong>" ++ inner ++ w "</strong>", e + 2)
        | None => Ok (escape delim true, i + 2)
        end
      else if (ch =? cp "*")%N || (ch =? cp "_")%N then
        if (i + 1 <? length text) && char_is text (i + 1) ch then
          Ok (escape [ch; ch] true, i + 2)
        else
          e <- em_scan f text ch (i + 1) ;;
          match e with
          | Some e =>
              inner <- parse_inline_fuel f (slice text (i + 1) e) ;;
              Ok (w "<em>" ++ inner ++ w "</em>", e + 1)
          | None => Ok (escape [ch] true, i + 1)
          end
      else if (ch =? cp "[")%N then
        match find (w "]") text (i + 1) with
        | Some close_bracket =>
            if (close_bracket + 1 <? length text)
               && char_is text (close_bracket + 1) (cp "(")
            then
              match find (w ")") text (close_bracket + 2) with
              | Some close_paren =>
                  let label_text := slice text (i + 1) close_bracket in
                  let url := strip (slice text (close_bracket + 2) close_paren) in
                  if negb (startswith (w "javascript:") (lower url)) then
                    label <- parse_inline_fuel f label_text ;;
                    Ok (w "<a href=" ++ [cp dquote] ++ escape url true ++ [cp dquote]
                          ++ w ">" ++ label ++ w "</a>", close_paren + 1)
                  else
                    label <- parse_inline_fuel f label_text ;;
                    Ok (label, close_paren + 1)
              | None => Ok (escape [ch] true, i + 1)
              end
            else Ok (escape [ch] true, i + 1)
        | None => Ok (escape [ch] true, i + 1)
        end
      else Ok (escape [ch] true, i + 1)
  end.

Definition parse_inline (text : wstr) : wstr :=
  unwrap [] (parse_inline_fuel (2 * length text + 2) text).

(** One turn of the loop at cursor [i], and the output of the loop from
    [i] on, as for [parse_inline]. *)
Definition inline_piece (text : wstr) (i : nat) : wstr * nat :=
  unwrap ([], i) (inline_step (2 * (length text - i)) text i).

Definition inline_from (text : wstr) (i : nat) : wstr :=
  concat (unwrap [] (inline_loop (2 * (length text - i) + 1) text i [])).

(** [sub in s] *)
Definition contains (sub s : wstr) : bool :=
  match find sub s 0 with Some _ => true | None => false end.

Definition anchor (url label_html : wstr) : wstr :=
  w "<a href=" ++ [cp dquote] ++ escape url true ++ [cp dquote] ++ w ">"
    ++ label_html ++ w "</a>".

(** The strings one turn of the loop appends, by kind. *)
Inductive piece_shape (text : wstr) : wstr -> Prop :=
| ps_escaped s : piece_shape text (escape s true)
| ps_code s : piece_shape text (w "<code>" ++ escape s true ++ w "</code>")
| ps_strong a b :
    0 < a ->
    piece_shape text (w "<strong>" ++ parse_inline (slice text a b) ++ w "</strong>")
| ps_em a b :
    0 < a -> piece_shape text (w "<em>" ++ parse_inline (slice text a b) ++ w "</em>")
| ps_link a b url :
    0 < a -> In (cp "]") text ->
    piece_shape text (anchor url (parse_inline (slice text a b)))
| ps_label a b :
    0 < a -> piece_shape text (parse_inline (slice text a b)).

(** Every [<] is followed by a code point other than [a]. *)
Fixpoint no_anchor_start (s : wstr) : bool :=
  match s with
  | [] => true
  | c :: s' =>
      if (c =? cp "<")%N then
        match s' with
        | [] => false
        | x :: _ => negb (x =? cp "a")%N && no_anchor_start s'
        end
      else no_anchor_start s'
  end.

End Wide.

(** A link whose URL has the long s in place of the [s] of [javascript:]. *)
Definition long_s_url : Wide.wstr :=
  Wide.w "java" ++ [Wide.long_s] ++ Wide.w "cript:alert".

Definition long_s_link : Wide.wstr :=
  Wide.w "[x](" ++ long_s_url ++ Wide.w ")".

(** A result with its value mapped. *)
Definition map_res {A B} (f : A -> B) (r : res A) : res B :=
  x <- r ;; Ok (f x).
(** * Theorems *)

Arguments lit : simpl never.

(** ** Python helpers *)

Lemma get_lt {A} (l : list A) (i : nat) :
  i < length l -> exists x, get l i = Ok x /\ nth_error l i = Some x.
Proof.
  intros H. unfold get. destruct (nth_error l i) eqn:E.
  - eauto.
  - apply nth_error_None in E. lia.
Qed.

Lemma startswith_length (pre s : str) :
  startswith pre s = true -> length pre <= length s.
Proof.
  revert s. induction pre as [|p pre IH]; intros [|c s] H; simpl in *;
    try discriminate; try lia.
  apply andb_true_iff in H. destruct H as [_ H]. apply IH in H. lia.
Qed.

Lemma find_from_bounds (sub s : str) (k e : nat) :
  find_from sub s k = Some e ->
  k <= e /\ (e - k) + length sub <= length s
  /\ startswith sub (skipn (e - k) s) = true.
Proof.
  revert k. induction s as [|c s IH]; intros k H; simpl in H.
  - destruct (startswith sub []) eqn:E; inversion H; subst.
    replace (e - e) with 0 by lia. apply startswith_length in E as E'.
    simpl in *. repeat split; try lia. exact E.
  - destruct (startswith sub (c :: s)) eqn:E.
    + inversion H; subst. replace (e - e) with 0 by lia.
      apply startswith_length in E as E'. simpl in *. repeat split; try lia. exact E.
    + apply IH in H. destruct H as (H1 & H2 & H3).
      replace (e - k) with (S (e - S k)) by lia. simpl. repeat split; try lia. exact H3.
Qed.

Lemma find_bounds (sub s : str) (start e : nat) :
  0 < length sub ->
  find sub s start = Some e ->
  start <= e /\ e + length sub <= length s /\ startswith_at sub s e = true.
Proof.
  intros Hsub H. unfold find in H. apply find_from_bounds in H.
  destruct H as (H1 & H2 & H3). rewrite length_skipn in H2.
  unfold startswith_at. rewrite skipn_skipn in H3.
  replace (e - start + start) with e in H3 by lia.
  repeat split; try lia. exact H3.
Qed.

(** [find] for a single character splits the text at its first occurrence. *)
Lemma find_from_char (ch : ascii) (s : str) (k : nat) :
  match find_from [ch] s k with
  | Some e => exists pre post,
      s = pre ++ ch :: post /\ Forall (fun c => c <> ch) pre /\ e = k + length pre
  | None => Forall (fun c => c <> ch) s
  end.
Proof.
  revert k. induction s as [|c s IH]; intros k; simpl.
  - constructor.
  - rewrite andb_true_r. destruct (Ascii.eqb ch c) eqn:E.
    + apply Ascii.eqb_eq in E. subst c. exists [], s. simpl.
      repeat split; [constructor|lia].
    + apply Ascii.eqb_neq in E. specialize (IH (S k)).
      destruct (find_from [ch] s (S k)) as [e|].
      * destruct IH as (pre & post & -> & Hp & ->).
        exists (c :: pre), post. simpl. repeat split; [|lia].
        constructor; [congruence|exact Hp].
      * constructor; [congruence|exact IH].
Qed.

Lemma slice_length {A} (s : list A) (a b : nat) :
  length (slice s a b) <= length s - a /\ length (slice s a b) <= b - a.
Proof.
  unfold slice. rewrite length_firstn, length_skipn. lia.
Qed.

(** ** Fuel *)

(** [le_res r1 r2]: [r2] is [r1], or [r1] ran out of fuel. *)
Definition le_res {A} (r1 r2 : res A) : Prop := r1 = OutOfFuel \/ r1 = r2.

Lemma le_res_refl {A} (r : res A) : le_res r r.
Proof. right; reflexivity. Qed.

Lemma le_res_bind {A B} (m m' : res A) (k k' : A -> res B) :
  le_res m m' -> (forall a, le_res (k a) (k' a)) -> le_res (bind m k) (bind m' k').
Proof.
  unfold le_res. intros [->| ->] Hk.
  - left; reflexivity.
  - destruct m'; simpl; auto using le_res_refl.
Qed.

Lemma le_res_ok {A} (r1 r2 : res A) (a : A) : le_res r1 r2 -> r1 = Ok a -> r2 = Ok a.
Proof. unfold le_res. intros [->| ->]; [discriminate | auto]. Qed.

Ltac le_res_tac :=
  repeat first
    [ apply le_res_refl
    | left; reflexivity
    | match goal with
      | |- le_res (bind _ _) (bind _ _) => apply le_res_bind; [| intro]
      | |- le_res (if ?b then _ else _) (if ?b then _ else _) => destruct b
      | |- le_res (match ?x with _ => _ end) (match ?x with _ => _ end) => destruct x
      end ].

Lemma em_scan_mono (f f' : nat) (text : str) (ch : ascii) (e : nat) :
  f <= f' -> le_res (em_scan f text ch e) (em_scan f' text ch e).
Proof.
  revert f' e. induction f as [|f IH]; intros f' e Hle.
  - left; reflexivity.
  - destruct f' as [|f']; [lia|]. simpl.
    destruct (find [ch] text e); le_res_tac. apply IH. lia.
Qed.

Lemma inline_mono (f : nat) :
  (forall f' text, f <= f' ->
     le_res (parse_inline_fuel f text) (parse_inline_fuel f' text))
  /\ (forall f' text i result, f <= f' ->
     le_res (inline_loop f text i result) (inline_loop f' text i result))
  /\ (forall f' text i, f <= f' ->
     le_res (inline_step f text i) (inline_step f' text i)).
Proof.
  induction f as [|f (IHp & IHl & IHs)].
  - repeat split; intros; left; reflexivity.
  - repeat split; intros f' text; intros; (destruct f' as [|f']; [lia|]);
      assert (Hf : f <= f') by lia; simpl.
    + le_res_tac. apply IHl, Hf.
    + le_res_tac; [apply IHs, Hf | apply IHl, Hf].
    + le_res_tac; try (apply IHp, Hf). apply em_scan_mono, Hf.
Qed.

Lemma em_scan_enough (f : nat) (text : str) (ch : ascii) (e : nat) :
  length text - e < f ->
  exists r, em_scan f text ch e = Ok r
            /\ forall e', r = Some e' -> e <= e' < length text.
Proof.
  revert e. induction f as [|f IH]; intros e Hf; [lia|]. simpl.
  destruct (find [ch] text e) as [e'|] eqn:E.
  - apply find_bounds in E; [|simpl; lia]. simpl in E.
    destruct (negb _) eqn:B.
    + eexists; split; [reflexivity|]. intros ? [= <-]. lia.
    + destruct (IH (e' + 2)) as (r & Hr & Hb); [lia|].
      exists r; split; [exact Hr|]. intros e'' He. apply Hb in He. lia.
  - eexists; split; [reflexivity|]. discriminate.
Qed.

Lemma startswith_at_bound (pre s : str) (i : nat) :
  startswith_at pre s i = true -> 0 < length pre -> i + length pre <= length s.
Proof.
  unfold startswith_at. intros H Hp. apply startswith_length in H.
  rewrite length_skipn in H. lia.
Qed.

Lemma slice_exact {A} (s : list A) (a b : nat) :
  b <= length s -> length (slice s a b) = b - a.
Proof. intros H. unfold slice. rewrite length_firstn, length_skipn. lia. Qed.

Lemma inline_enough (f : nat) :
  (forall text, 2 * length text + 2 <= f ->
     exists out, parse_inline_fuel f text = Ok out)
  /\ (forall text i result, 2 * (length text - i) + 1 <= f ->
     exists out, inline_loop f text i result = Ok out)
  /\ (forall text i, i < length text -> 2 * (length text - i) <= f ->
     exists p i', inline_step f text i = Ok (p, i') /\ i < i' <= length text).
Proof.
  induction f as [|f (IHp & IHl & IHs)].
  - repeat split; intros; lia.
  - repeat split.
    + intros text Hf. simpl. destruct (too_long text); [eauto|].
      destruct (IHl text 0 []) as [r Hr]; [lia|]. rewrite Hr. simpl. eauto.
    + intros text i result Hf. simpl. destruct (i <? length text) eqn:Hi; [|eauto].
      apply Nat.ltb_lt in Hi.
      destruct (IHs text i) as (p & i' & Hs & Hb); [lia|lia|].
      rewrite Hs. simpl. apply IHl. lia.
    + intros text i Hi Hf. simpl.
      assert (Hrec : forall a b, i < a -> a <= b -> b < length text ->
                exists h, parse_inline_fuel f (slice text a b) = Ok h).
      { intros a b Ha Hab Hb. apply IHp.
        pose proof (slice_length text a b). lia. }
      destruct (get_lt text i Hi) as (ch & Hg & Hn). rewrite Hg. simpl.
      destruct (Ascii.eqb ch "`").
      { destruct (find "`" text (i + 1)) as [e|] eqn:E.
        - apply find_bounds in E; [|simpl; lia]. simpl in E.
          do 2 eexists; split; [reflexivity|lia].
        - do 2 eexists; split; [reflexivity|lia]. }
      destruct (startswith_at "**" text i || startswith_at "__" text i) eqn:Hb.
      { assert (Hi2 : i + 2 <= length text).
        { apply orb_true_iff in Hb.
          destruct Hb as [Hb|Hb]; apply startswith_at_bound in Hb; simpl in *; lia. }
        destruct (find (slice text i (i + 2)) text (i + 2)) as [e|] eqn:E.
        - apply find_bounds in E; [|rewrite slice_exact; lia].
          rewrite slice_exact in E by lia.
          destruct (Hrec (i + 2) e) as [h Hh]; try lia. rewrite Hh. simpl.
          do 2 eexists; split; [reflexivity|lia].
        - do 2 eexists; split; [reflexivity|lia]. }
      destruct (Ascii.eqb ch "*" || Ascii.eqb ch "_").
      { destruct ((i + 1 <? length text) && char_is text (i + 1) ch) eqn:Hd.
        - apply andb_true_iff in Hd. destruct Hd as [Hd _]. apply Nat.ltb_lt in Hd.
          do 2 eexists; split; [reflexivity|lia].
        - destruct (em_scan_enough f text ch (i + 1)) as (r & Hr & Hbd); [lia|].
          rewrite Hr. simpl. destruct r as [e|].
          + specialize (Hbd e eq_refl).
            destruct (Hrec (i + 1) e) as [h Hh]; try lia. rewrite Hh. simpl.
            do 2 eexists; split; [reflexivity|lia].
          + do 2 eexists; split; [reflexivity|lia]. }
      destruct (Ascii.eqb ch "[").
      { destruct (find "]" text (i + 1)) as [cb|] eqn:E;
          [|do 2 eexists; split; [reflexivity|lia]].
        apply find_bounds in E; [|simpl; lia]. simpl in E.
        destruct ((cb + 1 <? length text) && char_is text (cb + 1) "(");
          [|do 2 eexists; split; [reflexivity|lia]].
        destruct (find ")" text (cb + 2)) as [cp|] eqn:E2;
          [|do 2 eexists; split; [reflexivity|lia]].
        apply find_bounds in E2; [|simpl; lia]. simpl in E2.
        destruct (Hrec (i + 1) cb) as [h Hh]; try lia. rewrite Hh.
        destruct (negb _); simpl; do 2 eexists; split; try reflexivity; lia. }
      do 2 eexists; split; [reflexivity|lia].
Qed.

(** ** The inline formatter with enough fuel *)

Lemma parse_inline_fuel_enough (text : str) (f : nat) :
  inline_fuel text <= f -> parse_inline_fuel f text = Ok (parse_inline text).
Proof.
  intros Hf. unfold parse_inline.
  destruct (proj1 (inline_enough (inline_fuel text)) text) as [out Hout];
    [unfold inline_fuel; lia|].
  rewrite Hout. simpl.
  eapply le_res_ok; [|exact Hout]. apply (proj1 (inline_mono _)). exact Hf.
Qed.

Lemma inline_step_enough (text : str) (i f : nat) :
  i < length text -> 2 * (length text - i) <= f ->
  inline_step f text i = Ok (inline_piece text i).
Proof.
  intros Hi Hf. unfold inline_piece.
  destruct (proj2 (proj2 (inline_enough (2 * (length text - i)))) text i)
    as (p & i' & Hs & _); [lia|lia|].
  rewrite Hs. simpl.
  eapply le_res_ok; [|exact Hs]. apply (proj2 (proj2 (inline_mono _))). exact Hf.
Qed.

Lemma inline_piece_bounds (text : str) (i : nat) :
  i < length text -> i < snd (inline_piece text i) <= length text.
Proof.
  intros Hi. unfold inline_piece.
  destruct (proj2 (proj2 (inline_enough (2 * (length text - i)))) text i)
    as (p & i' & Hs & Hb); [lia|lia|].
  rewrite Hs. exact Hb.
Qed.

Lemma em_scan_fuel_enough (text : str) (ch : ascii) (e f : nat) :
  length text - e < f -> em_scan f text ch e = Ok (em_close text ch e).
Proof.
  intros Hf. unfold em_close.
  destruct (em_scan_enough (S (length text - e)) text ch e) as (r & Hr & _); [lia|].
  rewrite Hr. simpl.
  eapply le_res_ok; [|exact Hr]. apply em_scan_mono. lia.
Qed.

(** The accumulator [result] only collects the pieces. *)
Lemma inline_loop_acc (f : nat) (text : str) (i : nat) (result : list str) :
  inline_loop f text i result
  = (r <- inline_loop f text i [] ;; Ok (result ++ r)).
Proof.
  revert i result. induction f as [|f IH]; intros i result; [reflexivity|].
  simpl. destruct (i <? length text).
  - destruct (inline_step f text i) as [[p i']| |]; simpl; try reflexivity.
    rewrite (IH i' (result ++ [p])), (IH i' [p]).
    destruct (inline_loop f text i' []); simpl; try reflexivity.
    now rewrite <- app_assoc.
  - simpl. now rewrite app_nil_r.
Qed.

Lemma inline_loop_enough (text : str) (i f : nat) (result : list str) :
  2 * (length text - i) + 1 <= f ->
  exists pieces, inline_loop f text i result = Ok (result ++ pieces)
                 /\ inline_from text i = concat pieces.
Proof.
  intros Hf. unfold inline_from.
  destruct (proj1 (proj2 (inline_enough (2 * (length text - i) + 1))) text i [])
    as [out Hout]; [lia|].
  rewrite Hout. simpl. exists out. split; [|reflexivity].
  assert (H : inline_loop f text i [] = Ok out).
  { eapply le_res_ok; [|exact Hout]. apply (proj1 (proj2 (inline_mono _))). exact Hf. }
  rewrite inline_loop_acc, H. reflexivity.
Qed.

Lemma inline_loop_S (f : nat) (text : str) (i : nat) (result : list str) :
  inline_loop (S f) text i result
  = if i <? length text then
      st <- inline_step f text i ;;
      inline_loop f text (snd st) (result ++ [fst st])
    else Ok result.
Proof. reflexivity. Qed.

Lemma parse_inline_fuel_S (f : nat) (text : str) :
  parse_inline_fuel (S f) text
  = if too_long text then Ok (escape text true)
    else result <- inline_loop f text 0 [] ;; Ok (concat result).
Proof. reflexivity. Qed.

Theorem inline_from_end (text : str) (i : nat) :
  length text <= i -> inline_from text i = [].
Proof.
  intros Hi. unfold inline_from.
  replace (length text - i) with 0 by lia. simpl.
  destruct (i <? length text) eqn:E; [apply Nat.ltb_lt in E; lia|reflexivity].
Qed.

Theorem inline_from_step (text : str) (i : nat) :
  i < length text ->
  inline_from text i
  = fst (inline_piece text i) ++ inline_from text (snd (inline_piece text i)).
Proof.
  intros Hi. pose proof (inline_piece_bounds text i Hi) as Hb.
  destruct (inline_loop_enough text i (S (2 * (length text - i))) []) as (ps & Hl & ->);
    [lia|].
  rewrite inline_loop_S in Hl.
  destruct (i <? length text) eqn:E; [|apply Nat.ltb_ge in E; lia].
  rewrite (inline_step_enough text i) in Hl by lia. cbn [bind app] in Hl.
  destruct (inline_loop_enough text (snd (inline_piece text i))
              (2 * (length text - i)) [fst (inline_piece text i)]) as (qs & Hq & ->); [lia|].
  rewrite Hq in Hl. injection Hl as <-. reflexivity.
Qed.

Theorem parse_inline_unfold (text : str) :
  parse_inline text
  = if too_long text then escape text true else inline_from text 0.
Proof.
  pose proof (parse_inline_fuel_enough text (inline_fuel text) (le_n _)) as H.
  unfold inline_fuel in H.
  replace (2 * length text + 2) with (S (2 * length text + 1)) in H by lia.
  rewrite parse_inline_fuel_S in H. destruct (too_long text); [congruence|].
  destruct (inline_loop_enough text 0 (2 * length text + 1) []) as (ps & Hl & ->); [lia|].
  rewrite Hl in H. simpl in H. congruence.
Qed.

(** ** One turn of the inline loop, branch by branch *)

Lemma inline_step_S (f : nat) (text : str) (i : nat) :
  inline_step (S f) text i
  = (ch <- get text i ;;
     if Ascii.eqb ch "`" then
       match find "`" text (i + 1) with
       | Some e =>
           Ok ("<code>" ++ escape (slice text (i + 1) e) true ++ "</code>", e + 1)
       | None => Ok (escape [ch] true, i + 1)
       end
     else if startswith_at "**" text i || startswith_at "__" text i then
       let delim := slice text i (i + 2) in
       match find delim text (i + 2) with
       | Some e =>
           inner <- parse_inline_fuel f (slice text (i + 2) e) ;;
           Ok ("<strong>" ++ inner ++ "</strong>", e + 2)
       | None => Ok (escape delim true, i + 2)
       end
     else if Ascii.eqb ch "*" || Ascii.eqb ch "_" then
       if (i + 1 <? length text) && char_is text (i + 1) ch then
         Ok (escape [ch; ch] true, i + 2)
       else
         e <- em_scan f text ch (i + 1) ;;
         match e with
         | Some e =>
             inner <- parse_inline_fuel f (slice text (i + 1) e) ;;
             Ok ("<em>" ++ inner ++ "</em>", e + 1)
         | None => Ok (escape [ch] true, i + 1)
         end
     else if Ascii.eqb ch "[" then
       match find "]" text (i + 1) with
       | Some close_bracket =>
           if (close_bracket + 1 <? length text)
              && char_is text (close_bracket + 1) "("
           then
             match find ")" text (close_bracket + 2) with
             | Some close_paren =>
                 let label_text := slice text (i + 1) close_bracket in
                 let url := strip (slice text (close_bracket + 2) close_paren) in
                 if negb (startswith "javascript:" (lower url)) then
                   label <- parse_inline_fuel f label_text ;;
                   Ok ("<a href=" ++ [dquote] ++ escape url true ++ [dquote]
                         ++ ">" ++ label ++ "</a>", close_paren + 1)
                 else
                   label <- parse_inline_fuel f label_text ;;
                   Ok (label, close_paren + 1)
             | None => Ok (escape [ch] true, i + 1)
             end
           else Ok (escape [ch] true, i + 1)
       | None => Ok (escape [ch] true, i + 1)
       end
     else Ok (escape [ch] true, i + 1)).
Proof. reflexivity. Qed.

Lemma get_nth {A} (l : list A) (i : nat) (x : A) :
  nth_error l i = Some x -> get l i = Ok x.
Proof. intros H. unfold get. now rewrite H. Qed.

Lemma nth_error_lt {A} (l : list A) (i : nat) (x : A) :
  nth_error l i = Some x -> i < length l.
Proof. intros H. apply nth_error_Some. congruence. Qed.

Lemma nth_error_skipn_hd {A} (l : list A) (i : nat) :
  nth_error l i = hd_error (skipn i l).
Proof.
  revert l. induction i as [|i IH]; intros [|x l]; simpl; auto.
Qed.

Lemma skipn_S_tl {A} (l : list A) (i : nat) :
  skipn (i + 1) l = tl (skipn i l).
Proof.
  revert l. induction i as [|i IH]; intros [|x l]; simpl; auto.
Qed.

Lemma startswith_at_2 (a b : ascii) (text : str) (i : nat) :
  startswith_at [a; b] text i = char_is text i a && char_is text (i + 1) b.
Proof.
  unfold startswith_at, char_is.
  rewrite !nth_error_skipn_hd, skipn_S_tl.
  destruct (skipn i text) as [|x [|y r]]; simpl.
  - reflexivity.
  - rewrite Ascii.eqb_sym. now rewrite andb_false_r.
  - rewrite (Ascii.eqb_sym a x), (Ascii.eqb_sym b y). now rewrite andb_true_r.
Qed.

Lemma startswith_firstn (pre s : str) :
  startswith pre s = true -> firstn (length pre) s = pre.
Proof.
  revert s. induction pre as [|p pre IH]; intros [|c s] H; simpl in *;
    try discriminate; auto.
  apply andb_true_iff in H. destruct H as [Hc H].
  apply Ascii.eqb_eq in Hc. subst. f_equal. auto.
Qed.

Lemma startswith_at_slice (d text : str) (i : nat) :
  startswith_at d text i = true -> slice text i (i + length d) = d.
Proof.
  intros H. unfold slice. replace (i + length d - i) with (length d) by lia.
  now apply startswith_firstn.
Qed.

Lemma char_is_nth (text : str) (i : nat) (c : ascii) :
  char_is text i c = true <-> nth_error text i = Some c.
Proof.
  unfold char_is. destruct (nth_error text i) as [x|].
  - rewrite Ascii.eqb_eq. split; congruence.
  - split; discriminate.
Qed.

Lemma inline_piece_eq (text : str) (i f : nat) (p : str) (i' : nat) :
  i < length text -> 2 * (length text - i) <= f ->
  inline_step f text i = Ok (p, i') -> inline_piece text i = (p, i').
Proof.
  intros Hi Hf H. rewrite (inline_step_enough text i f Hi Hf) in H. congruence.
Qed.

Ltac piece_begin :=
  match goal with
  | Hn : nth_error ?text ?i = Some ?ch |- inline_piece ?text ?i = _ =>
      let Hi := fresh "Hi" in
      pose proof (nth_error_lt _ _ _ Hn) as Hi;
      apply (inline_piece_eq text i (S (2 * (length text - i))) _ _ Hi);
      [lia|];
      rewrite inline_step_S, (get_nth _ _ _ Hn); cbn [bind]
  end.

Ltac inner_ok :=
  rewrite parse_inline_fuel_enough;
  [cbn [bind]
  | unfold inline_fuel;
    match goal with
    | |- context[length (slice ?t ?a ?b)] => pose proof (slice_length t a b); lia
    end ].

Lemma piece_code_closed (text : str) (i e : nat) :
  nth_error text i = Some "`"%char ->
  find "`" text (i + 1) = Some e ->
  inline_piece text i
  = ("<code>" ++ escape (slice text (i + 1) e) true ++ "</code>", e + 1).
Proof.
  intros Hn Hf. piece_begin. rewrite Hf. reflexivity.
Qed.


Lemma bold_test (text : str) (i : nat) (d : ascii) :
  is_emph d -> startswith_at [d; d] text i = true ->
  startswith_at "**" text i || startswith_at "__" text i = true.
Proof.
  intros [->| ->] H.
  - change (lit "**") with ["*"; "*"]%char. now rewrite H.
  - change (lit "__") with ["_"; "_"]%char. rewrite H. apply orb_true_r.
Qed.

Lemma emph_not_backtick (d : ascii) : is_emph d -> Ascii.eqb d "`" = false.
Proof. intros [->| ->]; reflexivity. Qed.

Lemma piece_strong_closed (text : str) (i e : nat) (d : ascii) :
  is_emph d ->
  startswith_at [d; d] text i = true ->
  find [d; d] text (i + 2) = Some e ->
  inline_piece text i
  = ("<strong>" ++ parse_inline (slice text (i + 2) e) ++ "</strong>", e + 2).
Proof.
  intros Hd Hs Hf.
  assert (Hn : nth_error text i = Some d).
  { rewrite startswith_at_2 in Hs. apply andb_true_iff in Hs.
    now apply char_is_nth. }
  apply find_bounds in Hf as Hb; [|simpl; lia]. simpl in Hb.
  piece_begin. rewrite (emph_not_backtick d Hd), (bold_test text i d Hd Hs).
  pose proof (startswith_at_slice [d; d] text i Hs) as Hsl. cbn [length] in Hsl.
  cbv zeta. rewrite Hsl, Hf.
  inner_ok. reflexivity.
Qed.


Lemma not_bold_other (text : str) (i : nat) (ch : ascii) :
  nth_error text i = Some ch -> ~ is_emph ch ->
  startswith_at "**" text i || startswith_at "__" text i = false.
Proof.
  intros Hn Hd.
  change (lit "**") with ["*"; "*"]%char. change (lit "__") with ["_"; "_"]%char.
  rewrite !startswith_at_2. unfold char_is at 1 3. rewrite Hn.
  destruct (Ascii.eqb ch "*") eqn:E1; [apply Ascii.eqb_eq in E1; exfalso; apply Hd; now left|].
  destruct (Ascii.eqb ch "_") eqn:E2; [apply Ascii.eqb_eq in E2; exfalso; apply Hd; now right|].
  reflexivity.
Qed.

Lemma not_bold_single (text : str) (i : nat) (d : ascii) :
  nth_error text i = Some d -> is_emph d -> char_is text (i + 1) d = false ->
  startswith_at "**" text i || startswith_at "__" text i = false.
Proof.
  intros Hn Hd Hc.
  change (lit "**") with ["*"; "*"]%char. change (lit "__") with ["_"; "_"]%char.
  rewrite !startswith_at_2. unfold char_is at 1 3. rewrite Hn.
  destruct Hd as [->| ->]; rewrite Hc; simpl; now rewrite ?andb_false_r.
Qed.

Lemma emph_test (d : ascii) : is_emph d -> Ascii.eqb d "*" || Ascii.eqb d "_" = true.
Proof. intros [->| ->]; reflexivity. Qed.

Lemma not_emph_test (ch : ascii) :
  ~ is_emph ch -> Ascii.eqb ch "*" || Ascii.eqb ch "_" = false.
Proof.
  intros Hd.
  destruct (Ascii.eqb ch "*") eqn:E1; [apply Ascii.eqb_eq in E1; exfalso; apply Hd; now left|].
  destruct (Ascii.eqb ch "_") eqn:E2; [apply Ascii.eqb_eq in E2; exfalso; apply Hd; now right|].
  reflexivity.
Qed.

Lemma piece_em_closed (text : str) (i e : nat) (d : ascii) :
  is_emph d ->
  nth_error text i = Some d ->
  char_is text (i + 1) d = false ->
  em_close text d (i + 1) = Some e ->
  inline_piece text i
  = ("<em>" ++ parse_inline (slice text (i + 1) e) ++ "</em>", e + 1).
Proof.
  intros Hd Hn Hc He.
  destruct (em_scan_enough (S (length text - (i + 1))) text d (i + 1))
    as (r & Hr & Hb); [lia|].
  unfold em_close in He. rewrite Hr in He. simpl in He. subst r.
  specialize (Hb e eq_refl).
  piece_begin.
  rewrite (emph_not_backtick d Hd), (not_bold_single text i d Hn Hd Hc), (emph_test d Hd).
  rewrite Hc, andb_false_r, em_scan_fuel_enough by lia. cbn [bind].
  unfold em_close. rewrite Hr. cbn [unwrap]. inner_ok. reflexivity.
Qed.

Lemma piece_em_open (text : str) (i : nat) (d : ascii) :
  is_emph d ->
  nth_error text i = Some d ->
  char_is text (i + 1) d = false ->
  em_close text d (i + 1) = None ->
  inline_piece text i = (escape [d] true, i + 1).
Proof.
  intros Hd Hn Hc He.
  piece_begin.
  rewrite (emph_not_backtick d Hd), (not_bold_single text i d Hn Hd Hc), (emph_test d Hd).
  rewrite Hc, andb_false_r, em_scan_fuel_enough by lia. cbn [bind].
  rewrite He. reflexivity.
Qed.

Lemma bracket_not_emph : ~ is_emph "[".
Proof. intros [H|H]; discriminate. Qed.

Ltac link_begin :=
  match goal with
  | Hn : nth_error ?text ?i = Some "["%char |- _ =>
      piece_begin;
      rewrite (not_bold_other text i "[" Hn bracket_not_emph);
      cbn [Ascii.eqb Bool.eqb andb orb]
  end.

Lemma piece_link (text : str) (i cb cp : nat) :
  nth_error text i = Some "["%char ->
  find "]" text (i + 1) = Some cb ->
  char_is text (cb + 1) "(" = true ->
  find ")" text (cb + 2) = Some cp ->
  startswith "javascript:" (lower (strip (slice text (cb + 2) cp))) = false ->
  inline_piece text i
  = ("<a href=" ++ [dquote] ++ escape (strip (slice text (cb + 2) cp)) true
       ++ [dquote] ++ ">" ++ parse_inline (slice text (i + 1) cb) ++ "</a>",
     cp + 1).
Proof.
  intros Hn Hb Hp Hc Hjs.
  apply find_bounds in Hb as Hbb; [|simpl; lia]. simpl in Hbb.
  apply find_bounds in Hc as Hcb; [|simpl; lia]. simpl in Hcb.
  assert (Hlt : (cb + 1 <? length text) = true) by (apply Nat.ltb_lt; lia).
  link_begin. rewrite Hb, Hlt, Hp, Hc. cbn [andb]. cbv zeta. rewrite Hjs. cbn [negb].
  inner_ok. reflexivity.
Qed.

Lemma piece_link_js (text : str) (i cb cp : nat) :
  nth_error text i = Some "["%char ->
  find "]" text (i + 1) = Some cb ->
  char_is text (cb + 1) "(" = true ->
  find ")" text (cb + 2) = Some cp ->
  startswith "javascript:" (lower (strip (slice text (cb + 2) cp))) = true ->
  inline_piece text i = (parse_inline (slice text (i + 1) cb), cp + 1).
Proof.
  intros Hn Hb Hp Hc Hjs.
  apply find_bounds in Hb as Hbb; [|simpl; lia]. simpl in Hbb.
  apply find_bounds in Hc as Hcb; [|simpl; lia]. simpl in Hcb.
  assert (Hlt : (cb + 1 <? length text) = true) by (apply Nat.ltb_lt; lia).
  link_begin. rewrite Hb, Hlt, Hp, Hc. cbn [andb]. cbv zeta. rewrite Hjs. cbn [negb].
  inner_ok. reflexivity.
Qed.


Lemma piece_default (text : str) (i : nat) (ch : ascii) :
  nth_error text i = Some ch ->
  ch <> "`"%char -> ~ is_emph ch -> ch <> "["%char ->
  inline_piece text i = (escape [ch] true, i + 1).
Proof.
  intros Hn H1 H2 H3. piece_begin.
  apply Ascii.eqb_neq in H1, H3.
  rewrite H1, (not_bold_other text i ch Hn H2), (not_emph_test ch H2), H3.
  reflexivity.
Qed.

(** ** The list assembler with enough fuel *)

Lemma list_mono (f : nat) :
  (forall f' lines start b, f <= f' ->
     le_res (parse_list_fuel f lines start b) (parse_list_fuel f' lines start b))
  /\ (forall f' lines i stack html, f <= f' ->
     le_res (list_loop f lines i stack html) (list_loop f' lines i stack html)).
Proof.
  induction f as [|f (IHp & IHl)].
  - split; intros; left; reflexivity.
  - split; intros f' lines; intros; (destruct f' as [|f']; [lia|]);
      assert (Hf : f <= f') by lia; simpl.
    + le_res_tac. apply IHl, Hf.
    + le_res_tac; try (apply IHl, Hf); try (apply IHp, Hf).
Qed.

Lemma nested_indent_ok (lines : list str) (i : nat) (line : str) (indent : nat) :
  exists r, nested_indent lines i line indent = Ok r.
Proof.
  unfold nested_indent. cbv zeta.
  destruct ((i + 1 <? length lines) && nonempty (strip line)) eqn:E; [|eauto].
  apply andb_true_iff in E. destruct E as [E _]. apply Nat.ltb_lt in E.
  destruct (get_lt lines (i + 1) E) as (l & Hg & _). rewrite Hg. cbn [bind].
  destruct (_ && _); eauto.
Qed.

Lemma list_enough (f : nat) :
  (forall lines start b, 2 * (length lines - start) + 2 <= f ->
     exists html i', parse_list_fuel f lines start b = Ok (html, i') /\ start <= i')
  /\ (forall lines i stack html, 2 * (length lines - i) + 1 <= f ->
     exists st, list_loop f lines i stack html = Ok st /\ i <= snd st).
Proof.
  induction f as [|f (IHp & IHl)].
  - split; intros; lia.
  - split.
    + intros lines start b Hf. simpl.
      destruct (IHl lines start [] []) as ([[h s] i'] & Hl & Hb); [lia|].
      rewrite Hl. simpl. eauto.
    + intros lines i stack html Hf. simpl.
      destruct (i <? length lines) eqn:Hi; [|eexists; split; [reflexivity|simpl; lia]].
      apply Nat.ltb_lt in Hi.
      destruct (get_lt lines i Hi) as (line & Hg & _). rewrite Hg. cbn [bind].
      destruct (negb _); [eexists; split; [reflexivity|simpl; lia]|].
      destruct (list_item _) as [[lt content]|]; [|eexists; split; [reflexivity|simpl; lia]].
      destruct (close_levels _ _ _ _) as [stack1 html1].
      destruct (open_level _ _ _ _) as [stack2 html2].
      destruct (nested_indent_ok lines i line (indent_of line)) as [r Hr].
      rewrite Hr. cbn [bind]. destruct r as [d|].
      * destruct (IHp lines (i + 1) d) as (nh & ni & Hp & Hb); [lia|].
        rewrite Hp. cbn [bind].
        destruct (IHl lines ni stack2
                    ((html2 ++ ["<li>" ++ parse_inline content]) ++ [nh] ++ ["</li>" : str]))
          as (st & Hst & Hb'); [lia|].
        exists st. split; [exact Hst|lia].
      * destruct (IHl lines (i + 1) stack2
                    (html2 ++ ["<li>" ++ parse_inline content ++ "</li>"]))
          as (st & Hst & Hb'); [lia|].
        exists st. split; [exact Hst|lia].
Qed.

Lemma parse_list_fuel_enough (lines : list str) (start b f : nat) :
  list_fuel lines start <= f ->
  parse_list_fuel f lines start b = Ok (parse_list lines start b).
Proof.
  intros Hf. unfold parse_list.
  destruct (proj1 (list_enough (list_fuel lines start)) lines start b)
    as (h & i' & Hp & _); [unfold list_fuel; lia|].
  rewrite Hp. simpl.
  eapply le_res_ok; [|exact Hp]. apply (proj1 (list_mono _)). exact Hf.
Qed.

Lemma list_loop_enough (lines : list str) (i f : nat) (stack : list level)
  (html : list str) :
  2 * (length lines - i) + 1 <= f ->
  list_loop f lines i stack html = Ok (list_run lines i stack html).
Proof.
  intros Hf. unfold list_run.
  destruct (proj2 (list_enough (2 * (length lines - i) + 1)) lines i stack html)
    as (st & Hl & _); [lia|].
  rewrite Hl. simpl.
  eapply le_res_ok; [|exact Hl]. apply (proj2 (list_mono _)). exact Hf.
Qed.

Lemma parse_list_fuel_S (f : nat) (lines : list str) (start b : nat) :
  parse_list_fuel (S f) lines start b
  = (st <- list_loop f lines start [] [] ;;
     let '(html, stack, i) := st in
     Ok (concat (html ++ map (fun lv => close_tag (fst lv)) stack), i)).
Proof. reflexivity. Qed.

Lemma list_loop_S (f : nat) (lines : list str) (i : nat) (stack : list level)
  (html : list str) :
  list_loop (S f) lines i stack html
  = if i <? length lines then
      line <- get lines i ;;
      if negb (nonempty (strip line)) then Ok (html, stack, i)
      else
        let indent := indent_of line in
        let stripped := lstrip_sp line in
        match list_item stripped with
        | None => Ok (html, stack, i)
        | Some (lt, content) =>
            let '(stack1, html1) := close_levels indent lt stack html in
            let '(stack2, html2) := open_level indent lt stack1 html1 in
            nested <- nested_indent lines i line indent ;;
            match nested with
            | Some next_indent =>
                let html3 := html2 ++ ["<li>" ++ parse_inline content] in
                r <- parse_list_fuel f lines (i + 1) next_indent ;;
                let '(nested_html, new_i) := r in
                list_loop f lines new_i stack2 (html3 ++ [nested_html] ++ ["</li>" : str])
            | None =>
                list_loop f lines (i + 1) stack2
                  (html2 ++ ["<li>" ++ parse_inline content ++ "</li>"])
            end
        end
    else Ok (html, stack, i).
Proof. reflexivity. Qed.

(** [parse_list], unfolded once. *)
Theorem parse_list_unfold (lines : list str) (start b : nat) :
  parse_list lines start b
  = let '(html, stack, i) := list_run lines start [] [] in
    (concat (html ++ map (fun lv => close_tag (fst lv)) stack), i).
Proof.
  pose proof (parse_list_fuel_enough lines start b _ (le_n _)) as H.
  unfold list_fuel in H.
  replace (2 * (length lines - start) + 2) with (S (2 * (length lines - start) + 1)) in H by lia.
  rewrite parse_list_fuel_S, list_loop_enough in H by lia. cbn [bind] in H.
  destruct (list_run lines start [] []) as [[h s] i]. congruence.
Qed.

(** The loop stops where [list_stops] says. *)
Lemma list_run_stop (lines : list str) (i : nat) (stack : list level)
  (html : list str) :
  list_stops lines i -> list_run lines i stack html = (html, stack, i).
Proof.
  intros Hs.
  pose proof (list_loop_enough lines i (S (2 * (length lines - i))) stack html) as H.
  rewrite list_loop_S in H. specialize (H ltac:(lia)).
  destruct Hs as [Hn|(line & Hl & Hs)].
  - destruct (i <? length lines) eqn:E; [apply Nat.ltb_lt in E; lia|]. congruence.
  - pose proof (nth_error_lt _ _ _ Hl) as Hi. apply Nat.ltb_lt in Hi.
    rewrite Hi, (get_nth _ _ _ Hl) in H. cbn [bind] in H.
    destruct Hs as [Hs|Hs].
    + rewrite Hs in H. cbn [negb] in H. congruence.
    + destruct (negb _); [congruence|]. cbv zeta in H. rewrite Hs in H. congruence.
Qed.

Lemma parse_list_index_ge (lines : list str) (start b : nat) :
  start <= snd (parse_list lines start b).
Proof.
  unfold parse_list.
  destruct (proj1 (list_enough (list_fuel lines start)) lines start b)
    as (h & i' & Hp & Hb); [unfold list_fuel; lia|].
  rewrite Hp. exact Hb.
Qed.

Lemma list_run_index_ge (lines : list str) (i : nat) (stack : list level)
  (html : list str) :
  i <= snd (list_run lines i stack html).
Proof.
  unfold list_run.
  destruct (proj2 (list_enough (2 * (length lines - i) + 1)) lines i stack html)
    as (st & Hl & Hb); [lia|].
  rewrite Hl. exact Hb.
Qed.

Lemma list_stops_mutual (f : nat) :
  (forall lines start b h i',
     parse_list_fuel f lines start b = Ok (h, i') -> list_stops lines i')
  /\ (forall lines i stack html st,
     list_loop f lines i stack html = Ok st -> list_stops lines (snd st)).
Proof.
  induction f as [|f (IHp & IHl)].
  - split; intros; discriminate.
  - split.
    + intros lines start b h i' H. rewrite parse_list_fuel_S in H.
      destruct (list_loop f lines start [] []) as [[[hh ss] ii]| |] eqn:E;
        cbn [bind] in H; try discriminate.
      injection H as _ <-. apply (IHl _ _ _ _ _ E).
    + intros lines i stack html st H. rewrite list_loop_S in H.
      destruct (i <? length lines) eqn:Hi.
      2:{ injection H as <-. left. apply Nat.ltb_ge in Hi. exact Hi. }
      unfold get in H. destruct (nth_error lines i) as [line|] eqn:Hn;
        cbn [bind] in H; try discriminate.
      destruct (nonempty (strip line)) eqn:Hb; cbn [negb] in H.
      2:{ injection H as <-. right. exists line. auto. }
      cbv zeta in H.
      destruct (list_item (lstrip_sp line)) as [[lt content]|] eqn:Hit.
      2:{ injection H as <-. right. exists line. auto. }
      destruct (close_levels _ _ _ _) as [stack1 html1].
      destruct (open_level _ _ _ _) as [stack2 html2].
      destruct (nested_indent lines i line (indent_of line)) as [[d|]| |];
        cbn [bind] in H; try discriminate.
      * destruct (parse_list_fuel f lines (i + 1) d) as [[nh ni]| |];
          cbn [bind] in H; try discriminate.
        apply (IHl _ _ _ _ _ H).
      * apply (IHl _ _ _ _ _ H).
Qed.

Lemma parse_list_stops (lines : list str) (start b : nat) :
  list_stops lines (snd (parse_list lines start b)).
Proof.
  pose proof (parse_list_fuel_enough lines start b _ (le_n _)) as H.
  destruct (parse_list lines start b) as [h i'].
  apply (proj1 (list_stops_mutual _) _ _ _ _ _ H).
Qed.

(** One turn of the loop of [parse_list] on a list item. *)
Theorem list_run_item (lines : list str) (i : nat) (stack : list level)
  (html : list str) (line : str) (lt : ltype) (content : str) :
  nth_error lines i = Some line ->
  nonempty (strip line) = true ->
  list_item (lstrip_sp line) = Some (lt, content) ->
  list_run lines i stack html
  = let '(stack1, html1) := close_levels (indent_of line) lt stack html in
    let '(stack2, html2) := open_level (indent_of line) lt stack1 html1 in
    match unwrap None (nested_indent lines i line (indent_of line)) with
    | Some next_indent =>
        let '(nested_html, new_i) := parse_list lines (i + 1) next_indent in
        list_run lines new_i stack2
          ((html2 ++ ["<li>" ++ parse_inline content])
             ++ [nested_html] ++ ["</li>" : str])
    | None =>
        list_run lines (i + 1) stack2
          (html2 ++ ["<li>" ++ parse_inline content ++ "</li>"])
    end.
Proof.
  intros Hn Hb Hit.
  pose proof (nth_error_lt _ _ _ Hn) as Hi.
  pose proof (list_loop_enough lines i (S (2 * (length lines - i))) stack html) as H.
  specialize (H ltac:(lia)). rewrite list_loop_S in H.
  apply Nat.ltb_lt in Hi as Hi'. rewrite Hi', (get_nth _ _ _ Hn) in H. cbn [bind] in H.
  rewrite Hb in H. cbn [negb] in H. cbv zeta in H. rewrite Hit in H.
  destruct (close_levels _ _ _ _) as [stack1 html1].
  destruct (open_level _ _ _ _) as [stack2 html2].
  destruct (nested_indent_ok lines i line (indent_of line)) as [r Hr].
  rewrite Hr in *. cbn [bind unwrap] in *. destruct r as [d|].
  - rewrite parse_list_fuel_enough in H by (unfold list_fuel; lia). cbn [bind] in H.
    pose proof (parse_list_index_ge lines (i + 1) d) as Hge.
    destruct (parse_list lines (i + 1) d) as [nh ni]. simpl in Hge.
    rewrite list_loop_enough in H by lia. congruence.
  - rewrite list_loop_enough in H by lia. congruence.
Qed.

(** ** Facts about list lines *)

Lemma is_list_line_item (s : str) :
  is_list_line s = match list_item s with Some _ => true | None => false end.
Proof.
  unfold is_list_line, list_item. destruct s as [|c s]; [reflexivity|].
  cbn [nonempty negb]. destruct (starts_bullet (c :: s)); [reflexivity|].
  cbv zeta. destruct (ordinal_at _ _); reflexivity.
Qed.

Lemma digit_not_space (c : ascii) : isdigit c = true -> isspace c = false.
Proof.
  destruct c as [[] [] [] [] [] [] [] []]; vm_compute; congruence.
Qed.

Lemma list_item_head (s : str) (x : ltype * str) :
  list_item s = Some x -> exists c s', s = c :: s' /\ isspace c = false.
Proof.
  unfold list_item. destruct s as [|c s'].
  - vm_compute. discriminate.
  - intros H. exists c, s'. split; [reflexivity|].
    destruct (starts_bullet (c :: s')) eqn:B.
    + clear H. destruct c as [[] [] [] [] [] [] [] []];
        vm_compute in B; try discriminate; reflexivity.
    + cbv zeta in H. destruct (ordinal_at _ _) eqn:O; [|discriminate].
      unfold ordinal_at in O. simpl in O. destruct (isdigit c) eqn:D.
      * now apply digit_not_space.
      * simpl in O. discriminate.
Qed.

Lemma dropwhile_decomp (p : ascii -> bool) (s : str) :
  exists pre, s = pre ++ dropwhile p s /\ Forall (fun c => p c = true) pre.
Proof.
  induction s as [|c s (pre & IH & Hp)]; simpl.
  - exists []. split; [reflexivity|constructor].
  - destruct (p c) eqn:E.
    + exists (c :: pre). split; [simpl; congruence|constructor; auto].
    + exists []. split; [reflexivity|constructor].
Qed.

Lemma dropwhile_app_all (p : ascii -> bool) (a b : str) :
  Forall (fun c => p c = true) a -> dropwhile p (a ++ b) = dropwhile p b.
Proof.
  induction 1 as [|c a Hc _ IH]; simpl; [reflexivity|]. now rewrite Hc.
Qed.

Lemma dropwhile_stop (p : ascii -> bool) (c : ascii) (s : str) :
  p c = false -> dropwhile p (c :: s) = c :: s.
Proof. intros H. simpl. now rewrite H. Qed.

Lemma dropwhile_keeps_last (p : ascii -> bool) (a : str) (c : ascii) :
  p c = false -> dropwhile p (a ++ [c]) <> [].
Proof.
  intros Hc. induction a as [|x a IH]; simpl.
  - rewrite Hc. discriminate.
  - destruct (p x); [exact IH|discriminate].
Qed.

Lemma space_is_space (c : ascii) : Ascii.eqb " " c = true -> isspace c = true.
Proof. intros H. apply Ascii.eqb_eq in H. subst. reflexivity. Qed.

Lemma strip_head_nonblank (line : str) (c : ascii) (s' : str) :
  lstrip_sp line = c :: s' -> isspace c = false -> nonempty (strip line) = true.
Proof.
  intros Hl Hc. unfold lstrip_sp, lstrip_by in Hl.
  destruct (dropwhile_decomp (Ascii.eqb " ") line) as (pre & Hd & Hp).
  rewrite Hl in Hd. unfold strip, rstrip_by, lstrip_by.
  rewrite Hd.
  rewrite dropwhile_app_all by (eapply Forall_impl; [|exact Hp]; apply space_is_space).
  rewrite dropwhile_stop by exact Hc.
  simpl rev.
  destruct (dropwhile isspace (rev s' ++ [c])) as [|y r] eqn:E.
  - exfalso. eapply dropwhile_keeps_last; eauto.
  - destruct (rev (y :: r)) eqn:R; [|reflexivity].
    apply (f_equal (@length _)) in R. rewrite length_rev in R. discriminate.
Qed.

Lemma list_item_nonblank (line : str) (x : ltype * str) :
  list_item (lstrip_sp line) = Some x -> nonempty (strip line) = true.
Proof.
  intros H. destruct (list_item_head _ _ H) as (c & s' & Hs & Hc).
  eapply strip_head_nonblank; eauto.
Qed.

(** The accumulated fragments only grow, and once an item was read the
    stack is not empty. *)
Lemma close_levels_prefix (indent : nat) (lt : ltype) (stack : list level)
  (html : list str) :
  exists more, snd (close_levels indent lt stack html) = html ++ more.
Proof.
  revert html. induction stack as [|[t ind] rest IH]; intros html; simpl.
  - exists []. now rewrite app_nil_r.
  - destruct (_ || _).
    + destruct (IH (html ++ [close_tag t])) as [more Hm]. rewrite Hm.
      exists ([close_tag t] ++ more). now rewrite app_assoc.
    + exists []. simpl. now rewrite app_nil_r.
Qed.

Lemma open_level_prefix (indent : nat) (lt : ltype) (stack : list level)
  (html : list str) :
  exists more, snd (open_level indent lt stack html) = html ++ more.
Proof.
  unfold open_level. destruct (opens_level _ _ _); simpl.
  - eauto.
  - exists []. now rewrite app_nil_r.
Qed.

Lemma open_level_nonempty (indent : nat) (lt : ltype) (stack : list level)
  (html : list str) :
  fst (open_level indent lt stack html) <> [].
Proof.
  unfold open_level. destruct stack as [|[t ind] rest]; simpl.
  - discriminate.
  - destruct (_ || _); discriminate.
Qed.

Lemma list_loop_grows (f : nat) :
  forall lines i stack html h s i',
    list_loop f lines i stack html = Ok (h, s, i') ->
    (exists more, h = html ++ more) /\ (stack <> [] -> s <> []).
Proof.
  induction f as [|f IH]; intros lines i stack html h s i' H; [discriminate|].
  rewrite list_loop_S in H.
  assert (Hsame : Ok (html, stack, i) = Ok (h, s, i') ->
                  (exists more, h = html ++ more) /\ (stack <> [] -> s <> [])).
  { intros [= <- <- <-]. split; [exists []; now rewrite app_nil_r|auto]. }
  destruct (i <? length lines); [|auto].
  destruct (get lines i) as [line| |]; cbn [bind] in H; try discriminate.
  destruct (negb _); [auto|]. cbv zeta in H.
  destruct (list_item _) as [[lt content]|]; [|auto].
  pose proof (close_levels_prefix (indent_of line) lt stack html) as [m1 H1].
  destruct (close_levels _ _ _ _) as [stack1 html1]. simpl in H1.
  pose proof (open_level_prefix (indent_of line) lt stack1 html1) as [m2 H2].
  pose proof (open_level_nonempty (indent_of line) lt stack1 html1) as Hne.
  destruct (open_level _ _ _ _) as [stack2 html2]. simpl in H2, Hne.
  destruct (nested_indent _ _ _ _) as [[d|]| |]; cbn [bind] in H; try discriminate.
  - destruct (parse_list_fuel f lines (i + 1) d) as [[nh ni]| |];
      cbn [bind] in H; try discriminate.
    apply IH in H. destruct H as ((m3 & ->) & Hs). split; [|auto].
    subst. rewrite <- !app_assoc. eauto.
  - apply IH in H. destruct H as ((m3 & ->) & Hs). split; [|auto].
    subst. rewrite <- !app_assoc. eauto.
Qed.

Lemma list_run_grows (lines : list str) (i : nat) (stack : list level)
  (html : list str) :
  (exists more, fst (fst (list_run lines i stack html)) = html ++ more)
  /\ (stack <> [] -> snd (fst (list_run lines i stack html)) <> []).
Proof.
  pose proof (list_loop_enough lines i _ stack html (le_n _)) as H.
  destruct (list_run lines i stack html) as [[h s] i'].
  apply list_loop_grows in H. exact H.
Qed.

(** ** Nested lists *)

Lemma nested_indent_some (lines : list str) (i : nat) (line next : str) :
  nonempty (strip line) = true ->
  nth_error lines (i + 1) = Some next ->
  indent_of line < indent_of next ->
  is_list_line (lstrip_sp next) = true ->
  nested_indent lines i line (indent_of line) = Ok (Some (indent_of next)).
Proof.
  intros Hb Hn Hlt Hl. unfold nested_indent. cbv zeta.
  pose proof (nth_error_lt _ _ _ Hn) as Hi. apply Nat.ltb_lt in Hi.
  rewrite Hi, Hb, (get_nth _ _ _ Hn). cbn [andb bind].
  apply Nat.ltb_lt in Hlt. rewrite Hlt, Hl. reflexivity.
Qed.

(** A call of [parse_list] on a list item line returns a list element: it
    starts with the opening tag of the line's list type, ends with a closing
    list tag, and reads at least that line. *)
Lemma parse_list_on_item (lines : list str) (start b : nat) (line : str)
  (lt : ltype) (content : str) :
  nth_error lines start = Some line ->
  list_item (lstrip_sp line) = Some (lt, content) ->
  (exists body t', fst (parse_list lines start b) = open_tag lt ++ body ++ close_tag t')
  /\ start < snd (parse_list lines start b).
Proof.
  intros Hn Hit. pose proof (list_item_nonblank _ _ Hit) as Hb.
  rewrite parse_list_unfold, (list_run_item lines start [] [] line lt content Hn Hb Hit).
  cbn [close_levels open_level opens_level app].
  assert (Hgen : forall j h, start < j ->
            let '(html, stack, i) := list_run lines j [(lt, indent_of line)] (open_tag lt :: h) in
            (exists body t', concat (html ++ map (fun lv => close_tag (fst lv)) stack)
                             = open_tag lt ++ body ++ close_tag t')
            /\ start < i).
  { intros j h Hj.
    pose proof (list_run_grows lines j [(lt, indent_of line)] (open_tag lt :: h)) as [[m Hm] Hs].
    pose proof (list_run_index_ge lines j [(lt, indent_of line)] (open_tag lt :: h)) as Hge.
    destruct (list_run _ _ _ _) as [[html stack] i']. simpl in Hm, Hs, Hge.
    split; [|lia]. subst html.
    destruct (exists_last (Hs ltac:(discriminate))) as (s' & [t' ind'] & ->).
    rewrite map_app, app_assoc, concat_app. simpl.
    exists (concat (h ++ m) ++ concat (map (fun lv => close_tag (fst lv)) s')), t'.
    rewrite concat_app, app_nil_r, <- !app_assoc. reflexivity. }
  destruct (unwrap None _) as [d|].
  - pose proof (parse_list_index_ge lines (start + 1) d) as Hge.
    destruct (parse_list lines (start + 1) d) as [nh ni]. simpl in Hge.
    specialize (Hgen ni (["<li>" ++ parse_inline content] ++ [nh] ++ ["</li>" : str])
                  ltac:(lia)).
    simpl app in *. destruct (list_run _ _ _ _) as [[html stack] i']. exact Hgen.
  - specialize (Hgen (start + 1) ["<li>" ++ parse_inline content ++ "</li>"] ltac:(lia)).
    simpl app in *. destruct (list_run _ _ _ _) as [[html stack] i']. exact Hgen.
Qed.

(** C7. When the line after a list item is a list line with more
    indentation, the turn of the list loop on the item emits the item's
    opening tag and inline-formatted content, then the whole fragment of
    the recursive call, then the item's closing tag; the loop stops there, so
    nothing of the nested list comes after the closing tag.  The nested
    fragment is itself a list element (an opening list tag to a closing list
    tag). *)
Theorem nested_list_inside_parent_item
  (lines : list str) (i : nat) (stack : list level) (html : list str)
  (line next : str) (lt : ltype) (content : str) :
  nth_error lines i = Some line ->
  list_item (lstrip_sp line) = Some (lt, content) ->
  nth_error lines (i + 1) = Some next ->
  indent_of line < indent_of next ->
  is_list_line (lstrip_sp next) = true ->
  let '(stack1, html1) := close_levels (indent_of line) lt stack html in
  let '(stack2, html2) := open_level (indent_of line) lt stack1 html1 in
  let '(nested_html, new_i) := parse_list lines (i + 1) (indent_of next) in
  list_run lines i stack html
  = (html2 ++ ["<li>" ++ parse_inline content; nested_html; "</li>" : str],
     stack2, new_i)
  /\ (exists t body t', nested_html = open_tag t ++ body ++ close_tag t')
  /\ i + 1 < new_i.
Proof.
  intros Hn Hit Hnext Hlt Hl.
  pose proof (list_item_nonblank _ _ Hit) as Hb.
  rewrite (list_run_item lines i stack html line lt content Hn Hb Hit).
  rewrite (nested_indent_some lines i line next Hb Hnext Hlt Hl). cbn [unwrap].
  destruct (close_levels _ _ _ _) as [stack1 html1].
  destruct (open_level _ _ _ _) as [stack2 html2].
  rewrite is_list_line_item in Hl.
  destruct (list_item (lstrip_sp next)) as [[tn cn]|] eqn:Hin; [|discriminate].
  pose proof (parse_list_on_item lines (i + 1) (indent_of next) next tn cn Hnext Hin)
    as [(body & t' & Hbody) Hadv].
  pose proof (parse_list_stops lines (i + 1) (indent_of next)) as Hstop.
  destruct (parse_list lines (i + 1) (indent_of next)) as [nh ni].
  simpl in Hbody, Hadv, Hstop.
  rewrite (list_run_stop _ _ _ _ Hstop), <- app_assoc. cbn [app].
  split; [reflexivity|]. split; [exists tn, body, t'; exact Hbody|exact Hadv].
Qed.

Lemma nested_list_inside_parent_item_witness :
  let lines := strs ["- c "; "  - nested1"; "  - nested2"] in
  list_run lines 0 [] []
  = (strs ["<ul>"; "<li>c "; "<ul><li>nested1</li><li>nested2</li></ul>"; "</li>"],
     [(ul, 0)], 3).
Proof.
  intros lines.
  pose proof (nested_list_inside_parent_item lines 0 [] [] "- c " "  - nested1"
                ul "c " eq_refl eq_refl eq_refl) as H.
  specialize (H ltac:(vm_compute; lia) eq_refl).
  vm_compute in H. destruct H as [H _]. vm_compute. exact H.
Defined.

(** ** Ordered-list numerals *)

Lemma nth_error_views (lines1 lines2 : list str) (i : nat) :
  map line_view lines1 = map line_view lines2 ->
  match nth_error lines1 i, nth_error lines2 i with
  | Some l1, Some l2 => line_view l1 = line_view l2
  | None, None => True
  | _, _ => False
  end.
Proof.
  intros H. apply (f_equal (fun l => nth_error l i)) in H.
  rewrite !nth_error_map in H.
  destruct (nth_error lines1 i), (nth_error lines2 i); simpl in H;
    try discriminate; [congruence|exact I].
Qed.

Lemma nested_indent_views (lines1 lines2 : list str) (i : nat) (l1 l2 : str)
  (indent : nat) :
  map line_view lines1 = map line_view lines2 ->
  line_view l1 = line_view l2 ->
  nested_indent lines1 i l1 indent = nested_indent lines2 i l2 indent.
Proof.
  intros H Hl. unfold nested_indent. cbv zeta.
  assert (Hlen : length lines1 = length lines2).
  { apply (f_equal (@length _)) in H. now rewrite !length_map in H. }
  injection Hl as Hb _ _. rewrite Hlen, Hb.
  destruct (_ && _); [|reflexivity].
  pose proof (nth_error_views lines1 lines2 (i + 1) H) as Hv. unfold get.
  destruct (nth_error lines1 (i + 1)) as [n1|], (nth_error lines2 (i + 1)) as [n2|];
    try contradiction; [|reflexivity].
  cbn [bind]. injection Hv as _ Hind Hit.
  rewrite !is_list_line_item, Hind, Hit. reflexivity.
Qed.

(** [parse_list] depends on the lines through [line_view] only. *)
Lemma list_same_views (f : nat) (lines1 lines2 : list str) :
  map line_view lines1 = map line_view lines2 ->
  (forall start b,
     parse_list_fuel f lines1 start b = parse_list_fuel f lines2 start b)
  /\ (forall i stack html,
     list_loop f lines1 i stack html = list_loop f lines2 i stack html).
Proof.
  intros H.
  assert (Hlen : length lines1 = length lines2).
  { apply (f_equal (@length _)) in H. now rewrite !length_map in H. }
  induction f as [|f (IHp & IHl)]; [split; reflexivity|]. split.
  - intros start b. rewrite !parse_list_fuel_S, IHl. reflexivity.
  - intros i stack html. rewrite !list_loop_S, Hlen.
    destruct (i <? length lines2); [|reflexivity].
    pose proof (nth_error_views lines1 lines2 i H) as Hv. unfold get.
    destruct (nth_error lines1 i) as [l1|], (nth_error lines2 i) as [l2|];
      try contradiction; [|reflexivity].
    cbn [bind]. rewrite (nested_indent_views lines1 lines2 i l1 l2 _ H Hv).
    injection Hv as Hb Hind Hit. rewrite Hb, Hind. cbv zeta. rewrite Hit.
    clear Hb Hind Hit.
    destruct (negb _); [reflexivity|].
    destruct (list_item _) as [[lt content]|]; [|reflexivity].
    destruct (close_levels _ _ _ _) as [stack1 html1].
    destruct (open_level _ _ _ _) as [stack2 html2].
    destruct (nested_indent _ _ _ _) as [[d|]| |]; cbn [bind]; try reflexivity.
    + rewrite IHp. destruct (parse_list_fuel f lines2 (i + 1) d) as [[nh ni]| |];
        cbn [bind]; try reflexivity. apply IHl.
    + apply IHl.
Qed.

Lemma digit_not_bullet (x : ascii) (s : str) :
  isdigit x = true -> starts_bullet (x :: s) = false /\ Ascii.eqb " " x = false.
Proof.
  destruct x as [[] [] [] [] [] [] [] []]; vm_compute; intros H; try discriminate;
    split; reflexivity.
Qed.

Lemma digit_run_numeral (d rest : str) :
  forallb isdigit d = true -> digit_run (d ++ "."%char :: rest) = length d.
Proof.
  induction d as [|x d IH]; simpl; intros H.
  - reflexivity.
  - apply andb_true_iff in H. destruct H as [Hx H]. rewrite Hx. f_equal. auto.
Qed.

Lemma skipn_app_exact {A} (a b : list A) (k : nat) :
  skipn (length a + k) (a ++ b) = skipn k b.
Proof. induction a; simpl; auto. Qed.

Lemma list_item_ordinal (d content : str) :
  is_numeral d -> list_item (d ++ ". " ++ content) = Some (ol, content).
Proof.
  intros [Hne Hd]. destruct d as [|x d']; [contradiction|].
  set (d := x :: d') in *.
  change (lit ". ") with ["."; " "]%char. cbn [app].
  unfold list_item.
  assert (Hx : isdigit x = true) by (simpl in Hd; now apply andb_true_iff in Hd).
  replace (starts_bullet (d ++ "."%char :: " "%char :: content)) with false
    by (symmetry; apply (digit_not_bullet x _ Hx)).
  cbv zeta. rewrite (digit_run_numeral d _ Hd).
  assert (Hord : ordinal_at (d ++ "."%char :: " "%char :: content) (length d) = true).
  { unfold ordinal_at, char_is, slice.
    rewrite nth_error_app2, Nat.sub_diag by lia. cbn [nth_error].
    rewrite skipn_app_exact.
    replace (length d + 2 - (length d + 1)) with 1 by lia.
    rewrite length_app. cbn [skipn firstn length].
    replace (0 <? length d) with true by (symmetry; apply Nat.ltb_lt; simpl; lia).
    replace (length d <? length d + S (S (length content))) with true
      by (symmetry; apply Nat.ltb_lt; lia).
    reflexivity. }
  rewrite Hord, skipn_app_exact. reflexivity.
Qed.

Lemma lstrip_sp_ordinal (sp d content : str) :
  all_spaces sp -> is_numeral d ->
  lstrip_sp (ordinal_line sp d content) = d ++ ". " ++ content.
Proof.
  intros Hsp [Hne Hd]. unfold lstrip_sp, lstrip_by, ordinal_line.
  rewrite dropwhile_app_all.
  - destruct d as [|x d']; [contradiction|]. cbn [app].
    apply dropwhile_stop. simpl in Hd. apply andb_true_iff in Hd.
    apply (digit_not_bullet x [] (proj1 Hd)).
  - eapply Forall_impl; [|exact Hsp]. intros c ->. reflexivity.
Qed.

(** The view of an ordered-list line does not hold its numeral. *)
Lemma line_view_ordinal (sp d content : str) :
  all_spaces sp -> is_numeral d ->
  line_view (ordinal_line sp d content) = (true, length sp, Some (ol, content)).
Proof.
  intros Hsp Hd. unfold line_view.
  pose proof (lstrip_sp_ordinal sp d content Hsp Hd) as Hl.
  pose proof (list_item_ordinal d content Hd) as Hi.
  assert (Hb : nonempty (strip (ordinal_line sp d content)) = true).
  { eapply list_item_nonblank. rewrite Hl. exact Hi. }
  unfold indent_of. rewrite Hb, Hl, Hi. f_equal. f_equal.
  unfold ordinal_line. rewrite length_app. lia.
Qed.

Lemma in_contains (c : ascii) (s : str) : In c s -> contains [c] s = true.
Proof.
  intros Hin. unfold contains, find. simpl skipn.
  pose proof (find_from_char c s 0) as H.
  destruct (find_from [c] s 0); [reflexivity|].
  rewrite Forall_forall in H. now destruct (H c Hin).
Qed.

Lemma digit_facts (x : ascii) :
  isdigit x = true ->
  Ascii.eqb "`" x = false /\ Ascii.eqb x "#" = false /\ isspace x = false.
Proof.
  destruct x as [[] [] [] [] [] [] [] []]; vm_compute; intros H; try discriminate;
    repeat split; reflexivity.
Qed.

(** What the block loop reads of an ordered-list line before it calls
    [parse_list]: no fence, no heading, a list line. *)
Lemma ordinal_line_dispatch (sp d content : str) :
  all_spaces sp -> is_numeral d ->
  startswith "```" (ordinal_line sp d content) = false
  /\ hash_run (lstrip (ordinal_line sp d content)) = 0
  /\ takes_for_list (lstrip_sp (ordinal_line sp d content)) = true.
Proof.
  intros Hsp Hd. pose proof (lstrip_sp_ordinal sp d content Hsp Hd) as Hl.
  destruct Hd as [Hne Hd]. destruct d as [|x d']; [contradiction|].
  assert (Hx : isdigit x = true) by (simpl in Hd; now apply andb_true_iff in Hd).
  destruct (digit_facts x Hx) as (Hx1 & Hx2 & Hx3).
  split; [|split].
  - unfold ordinal_line. change (lit "```") with ["`"; "`"; "`"]%char.
    destruct Hsp as [|c sp -> _]; cbn [app startswith]; [now rewrite Hx1|reflexivity].
  - unfold lstrip, lstrip_by, ordinal_line.
    rewrite dropwhile_app_all by (eapply Forall_impl; [|exact Hsp]; now intros c ->).
    cbn [app]. rewrite (dropwhile_stop _ _ _ Hx3). cbn [hash_run]. now rewrite Hx2.
  - rewrite Hl. unfold takes_for_list. cbn [app nonempty andb].
    change (lit ".") with ["."]%char.
    rewrite Hx, in_contains, orb_true_r; [reflexivity|].
    right. apply in_or_app. right. now left.
Qed.

(** C10. The numeral of an ordered-list line never reaches the output of
    the list assembler: the assembler reads an ordered-list line as its
    indentation, the list type [ol] and the text after the marker, and two
    line sequences that differ in the numeral of one such line (of any
    length, at the same indentation) give the same fragment and the same
    resume index; so does the turn of the block loop on that line.  The
    opening tag of an ordered list is [<ol>], with no attribute. *)
Theorem ordinal_numeral_discarded
  (pre post : list str) (sp d1 d2 content : str) (start b : nat) :
  all_spaces sp -> is_numeral d1 -> is_numeral d2 ->
  list_item (lstrip_sp (ordinal_line sp d1 content)) = Some (ol, content)
  /\ parse_list (pre ++ ordinal_line sp d1 content :: post) start b
     = parse_list (pre ++ ordinal_line sp d2 content :: post) start b
  /\ block_step (pre ++ ordinal_line sp d1 content :: post) (length pre)
     = block_step (pre ++ ordinal_line sp d2 content :: post) (length pre)
  /\ open_tag ol = "<ol>".
Proof.
  intros Hsp H1 H2.
  assert (Hpl : forall s b',
            parse_list (pre ++ ordinal_line sp d1 content :: post) s b'
            = parse_list (pre ++ ordinal_line sp d2 content :: post) s b').
  { intros s b'. unfold parse_list, list_fuel. rewrite !length_app. cbn [length].
    f_equal. apply list_same_views.
    rewrite !map_app. cbn [map]. now rewrite !line_view_ordinal. }
  split; [|split; [apply Hpl|split; [|reflexivity]]].
  - rewrite (lstrip_sp_ordinal sp d1 content Hsp H1). now apply list_item_ordinal.
  - unfold block_step, get.
    rewrite !nth_error_app2, Nat.sub_diag by lia. cbn [nth_error bind].
    destruct (ordinal_line_dispatch sp d1 content Hsp H1) as (F1 & G1 & T1).
    destruct (ordinal_line_dispatch sp d2 content Hsp H2) as (F2 & G2 & T2).
    rewrite F1, F2. cbv zeta. rewrite G1, G2, T1, T2. cbn [Nat.leb andb].
    pose proof (line_view_ordinal sp d1 content Hsp H1) as V1.
    pose proof (line_view_ordinal sp d2 content Hsp H2) as V2.
    unfold line_view, indent_of in V1, V2.
    injection V1 as _ I1 _. injection V2 as _ I2 _.
    rewrite I1, I2, Hpl. reflexivity.
Qed.

Lemma ordinal_numeral_discarded_witness :
  parse_list (strs ["7. x"]) 0 0 = parse_list (strs ["1. x"]) 0 0
  /\ parse_list (strs ["1. x"]) 0 0 = ("<ol><li>x</li></ol>" : str, 1).
Proof.
  split; [|reflexivity].
  apply (ordinal_numeral_discarded [] [] [] "7" "1" "x" 0 0).
  - constructor.
  - split; [discriminate|reflexivity].
  - split; [discriminate|reflexivity].
Defined.

(** ** The italic scan *)

Lemma skips_all_other (ch : ascii) (s : str) :
  Forall (fun c => c <> ch) s -> skips ch s.
Proof. induction 1; constructor; auto. Qed.

Lemma skips_app (ch : ascii) (a b : str) :
  skips ch a -> skips ch b -> skips ch (a ++ b).
Proof.
  induction 1; simpl; intros Hb.
  - exact Hb.
  - apply skips_other; auto.
  - apply skips_pair; auto.
Qed.

Lemma char_is_skipn (text : str) (i : nat) (ch c : ascii) (rest : str) :
  skipn i text = c :: rest ->
  char_is text (i + 1) ch = match rest with x :: _ => Ascii.eqb x ch | [] => false end.
Proof.
  intros H. unfold char_is.
  rewrite nth_error_skipn_hd, skipn_S_tl, H. destruct rest; reflexivity.
Qed.

Lemma skipn_decomp (text : str) (e : nat) (pre : str) (rest : str) :
  skipn e text = pre ++ rest -> skipn (e + length pre) text = rest.
Proof.
  intros H. rewrite Nat.add_comm, <- skipn_skipn, H.
  replace (length pre) with (length pre + 0) by lia.
  now rewrite skipn_app_exact.
Qed.

(** What the scan returns: the text from [e] on is a stretch the scan
    passes over, then the closing [ch], then something that does not start
    with [ch]; or the scan passes over all the text that is left. *)
Lemma em_scan_sound (f : nat) (text : str) (ch : ascii) (e : nat) (r : option nat) :
  em_scan f text ch e = Ok r ->
  match r with
  | Some c => exists mid post,
      skipn e text = mid ++ ch :: post /\ skips ch mid
      /\ c = e + length mid /\ hd_error post <> Some ch
  | None => skips ch (skipn e text)
  end.
Proof.
  revert e r. induction f as [|f IH]; intros e r H; [discriminate|].
  simpl in H. unfold find in H.
  pose proof (find_from_char ch (skipn e text) e) as Hf.
  destruct (find_from [ch] (skipn e text) e) as [e'|].
  - destruct Hf as (pre & post & Hs & Hp & ->).
    pose proof (skipn_decomp text e pre _ Hs) as Hs'.
    rewrite (char_is_skipn text _ ch ch post Hs') in H.
    destruct (negb _) eqn:B.
    + injection H as <-. exists pre, post. repeat split; auto using skips_all_other.
      destruct post as [|x post]; [discriminate|]. simpl.
      intros [= ->]. rewrite Ascii.eqb_refl, andb_true_r in B.
      apply negb_true_iff, Nat.ltb_ge in B.
      apply (f_equal (@length _)) in Hs'. rewrite length_skipn in Hs'. simpl in Hs'. lia.
    + apply negb_false_iff, andb_true_iff in B. destruct B as [_ B].
      destruct post as [|x post]; [discriminate|].
      apply Ascii.eqb_eq in B. subst x.
      assert (Hs2 : skipn (e + length pre + 2) text = post).
      { replace (e + length pre + 2) with (e + length (pre ++ [ch; ch])).
        - apply skipn_decomp. rewrite Hs, <- app_assoc. reflexivity.
        - rewrite length_app. simpl. lia. }
      apply IH in H. destruct r as [c|].
      * destruct H as (mid & post' & Hm & Hsk & -> & Hh).
        exists (pre ++ [ch; ch] ++ mid), post'. repeat split.
        -- rewrite Hs, <- Hs2, Hm, <- !app_assoc. reflexivity.
        -- apply skips_app; [now apply skips_all_other|]. simpl.
           now apply skips_pair.
        -- rewrite !length_app. simpl. lia.
        -- exact Hh.
      * rewrite Hs. apply skips_app; [now apply skips_all_other|].
        apply skips_pair. now rewrite <- Hs2.
  - injection H as <-. now apply skips_all_other.
Qed.

Lemma em_close_sound (text : str) (ch : ascii) (e : nat) :
  match em_close text ch e with
  | Some c => exists post,
      skipn e text = slice text e c ++ ch :: post
      /\ skips ch (slice text e c) /\ e <= c /\ hd_error post <> Some ch
  | None => skips ch (skipn e text)
  end.
Proof.
  pose proof (em_scan_fuel_enough text ch e (S (length text - e)) ltac:(lia)) as H.
  apply em_scan_sound in H. destruct (em_close text ch e) as [c|]; [|exact H].
  destruct H as (mid & post & Hs & Hsk & -> & Hh).
  assert (Hsl : slice text e (e + length mid) = mid).
  { unfold slice. rewrite Hs. replace (e + length mid - e) with (length mid) by lia.
    rewrite firstn_app, Nat.sub_diag, firstn_all. simpl. apply app_nil_r. }
  rewrite Hsl. exists post. repeat split; auto. lia.
Qed.

(** The stretch the scan passes over is determined by the text: a text is
    read in one way only as characters other than [ch] and doubled [ch]. *)
Lemma skips_prefix (ch : ascii) (a b : str) :
  skips ch a -> skips ch (a ++ b) -> skips ch b.
Proof.
  induction 1 as [|c s Hc _ IH|s _ IH]; simpl; intros H.
  - exact H.
  - inversion H; subst; [auto|contradiction].
  - inversion H as [|c s' Hc Hs|s' Hs]; subst; [contradiction|auto].
Qed.

Lemma skips_head (ch : ascii) (s : str) :
  skips ch (ch :: s) -> hd_error s = Some ch.
Proof.
  intros H. inversion H; subst; [contradiction|reflexivity].
Qed.

Lemma skips_not_before_single (ch : ascii) (post : str) :
  hd_error post <> Some ch -> ~ skips ch (ch :: post).
Proof. intros Hh H. apply Hh. now apply skips_head. Qed.

Lemma skips_longer (ch : ascii) (mid l post post' : str) :
  skips ch mid -> skips ch (mid ++ l) ->
  ch :: post' = l ++ ch :: post -> hd_error post' <> Some ch ->
  l = [].
Proof.
  intros Hm Hml E Hp'. destruct l as [|x l]; [reflexivity|].
  injection E as <- ->. exfalso.
  apply skips_prefix, skips_head in Hml; [|exact Hm].
  apply Hp'. destruct l; simpl in *; [discriminate|exact Hml].
Qed.

Lemma skips_decomp_unique (ch : ascii) (mid mid' post post' : str) :
  mid ++ ch :: post = mid' ++ ch :: post' ->
  skips ch mid -> skips ch mid' ->
  hd_error post <> Some ch -> hd_error post' <> Some ch ->
  mid = mid'.
Proof.
  intros E Hm Hm' Hp Hp'.
  apply app_eq_app in E. destruct E as (l & [[-> E]|[-> E]]).
  - rewrite (skips_longer ch mid' l post post' Hm' Hm E Hp'). apply app_nil_r.
  - rewrite (skips_longer ch mid l post' post Hm Hm' E Hp). symmetry. apply app_nil_r.
Qed.

(** The scan finds the closing delimiter whenever the text has one. *)
Lemma em_close_complete (text : str) (ch : ascii) (e : nat) (mid post : str) :
  skipn e text = mid ++ ch :: post ->
  skips ch mid -> hd_error post <> Some ch ->
  em_close text ch e = Some (e + length mid).
Proof.
  intros Hs Hm Hp.
  pose proof (em_scan_fuel_enough text ch e (S (length text - e)) ltac:(lia)) as H.
  apply em_scan_sound in H. destruct (em_close text ch e) as [c|].
  - destruct H as (mid' & post' & Hs' & Hm' & -> & Hp').
    rewrite Hs in Hs'.
    now rewrite (skips_decomp_unique ch mid mid' post post' Hs' Hm Hm' Hp Hp').
  - exfalso. rewrite Hs in H. apply skips_prefix in H; [|exact Hm].
    exact (skips_not_before_single ch post Hp H).
Qed.

(** C9. With the cursor on a single [*] or [_] (the next character is not
    the same one), the scan passes over characters other than the
    delimiter and over doubled delimiters.  The delimiter it finds is the
    first one, read that way, that is not followed by the same character:
    the text between is formatted recursively and wrapped in [em], and the
    cursor moves past the close.  When there is none, the scan passes over
    all the text that is left, the delimiter is escaped as it is, and the
    cursor moves by one. *)
Theorem emphasis_scan (text : str) (i : nat) (d : ascii) :
  is_emph d ->
  nth_error text i = Some d ->
  char_is text (i + 1) d = false ->
  match em_close text d (i + 1) with
  | Some e =>
      (exists post, skipn (i + 1) text = slice text (i + 1) e ++ d :: post
                    /\ hd_error post <> Some d)
      /\ skips d (slice text (i + 1) e)
      /\ inline_piece text i
         = ("<em>" ++ parse_inline (slice text (i + 1) e) ++ "</em>", e + 1)
      /\ inline_from text i
         = "<em>" ++ parse_inline (slice text (i + 1) e) ++ "</em>"
             ++ inline_from text (e + 1)
  | None =>
      skips d (skipn (i + 1) text)
      /\ inline_piece text i = ([d], i + 1)
      /\ inline_from text i = d :: inline_from text (i + 1)
  end
  /\ (forall mid post,
        skipn (i + 1) text = mid ++ d :: post ->
        skips d mid -> hd_error post <> Some d ->
        em_close text d (i + 1) = Some (i + 1 + length mid)).
Proof.
  intros Hd Hn Hc. split; [|intros mid post; apply em_close_complete].
  pose proof (em_close_sound text d (i + 1)) as Hs.
  pose proof (inline_from_step text i (nth_error_lt _ _ _ Hn)) as Hstep.
  destruct (em_close text d (i + 1)) as [e|] eqn:He.
  - destruct Hs as (post & Hs & Hsk & _ & Hh).
    rewrite (piece_em_closed text i e d Hd Hn Hc He) in *. cbn [fst snd] in Hstep.
    repeat split; eauto. rewrite Hstep, <- !app_assoc. reflexivity.
  - rewrite (piece_em_open text i d Hd Hn Hc He) in *. cbn [fst snd] in Hstep.
    assert (Hesc : escape [d] true = [d]) by (destruct Hd as [->| ->]; reflexivity).
    rewrite Hesc in *. repeat split; auto.
Qed.

Lemma emphasis_scan_witness :
  inline_from "*a**b*c*" 0 = "<em>a**b</em>" ++ inline_from "*a**b*c*" 6
  /\ inline_from "x*a**" 1 = "*" ++ inline_from "x*a**" 2.
Proof.
  split.
  - pose proof (emphasis_scan "*a**b*c*" 0 "*" (or_introl eq_refl) eq_refl eq_refl) as H.
    vm_compute em_close in H.
    destruct H as ((_ & _ & _ & H) & _). rewrite H. vm_compute. reflexivity.
  - pose proof (emphasis_scan "x*a**" 1 "*" (or_introl eq_refl) eq_refl eq_refl) as H.
    vm_compute em_close in H.
    destruct H as ((_ & _ & H) & _). exact H.
Defined.

(** ** An induction principle for [parse_inline] *)

Lemma parse_inline_fuel_det (f : nat) (t h : str) :
  parse_inline_fuel f t = Ok h -> h = parse_inline t.
Proof.
  intros H.
  pose proof (proj1 (inline_mono f) (max f (inline_fuel t)) t (Nat.le_max_l _ _)) as Hm.
  apply (le_res_ok _ _ _ Hm) in H.
  rewrite parse_inline_fuel_enough in H by apply Nat.le_max_r. congruence.
Qed.

Lemma find_char_in (c : ascii) (text : str) (start e : nat) :
  find [c] text start = Some e -> In c text.
Proof.
  unfold find. intros H.
  pose proof (find_from_char c (skipn start text) start) as Hf.
  rewrite H in Hf. destruct Hf as (pre & post & Hs & _).
  rewrite <- (firstn_skipn start text), Hs.
  apply in_or_app. right. apply in_or_app. right. now left.
Qed.

Lemma inline_piece_shape (text : str) (i : nat) :
  i < length text -> piece_shape text (fst (inline_piece text i)).
Proof.
  intros Hi.
  pose proof (inline_step_enough text i (S (2 * (length text - i))) Hi ltac:(lia)) as H.
  rewrite inline_step_S in H.
  destruct (get_lt text i Hi) as (ch & Hg & _). rewrite Hg in H. cbn [bind] in H.
  assert (Hesc : forall s j, Ok (escape s true, j) = Ok (inline_piece text i) ->
                 piece_shape text (fst (inline_piece text i))).
  { intros s j [= <-]. constructor. }
  destruct (Ascii.eqb ch "`").
  { destruct (find "`" text (i + 1)); [|eauto].
    injection H as <-. constructor. }
  destruct (_ || _).
  { cbv zeta in H. destruct (find _ text (i + 2)); [|eauto].
    destruct (parse_inline_fuel _ _) as [h| |] eqn:E; cbn [bind] in H; try discriminate.
    apply parse_inline_fuel_det in E. subst h. injection H as <-.
    apply ps_strong. lia. }
  destruct (_ || _).
  { destruct (_ && _); [eauto|].
    destruct (em_scan _ _ _ _) as [[e|]| |]; cbn [bind] in H; try discriminate; [|eauto].
    destruct (parse_inline_fuel _ _) as [h| |] eqn:E; cbn [bind] in H; try discriminate.
    apply parse_inline_fuel_det in E. subst h. injection H as <-.
    apply ps_em. lia. }
  destruct (Ascii.eqb ch "["); [|eauto].
  destruct (find "]" text (i + 1)) as [cb|] eqn:Hb; [|eauto].
  apply find_char_in in Hb.
  destruct (_ && _); [|eauto].
  destruct (find ")" text (cb + 2)); [|eauto].
  cbv zeta in H.
  destruct (negb _);
    destruct (parse_inline_fuel _ _) as [h| |] eqn:E; cbn [bind] in H; try discriminate;
    apply parse_inline_fuel_det in E; subst h; injection H as <-.
  - apply (ps_link text (i + 1) cb); [lia|exact Hb].
  - apply ps_label. lia.
Qed.

Lemma in_firstn {A} (x : A) (n : nat) (l : list A) : In x (firstn n l) -> In x l.
Proof.
  revert l. induction n as [|n IH]; intros [|y l]; simpl; try tauto.
  intros [H|H]; [now left|right; auto].
Qed.

Lemma in_slice {A} (x : A) (s : list A) (a b : nat) : In x (slice s a b) -> In x s.
Proof.
  unfold slice. intros H. apply in_firstn in H.
  rewrite <- (firstn_skipn a s). apply in_or_app. now right.
Qed.

Section ParseInlineInd.

(** [ok] holds of the texts considered; [P] is proved of their output. *)
Variables (ok : str -> Prop) (P : str -> Prop).

Hypothesis ok_slice : forall t a b, ok t -> ok (slice t a b).
Hypothesis P_nil : P [].
Hypothesis P_app : forall x y, P x -> P y -> P (x ++ y).
Hypothesis P_escaped : forall s, P (escape s true).
Hypothesis P_code : forall s, P ("<code>" ++ escape s true ++ "</code>").
Hypothesis P_strong : forall h, P h -> P ("<strong>" ++ h ++ "</strong>").
Hypothesis P_em : forall h, P h -> P ("<em>" ++ h ++ "</em>").
Hypothesis P_link :
  forall t url h, ok t -> In "]"%char t -> P h -> P (anchor url h).

Lemma parse_inline_ind (text : str) : ok text -> P (parse_inline text).
Proof.
  remember (length text) as n eqn:Hn. revert text Hn.
  induction n as [n IH] using lt_wf_ind. intros text -> Hok.
  rewrite parse_inline_unfold. destruct (too_long text); [apply P_escaped|].
  assert (Hfrom : forall k i, length text - i <= k -> P (inline_from text i)).
  { induction k as [|k IHk]; intros i Hk.
    - rewrite inline_from_end by lia. exact P_nil.
    - destruct (Nat.le_gt_cases (length text) i) as [Hle|Hlt].
      + rewrite inline_from_end by lia. exact P_nil.
      + rewrite inline_from_step by exact Hlt.
        pose proof (inline_piece_bounds text i Hlt) as Hb.
        apply P_app; [|apply IHk; lia].
        assert (Hrec : forall a b, 0 < a -> P (parse_inline (slice text a b))).
        { intros a b Ha. eapply IH; [|reflexivity|now apply ok_slice].
          pose proof (slice_length text a b). lia. }
        destruct (inline_piece_shape text i Hlt); eauto. }
  apply (Hfrom (length text)). lia.
Qed.

End ParseInlineInd.

(** ** [html.escape], character by character *)

Lemma replace_app (old : ascii) (new a b : str) :
  replace old new (a ++ b) = replace old new a ++ replace old new b.
Proof. unfold replace. apply flat_map_app. Qed.

Lemma replace_flat_map (old : ascii) (new : str) (f : ascii -> str) (s : str) :
  replace old new (flat_map f s) = flat_map (fun c => replace old new (f c)) s.
Proof.
  induction s as [|c s IH]; simpl; [reflexivity|].
  now rewrite replace_app, IH.
Qed.

Lemma escape_flat_map (s : str) :
  escape s true = flat_map (fun c => escape [c] true) s.
Proof.
  unfold escape.
  assert (H : replace "&" "&amp;" s = flat_map (fun c => replace "&" "&amp;" [c]) s).
  { unfold replace. apply flat_map_ext. intros c. simpl. now rewrite app_nil_r. }
  rewrite H, !replace_flat_map. reflexivity.
Qed.

Lemma escape_char (c : ascii) : escape [c] true = entity c.
Proof.
  destruct c as [[] [] [] [] [] [] [] []]; reflexivity.
Qed.

Lemma escape_entities (s : str) : escape s true = flat_map entity s.
Proof.
  rewrite escape_flat_map. apply flat_map_ext. apply escape_char.
Qed.

Lemma entity_other (c : ascii) : ~ html_special c -> entity c = [c].
Proof.
  intros H. unfold entity.
  repeat match goal with
         | |- context[Ascii.eqb c ?x] =>
             let E := fresh "E" in
             destruct (Ascii.eqb c x) eqn:E;
             [apply Ascii.eqb_eq in E; exfalso; apply H; unfold html_special; tauto|]
         end.
  reflexivity.
Qed.

(** No markup character is left in escaped text. *)
Lemma entity_chars (c x : ascii) :
  In x (entity c) ->
  x <> "<"%char /\ x <> ">"%char /\ x <> dquote /\ x <> squote.
Proof.
  intros H.
  assert (Hb : forallb (fun y => negb (Ascii.eqb y "<" || Ascii.eqb y ">"
                                      || Ascii.eqb y dquote || Ascii.eqb y squote))
                 (entity c) = true).
  { destruct c as [[] [] [] [] [] [] [] []]; reflexivity. }
  rewrite forallb_forall in Hb. specialize (Hb x H).
  apply negb_true_iff in Hb.
  repeat (apply orb_false_iff in Hb; destruct Hb as [Hb ?]).
  repeat split; intros ->; discriminate.
Qed.

Lemma escape_chars (s : str) (x : ascii) :
  In x (escape s true) ->
  x <> "<"%char /\ x <> ">"%char /\ x <> dquote /\ x <> squote.
Proof.
  rewrite escape_entities, in_flat_map. intros (c & _ & H).
  eapply entity_chars; eauto.
Qed.

(** ** Texts without the start of an anchor tag *)

Lemma no_anchor_start_app (a b : str) :
  no_anchor_start a = true -> no_anchor_start b = true ->
  no_anchor_start (a ++ b) = true.
Proof.
  intros Ha Hb. induction a as [|c a IH]; [exact Hb|].
  simpl in *. destruct (Ascii.eqb c "<").
  - destruct a as [|x a]; [discriminate|].
    apply andb_true_iff in Ha. destruct Ha as [Hx Ha].
    cbn [app]. rewrite Hx. cbn [andb]. apply IH. exact Ha.
  - apply IH. exact Ha.
Qed.

Lemma no_anchor_start_no_lt (s : str) :
  ~ In "<"%char s -> no_anchor_start s = true.
Proof.
  induction s as [|c s IH]; intros H; [reflexivity|]. simpl.
  destruct (Ascii.eqb c "<") eqn:E.
  - apply Ascii.eqb_eq in E. subst. exfalso. apply H. now left.
  - apply IH. intros Hin. apply H. now right.
Qed.

Lemma no_anchor_start_escape (s : str) : no_anchor_start (escape s true) = true.
Proof.
  apply no_anchor_start_no_lt. intros H. apply escape_chars in H. tauto.
Qed.

Lemma startswith_app (pre s : str) :
  startswith pre s = true -> exists rest, s = pre ++ rest.
Proof.
  intros H. exists (skipn (length pre) s).
  rewrite <- (startswith_firstn pre s H) at 1. symmetry. apply firstn_skipn.
Qed.

Lemma contains_decomp (sub s : str) :
  0 < length sub -> contains sub s = true ->
  exists pre post, s = pre ++ sub ++ post.
Proof.
  unfold contains. intros Hs H.
  destruct (find sub s 0) as [e|] eqn:E; [|discriminate].
  apply find_bounds in E; [|exact Hs]. destruct E as (_ & _ & E).
  unfold startswith_at in E. apply startswith_app in E. destruct E as [rest E].
  exists (firstn e s), rest. rewrite <- E. symmetry. apply firstn_skipn.
Qed.

Lemma no_anchor_start_tail (c : ascii) (s : str) :
  no_anchor_start (c :: s) = true -> no_anchor_start s = true.
Proof.
  simpl. destruct (Ascii.eqb c "<"); [|auto].
  destruct s; [discriminate|]. intros H. apply andb_true_iff in H. tauto.
Qed.

Lemma no_anchor_start_contains (s : str) :
  no_anchor_start s = true -> contains "<a" s = false.
Proof.
  intros H. destruct (contains "<a" s) eqn:C; [|reflexivity].
  apply contains_decomp in C; [|simpl; lia].
  destruct C as (pre & post & ->). exfalso.
  change (lit "<a") with ["<"; "a"]%char in H.
  induction pre as [|c pre IH]; [discriminate|].
  apply IH. eapply no_anchor_start_tail. exact H.
Qed.

(** Without a closing bracket in the text no anchor is written. *)
Lemma parse_inline_no_anchor (text : str) :
  ~ In "]"%char text -> no_anchor_start (parse_inline text) = true.
Proof.
  apply (parse_inline_ind (fun t => ~ In "]"%char t)
           (fun h => no_anchor_start h = true)).
  - intros t a b H Hin. apply H. eapply in_slice; eauto.
  - reflexivity.
  - apply no_anchor_start_app.
  - apply no_anchor_start_escape.
  - intros s. repeat apply no_anchor_start_app;
      [reflexivity|apply no_anchor_start_escape|reflexivity].
  - intros h Hh. repeat apply no_anchor_start_app; auto.
  - intros h Hh. repeat apply no_anchor_start_app; auto.
  - intros t url h Hn Hin. contradiction.
Qed.

(** ** The wide formatter agrees with [parse_inline] on U+0000..U+00FF *)

Lemma cp_eqb (a b : ascii) : (Wide.cp a =? Wide.cp b)%N = Ascii.eqb a b.
Proof.
  unfold Wide.cp. destruct (Ascii.eqb_spec a b) as [->|Hne].
  - apply N.eqb_refl.
  - apply N.eqb_neq. intros E. apply Hne.
    rewrite <- (ascii_N_embedding a), <- (ascii_N_embedding b). now rewrite E.
Qed.

Lemma isspace_cp (a : ascii) : Wide.isspace (Wide.cp a) = isspace a.
Proof. destruct a as [[] [] [] [] [] [] [] []]; reflexivity. Qed.

Lemma lower_cp (a : ascii) : Wide.lower_char (Wide.cp a) = Wide.cp (lower_char a).
Proof. destruct a as [[] [] [] [] [] [] [] []]; reflexivity. Qed.

Lemma widen_app (a b : str) : Wide.widen (a ++ b) = Wide.widen a ++ Wide.widen b.
Proof. apply map_app. Qed.

Lemma widen_length (s : str) : length (Wide.widen s) = length s.
Proof. apply length_map. Qed.

Lemma widen_skipn (n : nat) (s : str) : skipn n (Wide.widen s) = Wide.widen (skipn n s).
Proof. apply skipn_map. Qed.

Lemma widen_slice (s : str) (a b : nat) :
  slice (Wide.widen s) a b = Wide.widen (slice s a b).
Proof. unfold slice. rewrite widen_skipn. apply firstn_map. Qed.

Lemma widen_startswith (p s : str) :
  Wide.startswith (Wide.widen p) (Wide.widen s) = startswith p s.
Proof.
  revert s. induction p as [|x p IH]; intros [|c s]; simpl; try reflexivity.
  now rewrite cp_eqb, IH.
Qed.

Lemma widen_find_from (sub s : str) (k : nat) :
  Wide.find_from (Wide.widen sub) (Wide.widen s) k = find_from sub s k.
Proof.
  revert k. induction s as [|c s IH]; intros k.
  - cbn [Wide.widen map Wide.find_from find_from].
    now rewrite <- (widen_startswith sub []).
  - cbn [Wide.widen map Wide.find_from find_from].
    change (Wide.cp c :: map Wide.cp s) with (Wide.widen (c :: s)).
    rewrite widen_startswith. change (map Wide.cp s) with (Wide.widen s).
    now rewrite IH.
Qed.

Lemma widen_find (sub s : str) (start : nat) :
  Wide.find (Wide.widen sub) (Wide.widen s) start = find sub s start.
Proof. unfold Wide.find, find. now rewrite widen_skipn, widen_find_from. Qed.

Lemma widen_char_is (s : str) (j : nat) (c : ascii) :
  Wide.char_is (Wide.widen s) j (Wide.cp c) = char_is s j c.
Proof.
  unfold Wide.char_is, char_is, Wide.widen. rewrite nth_error_map.
  destruct (nth_error s j); simpl; [apply cp_eqb|reflexivity].
Qed.

Lemma widen_get (s : str) (i : nat) :
  get (Wide.widen s) i = map_res Wide.cp (get s i).
Proof.
  unfold get, Wide.widen. rewrite nth_error_map.
  destruct (nth_error s i); reflexivity.
Qed.

Lemma widen_dropwhile (s : str) :
  Wide.dropwhile Wide.isspace (Wide.widen s) = Wide.widen (dropwhile isspace s).
Proof.
  induction s as [|c s IH]; simpl; [reflexivity|].
  rewrite isspace_cp. destruct (isspace c); [exact IH|reflexivity].
Qed.

Lemma widen_rev (s : str) : rev (Wide.widen s) = Wide.widen (rev s).
Proof. symmetry. apply map_rev. Qed.

Lemma widen_strip (s : str) : Wide.strip (Wide.widen s) = Wide.widen (strip s).
Proof.
  unfold Wide.strip, strip, rstrip_by, lstrip_by.
  now rewrite widen_dropwhile, widen_rev, widen_dropwhile, widen_rev.
Qed.

Lemma widen_lower (s : str) : Wide.lower (Wide.widen s) = Wide.widen (lower s).
Proof.
  unfold Wide.lower, lower, Wide.widen. rewrite !map_map.
  apply map_ext. exact lower_cp.
Qed.

Lemma widen_replace (old : ascii) (new s : str) :
  Wide.replace (Wide.cp old) (Wide.widen new) (Wide.widen s)
  = Wide.widen (replace old new s).
Proof.
  unfold Wide.replace, replace. induction s as [|c s IH]; simpl; [reflexivity|].
  rewrite widen_app, <- IH, cp_eqb. destruct (Ascii.eqb c old); reflexivity.
Qed.

Lemma widen_escape (s : str) (quote : bool) :
  Wide.escape (Wide.widen s) quote = Wide.widen (escape s quote).
Proof.
  unfold Wide.escape, escape, Wide.w. cbv zeta.
  destruct quote; now rewrite !widen_replace.
Qed.

Lemma widen_too_long (s : str) : Wide.too_long (Wide.widen s) = too_long s.
Proof. unfold Wide.too_long, too_long. now rewrite widen_length. Qed.

Lemma widen_concat (l : list str) :
  concat (map Wide.widen l) = Wide.widen (concat l).
Proof. symmetry. apply concat_map. Qed.

Lemma widen_em_scan (f : nat) (text : str) (ch : ascii) (e : nat) :
  Wide.em_scan f (Wide.widen text) (Wide.cp ch) e = em_scan f text ch e.
Proof.
  revert e. induction f as [|f IH]; intros e; [reflexivity|].
  cbn [Wide.em_scan em_scan].
  change [Wide.cp ch] with (Wide.widen [ch]). rewrite widen_find.
  destruct (find [ch] text e) as [e'|]; [|reflexivity].
  rewrite widen_length, widen_char_is. destruct (negb _); [reflexivity|apply IH].
Qed.

Lemma wide_agrees (f : nat) :
  (forall text,
     Wide.parse_inline_fuel f (Wide.widen text)
     = map_res Wide.widen (parse_inline_fuel f text))
  /\ (forall text i result,
     Wide.inline_loop f (Wide.widen text) i (map Wide.widen result)
     = map_res (map Wide.widen) (inline_loop f text i result))
  /\ (forall text i,
     Wide.inline_step f (Wide.widen text) i
     = map_res (fun st => (Wide.widen (fst st), snd st)) (inline_step f text i)).
Proof.
  induction f as [|f (IHp & IHl & IHs)]; [repeat split; reflexivity|].
  split; [|split].
  - intros text. cbn [Wide.parse_inline_fuel parse_inline_fuel].
    rewrite widen_too_long. destruct (too_long text).
    + unfold map_res. cbn [bind]. now rewrite widen_escape.
    + change (@nil Wide.wstr) with (map Wide.widen []). rewrite IHl.
      destruct (inline_loop f text 0 []) as [r| |]; try reflexivity.
      unfold map_res. cbn [bind]. now rewrite widen_concat.
  - intros text i result. cbn [Wide.inline_loop inline_loop].
    rewrite widen_length. destruct (i <? length text); [|reflexivity].
    rewrite IHs. destruct (inline_step f text i) as [[s j]| |]; try reflexivity.
    unfold map_res at 1. cbn [bind fst snd].
    change [Wide.widen s] with (map Wide.widen [s]). rewrite <- map_app. apply IHl.
  - intros text i. rewrite inline_step_S. cbn [Wide.inline_step].
    rewrite widen_get. destruct (get text i) as [ch| |]; try reflexivity.
    unfold map_res at 1. cbn [bind]. rewrite !cp_eqb.
    unfold Wide.w, Wide.startswith_at, startswith_at.
    rewrite !widen_skipn, !widen_startswith, !widen_slice.
    destruct (Ascii.eqb ch "`").
    { rewrite widen_find. destruct (find "`" text (i + 1)) as [e|].
      - unfold map_res. cbn [bind fst snd].
        now rewrite widen_slice, widen_escape, !widen_app.
      - unfold map_res. cbn [bind fst snd].
        change [Wide.cp ch] with (Wide.widen [ch]). now rewrite widen_escape. }
    destruct (_ || _).
    { cbv zeta. rewrite widen_find. destruct (find _ text (i + 2)) as [e|].
      - rewrite widen_slice, IHp.
        destruct (parse_inline_fuel f (slice text (i + 2) e)) as [inner| |];
          try reflexivity.
        unfold map_res. cbn [bind fst snd]. now rewrite !widen_app.
      - unfold map_res. cbn [bind fst snd]. now rewrite widen_escape. }
    destruct (_ || _).
    { rewrite widen_length, widen_char_is. destruct (_ && _).
      - unfold map_res. cbn [bind fst snd].
        change [Wide.cp ch; Wide.cp ch] with (Wide.widen [ch; ch]).
        now rewrite widen_escape.
      - rewrite widen_em_scan. destruct (em_scan f text ch (i + 1)) as [[e|]| |];
          try reflexivity; cbn [bind].
        + rewrite widen_slice, IHp.
          destruct (parse_inline_fuel f (slice text (i + 1) e)) as [inner| |];
            try reflexivity.
          unfold map_res. cbn [bind fst snd]. now rewrite !widen_app.
        + unfold map_res. cbn [bind fst snd].
          change [Wide.cp ch] with (Wide.widen [ch]). now rewrite widen_escape. }
    assert (Hlit : forall e, @Ok (Wide.wstr * nat) (Wide.escape [Wide.cp ch] true, e)
                   = map_res (fun st => (Wide.widen (fst st), snd st))
                       (Ok (escape [ch] true, e))).
    { intros e. unfold map_res. cbn [bind fst snd].
      change [Wide.cp ch] with (Wide.widen [ch]). now rewrite widen_escape. }
    destruct (Ascii.eqb ch "["); [|apply Hlit].
    rewrite widen_find. destruct (find "]" text (i + 1)) as [cb|]; [|apply Hlit].
    rewrite widen_length, widen_char_is. destruct (_ && _); [|apply Hlit].
    rewrite widen_find. destruct (find ")" text (cb + 2)) as [cpar|]; [|apply Hlit].
    cbv zeta. rewrite !widen_slice, widen_strip, widen_lower, widen_startswith, IHp.
    destruct (negb _);
      (destruct (parse_inline_fuel f (slice text (i + 1) cb)) as [label| |];
       try reflexivity).
    + unfold map_res. cbn [bind fst snd].
      rewrite widen_escape, !widen_app. reflexivity.
Qed.

(** On a text of code points up to U+00FF the wide formatter gives what
    [parse_inline] gives. *)
Lemma wide_parse_inline (text : str) :
  Wide.parse_inline (Wide.widen text) = Wide.widen (parse_inline text).
Proof.
  unfold Wide.parse_inline, parse_inline, inline_fuel.
  rewrite widen_length, (proj1 (wide_agrees _)).
  destruct (parse_inline_fuel _ text); reflexivity.
Qed.

(** ** The wide formatter returns on every text *)

Section WideFacts.

Import Wide.

Lemma w_startswith_length (pre s : wstr) :
  startswith pre s = true -> length pre <= length s.
Proof.
  revert s. induction pre as [|p pre IH]; intros [|c s] H; simpl in *;
    try discriminate; try lia.
  apply andb_true_iff in H. destruct H as [_ H]. apply IH in H. lia.
Qed.

Lemma w_find_from_bounds (sub s : wstr) (k e : nat) :
  find_from sub s k = Some e ->
  k <= e /\ (e - k) + length sub <= length s
  /\ startswith sub (skipn (e - k) s) = true.
Proof.
  revert k. induction s as [|c s IH]; intros k H; simpl in H.
  - destruct (startswith sub []) eqn:E; inversion H; subst.
    replace (e - e) with 0 by lia. apply w_startswith_length in E as E'.
    simpl in *. repeat split; try lia. exact E.
  - destruct (startswith sub (c :: s)) eqn:E.
    + inversion H; subst. replace (e - e) with 0 by lia.
      apply w_startswith_length in E as E'. simpl in *. repeat split; try lia. exact E.
    + apply IH in H. destruct H as (H1 & H2 & H3).
      replace (e - k) with (S (e - S k)) by lia. simpl. repeat split; try lia. exact H3.
Qed.

Lemma w_find_bounds (sub s : wstr) (start e : nat) :
  0 < length sub ->
  find sub s start = Some e ->
  start <= e /\ e + length sub <= length s /\ startswith_at sub s e = true.
Proof.
  intros Hsub H. unfold find in H. apply w_find_from_bounds in H.
  destruct H as (H1 & H2 & H3). rewrite length_skipn in H2.
  unfold startswith_at. rewrite skipn_skipn in H3.
  replace (e - start + start) with e in H3 by lia.
  repeat split; try lia. exact H3.
Qed.

Lemma w_find_from_char (ch : N) (s : wstr) (k : nat) :
  match find_from [ch] s k with
  | Some e => exists pre post,
      s = pre ++ ch :: post /\ Forall (fun c => c <> ch) pre /\ e = k + length pre
  | None => Forall (fun c => c <> ch) s
  end.
Proof.
  revert k. induction s as [|c s IH]; intros k; simpl.
  - constructor.
  - rewrite andb_true_r. destruct (ch =? c)%N eqn:E.
    + apply N.eqb_eq in E. subst c. exists [], s. simpl.
      repeat split; [constructor|lia].
    + apply N.eqb_neq in E. specialize (IH (S k)).
      destruct (find_from [ch] s (S k)) as [e|].
      * destruct IH as (pre & post & -> & Hp & ->).
        exists (c :: pre), post. simpl. repeat split; [|lia].
        constructor; [congruence|exact Hp].
      * constructor; [congruence|exact IH].
Qed.

Lemma w_em_scan_mono (f f' : nat) (text : wstr) (ch : N) (e : nat) :
  f <= f' -> le_res (em_scan f text ch e) (em_scan f' text ch e).
Proof.
  revert f' e. induction f as [|f IH]; intros f' e Hle.
  - left; reflexivity.
  - destruct f' as [|f']; [lia|]. simpl.
    destruct (find [ch] text e); le_res_tac. apply IH. lia.
Qed.

Lemma w_inline_mono (f : nat) :
  (forall f' text, f <= f' ->
     le_res (parse_inline_fuel f text) (parse_inline_fuel f' text))
  /\ (forall f' text i result, f <= f' ->
     le_res (inline_loop f text i result) (inline_loop f' text i result))
  /\ (forall f' text i, f <= f' ->
     le_res (inline_step f text i) (inline_step f' text i)).
Proof.
  induction f as [|f (IHp & IHl & IHs)].
  - repeat split; intros; left; reflexivity.
  - repeat split; intros f' text; intros; (destruct f' as [|f']; [lia|]);
      assert (Hf : f <= f') by lia; simpl.
    + le_res_tac. apply IHl, Hf.
    + le_res_tac; [apply IHs, Hf | apply IHl, Hf].
    + le_res_tac; try (apply IHp, Hf). apply w_em_scan_mono, Hf.
Qed.

Lemma w_em_scan_enough (f : nat) (text : wstr) (ch : N) (e : nat) :
  length text - e < f ->
  exists r, em_scan f text ch e = Ok r
            /\ forall e', r = Some e' -> e <= e' < length text.
Proof.
  revert e. induction f as [|f IH]; intros e Hf; [lia|]. simpl.
  destruct (find [ch] text e) as [e'|] eqn:E.
  - apply w_find_bounds in E; [|simpl; lia]. simpl in E.
    destruct (negb _) eqn:B.
    + eexists; split; [reflexivity|]. intros ? [= <-]. lia.
    + destruct (IH (e' + 2)) as (r & Hr & Hb); [lia|].
      exists r; split; [exact Hr|]. intros e'' He. apply Hb in He. lia.
  - eexists; split; [reflexivity|]. discriminate.
Qed.

Lemma w_startswith_at_bound (pre s : wstr) (i : nat) :
  startswith_at pre s i = true -> 0 < length pre -> i + length pre <= length s.
Proof.
  unfold startswith_at. intros H Hp. apply w_startswith_length in H.
  rewrite length_skipn in H. lia.
Qed.

Lemma w_inline_enough (f : nat) :
  (forall text, 2 * length text + 2 <= f ->
     exists out, parse_inline_fuel f text = Ok out)
  /\ (forall text i result, 2 * (length text - i) + 1 <= f ->
     exists out, inline_loop f text i result = Ok out)
  /\ (forall text i, i < length text -> 2 * (length text - i) <= f ->
     exists p i', inline_step f text i = Ok (p, i') /\ i < i' <= length text).
Proof.
  induction f as [|f (IHp & IHl & IHs)].
  - repeat split; intros; lia.
  - repeat split.
    + intros text Hf. simpl. destruct (too_long text); [eauto|].
      destruct (IHl text 0 []) as [r Hr]; [lia|]. rewrite Hr. simpl. eauto.
    + intros text i result Hf. simpl. destruct (i <? length text) eqn:Hi; [|eauto].
      apply Nat.ltb_lt in Hi.
      destruct (IHs text i) as (p & i' & Hs & Hb); [lia|lia|].
      rewrite Hs. simpl. apply IHl. lia.
    + intros text i Hi Hf. cbn [inline_step].
      assert (Hrec : forall a b, i < a -> a <= b -> b < length text ->
                exists h, parse_inline_fuel f (slice text a b) = Ok h).
      { intros a b Ha Hab Hb. apply IHp.
        pose proof (slice_length text a b). lia. }
      destruct (get_lt text i Hi) as (ch & Hg & Hn). rewrite Hg. cbn [bind].
      destruct (ch =? cp "`")%N.
      { destruct (find (w "`") text (i + 1)) as [e|] eqn:E.
        - apply w_find_bounds in E; [|simpl; lia]. simpl in E.
          do 2 eexists; split; [reflexivity|lia].
        - do 2 eexists; split; [reflexivity|lia]. }
      destruct (startswith_at (w "**") text i || startswith_at (w "__") text i) eqn:Hb.
      { assert (Hi2 : i + 2 <= length text).
        { apply orb_true_iff in Hb.
          destruct Hb as [Hb|Hb]; apply w_startswith_at_bound in Hb; simpl in *; lia. }
        cbv zeta.
        destruct (find (slice text i (i + 2)) text (i + 2)) as [e|] eqn:E.
        - apply w_find_bounds in E; [|rewrite slice_exact; lia].
          rewrite slice_exact in E by lia.
          destruct (Hrec (i + 2) e) as [h Hh]; try lia. rewrite Hh. cbn [bind].
          do 2 eexists; split; [reflexivity|lia].
        - do 2 eexists; split; [reflexivity|lia]. }
      destruct ((ch =? cp "*")%N || (ch =? cp "_")%N).
      { destruct ((i + 1 <? length text) && char_is text (i + 1) ch) eqn:Hd.
        - apply andb_true_iff in Hd. destruct Hd as [Hd _]. apply Nat.ltb_lt in Hd.
          do 2 eexists; split; [reflexivity|lia].
        - destruct (w_em_scan_enough f text ch (i + 1)) as (r & Hr & Hbd); [lia|].
          rewrite Hr. cbn [bind]. destruct r as [e|].
          + specialize (Hbd e eq_refl).
            destruct (Hrec (i + 1) e) as [h Hh]; try lia. rewrite Hh. cbn [bind].
            do 2 eexists; split; [reflexivity|lia].
          + do 2 eexists; split; [reflexivity|lia]. }
      destruct (ch =? cp "[")%N.
      { destruct (find (w "]") text (i + 1)) as [cb|] eqn:E;
          [|do 2 eexists; split; [reflexivity|lia]].
        apply w_find_bounds in E; [|simpl; lia]. simpl in E.
        destruct ((cb + 1 <? length text) && char_is text (cb + 1) (cp "("));
          [|do 2 eexists; split; [reflexivity|lia]].
        destruct (find (w ")") text (cb + 2)) as [cpar|] eqn:E2;
          [|do 2 eexists; split; [reflexivity|lia]].
        apply w_find_bounds in E2; [|simpl; lia]. simpl in E2.
        cbv zeta.
        destruct (Hrec (i + 1) cb) as [h Hh]; try lia. rewrite Hh.
        destruct (negb _); cbn [bind]; do 2 eexists; split; try reflexivity; lia. }
      do 2 eexists; split; [reflexivity|lia].
Qed.

Lemma w_parse_inline_fuel_enough (text : wstr) (f : nat) :
  2 * length text + 2 <= f -> parse_inline_fuel f text = Ok (parse_inline text).
Proof.
  intros Hf. unfold parse_inline.
  destruct (proj1 (w_inline_enough (2 * length text + 2)) text) as [out Hout]; [lia|].
  rewrite Hout. simpl.
  eapply le_res_ok; [|exact Hout]. apply (proj1 (w_inline_mono _)). exact Hf.
Qed.

Lemma w_inline_step_enough (text : wstr) (i f : nat) :
  i < length text -> 2 * (length text - i) <= f ->
  inline_step f text i = Ok (inline_piece text i).
Proof.
  intros Hi Hf. unfold inline_piece.
  destruct (proj2 (proj2 (w_inline_enough (2 * (length text - i)))) text i)
    as (p & i' & Hs & _); [lia|lia|].
  rewrite Hs. simpl.
  eapply le_res_ok; [|exact Hs]. apply (proj2 (proj2 (w_inline_mono _))). exact Hf.
Qed.

Lemma w_inline_piece_bounds (text : wstr) (i : nat) :
  i < length text -> i < snd (inline_piece text i) <= length text.
Proof.
  intros Hi. unfold inline_piece.
  destruct (proj2 (proj2 (w_inline_enough (2 * (length text - i)))) text i)
    as (p & i' & Hs & Hb); [lia|lia|].
  rewrite Hs. exact Hb.
Qed.

Lemma w_inline_loop_acc (f : nat) (text : wstr) (i : nat) (result : list wstr) :
  inline_loop f text i result
  = (r <- inline_loop f text i [] ;; Ok (result ++ r)).
Proof.
  revert i result. induction f as [|f IH]; intros i result; [reflexivity|].
  cbn [inline_loop]. destruct (i <? length text).
  - destruct (inline_step f text i) as [[p i']| |]; simpl; try reflexivity.
    rewrite (IH i' (result ++ [p])), (IH i' [p]).
    destruct (inline_loop f text i' []); simpl; try reflexivity.
    now rewrite <- app_assoc.
  - simpl. now rewrite app_nil_r.
Qed.

Lemma w_inline_loop_enough (text : wstr) (i f : nat) (result : list wstr) :
  2 * (length text - i) + 1 <= f ->
  exists pieces, inline_loop f text i result = Ok (result ++ pieces)
                 /\ inline_from text i = concat pieces.
Proof.
  intros Hf. unfold inline_from.
  destruct (proj1 (proj2 (w_inline_enough (2 * (length text - i) + 1))) text i [])
    as [out Hout]; [lia|].
  rewrite Hout. simpl. exists out. split; [|reflexivity].
  assert (H : inline_loop f text i [] = Ok out).
  { eapply le_res_ok; [|exact Hout]. apply (proj1 (proj2 (w_inline_mono _))). exact Hf. }
  rewrite w_inline_loop_acc, H. reflexivity.
Qed.

Lemma w_inline_from_end (text : wstr) (i : nat) :
  length text <= i -> inline_from text i = [].
Proof.
  intros Hi. unfold inline_from.
  replace (length text - i) with 0 by lia. simpl.
  destruct (i <? length text) eqn:E; [apply Nat.ltb_lt in E; lia|reflexivity].
Qed.

Lemma w_inline_from_step (text : wstr) (i : nat) :
  i < length text ->
  inline_from text i
  = fst (inline_piece text i) ++ inline_from text (snd (inline_piece text i)).
Proof.
  intros Hi. pose proof (w_inline_piece_bounds text i Hi) as Hb.
  destruct (w_inline_loop_enough text i (S (2 * (length text - i))) []) as (ps & Hl & ->);
    [lia|].
  cbn [inline_loop] in Hl.
  destruct (i <? length text) eqn:E; [|apply Nat.ltb_ge in E; lia].
  rewrite (w_inline_step_enough text i) in Hl by lia. cbn [bind app] in Hl.
  destruct (w_inline_loop_enough text (snd (inline_piece text i))
              (2 * (length text - i)) [fst (inline_piece text i)]) as (qs & Hq & ->); [lia|].
  rewrite Hq in Hl. injection Hl as <-. reflexivity.
Qed.

Lemma w_parse_inline_unfold (text : wstr) :
  parse_inline text
  = if too_long text then escape text true else inline_from text 0.
Proof.
  pose proof (w_parse_inline_fuel_enough text (2 * length text + 2) (le_n _)) as H.
  replace (2 * length text + 2) with (S (2 * length text + 1)) in H by lia.
  cbn [parse_inline_fuel] in H. destruct (too_long text); [congruence|].
  destruct (w_inline_loop_enough text 0 (2 * length text + 1) []) as (ps & Hl & ->); [lia|].
  rewrite Hl in H. simpl in H. congruence.
Qed.

End WideFacts.

(** ** The link branch on wide text *)

Section WideLink.

Import Wide.

Lemma w_startswith_at_other (d : ascii) (text : wstr) (i : nat) (ch : N) :
  nth_error text i = Some ch -> ch <> cp d ->
  startswith_at (w (String d (String d EmptyString))) text i = false.
Proof.
  intros Hn Hd. unfold startswith_at.
  pose proof (nth_error_skipn_hd text i) as Hh. rewrite Hn in Hh.
  destruct (skipn i text) as [|c r]; [discriminate|].
  simpl in Hh. injection Hh as ->.
  change (w (String d (String d EmptyString))) with [cp d; cp d].
  cbn [startswith]. apply N.eqb_neq in Hd. rewrite N.eqb_sym, Hd. reflexivity.
Qed.

Lemma w_piece_link_js (text : wstr) (i cb cpar : nat) :
  nth_error text i = Some (cp "[") ->
  find (w "]") text (i + 1) = Some cb ->
  char_is text (cb + 1) (cp "(") = true ->
  find (w ")") text (cb + 2) = Some cpar ->
  startswith (w "javascript:") (lower (strip (slice text (cb + 2) cpar))) = true ->
  inline_piece text i = (parse_inline (slice text (i + 1) cb), cpar + 1).
Proof.
  intros Hn Hb Hp Hc Hjs.
  apply w_find_bounds in Hb as Hbb; [|simpl; lia]. simpl in Hbb.
  apply w_find_bounds in Hc as Hcb; [|simpl; lia]. simpl in Hcb.
  assert (Hlt : (cb + 1 <? length text) = true) by (apply Nat.ltb_lt; lia).
  pose proof (nth_error_lt _ _ _ Hn) as Hi.
  pose proof (w_inline_step_enough text i (S (2 * (length text - i))) Hi ltac:(lia)) as H.
  cbn [inline_step] in H. rewrite (get_nth _ _ _ Hn) in H. cbn [bind] in H.
  change (cp "[" =? cp "`")%N with false in H.
  rewrite (w_startswith_at_other "*" text i _ Hn) in H by discriminate.
  rewrite (w_startswith_at_other "_" text i _ Hn) in H by discriminate.
  change (cp "[" =? cp "*")%N with false in H.
  change (cp "[" =? cp "_")%N with false in H.
  change (cp "[" =? cp "[")%N with true in H.
  cbn [orb] in H. cbv iota in H.
  rewrite Hb, Hlt, Hp, Hc in H. cbn [andb] in H. cbv zeta in H.
  rewrite Hjs in H. cbn [negb] in H.
  rewrite w_parse_inline_fuel_enough in H
    by (pose proof (slice_length text (i + 1) cb); lia).
  cbn [bind] in H. congruence.
Qed.

Lemma w_find_char_slice (c : N) (text : wstr) (start e : nat) :
  find [c] text start = Some e -> ~ In c (slice text start e).
Proof.
  unfold find. intros H.
  pose proof (w_find_from_char c (skipn start text) start) as Hf.
  rewrite H in Hf. destruct Hf as (pre & post & Hs & Hp & ->).
  unfold slice. rewrite Hs. replace (start + length pre - start) with (length pre) by lia.
  rewrite firstn_app, Nat.sub_diag, firstn_all. simpl. rewrite app_nil_r.
  intros Hin. rewrite Forall_forall in Hp. now apply (Hp c Hin).
Qed.

Lemma w_find_char_in (c : N) (text : wstr) (start e : nat) :
  find [c] text start = Some e -> In c text.
Proof.
  unfold find. intros H.
  pose proof (w_find_from_char c (skipn start text) start) as Hf.
  rewrite H in Hf. destruct Hf as (pre & post & Hs & _).
  rewrite <- (firstn_skipn start text), Hs.
  apply in_or_app. right. apply in_or_app. right. now left.
Qed.

Lemma w_parse_inline_fuel_det (f : nat) (t h : wstr) :
  parse_inline_fuel f t = Ok h -> h = parse_inline t.
Proof.
  intros H.
  pose proof (proj1 (w_inline_mono f) (max f (2 * length t + 2)) t (Nat.le_max_l _ _)) as Hm.
  apply (le_res_ok _ _ _ Hm) in H.
  rewrite w_parse_inline_fuel_enough in H by apply Nat.le_max_r. congruence.
Qed.

Lemma w_inline_piece_shape (text : wstr) (i : nat) :
  i < length text -> piece_shape text (fst (inline_piece text i)).
Proof.
  intros Hi.
  pose proof (w_inline_step_enough text i (S (2 * (length text - i))) Hi ltac:(lia)) as H.
  cbn [inline_step] in H.
  destruct (get_lt text i Hi) as (ch & Hg & _). rewrite Hg in H. cbn [bind] in H.
  assert (Hesc : forall s j, Ok (escape s true, j) = Ok (inline_piece text i) ->
                 piece_shape text (fst (inline_piece text i))).
  { intros s j [= <-]. constructor. }
  destruct (ch =? cp "`")%N.
  { destruct (find (w "`") text (i + 1)); [|eauto].
    injection H as <-. constructor. }
  destruct (_ || _).
  { cbv zeta in H. destruct (find _ text (i + 2)); [|eauto].
    destruct (parse_inline_fuel _ _) as [h| |] eqn:E; cbn [bind] in H; try discriminate.
    apply w_parse_inline_fuel_det in E. subst h. injection H as <-.
    apply ps_strong. lia. }
  destruct (_ || _).
  { destruct (_ && _); [eauto|].
    destruct (em_scan _ _ _ _) as [[e|]| |]; cbn [bind] in H; try discriminate; [|eauto].
    destruct (parse_inline_fuel _ _) as [h| |] eqn:E; cbn [bind] in H; try discriminate.
    apply w_parse_inline_fuel_det in E. subst h. injection H as <-.
    apply ps_em. lia. }
  destruct (ch =? cp "[")%N; [|eauto].
  destruct (find (w "]") text (i + 1)) as [cb|] eqn:Hb; [|eauto].
  apply (w_find_char_in (cp "]")) in Hb.
  destruct (_ && _); [|eauto].
  destruct (find (w ")") text (cb + 2)); [|eauto].
  cbv zeta in H.
  destruct (negb _);
    destruct (parse_inline_fuel _ _) as [h| |] eqn:E; cbn [bind] in H; try discriminate;
    apply w_parse_inline_fuel_det in E; subst h; injection H as <-.
  - apply (ps_link text (i + 1) cb); [lia|exact Hb].
  - apply ps_label. lia.
Qed.

(** The induction principle of [parse_inline_ind], on wide text. *)
Lemma w_parse_inline_ind (ok : wstr -> Prop) (P : wstr -> Prop) :
  (forall t a b, ok t -> ok (slice t a b)) ->
  P [] ->
  (forall x y, P x -> P y -> P (x ++ y)) ->
  (forall s, P (escape s true)) ->
  (forall s, P (w "<code>" ++ escape s true ++ w "</code>")) ->
  (forall h, P h -> P (w "<strong>" ++ h ++ w "</strong>")) ->
  (forall h, P h -> P (w "<em>" ++ h ++ w "</em>")) ->
  (forall t url h, ok t -> In (cp "]") t -> P h -> P (anchor url h)) ->
  forall text, ok text -> P (parse_inline text).
Proof.
  intros ok_slice P_nil P_app P_escaped P_code P_strong P_em P_link text.
  remember (length text) as n eqn:Hn. revert text Hn.
  induction n as [n IH] using lt_wf_ind. intros text -> Hok.
  rewrite w_parse_inline_unfold. destruct (too_long text); [apply P_escaped|].
  assert (Hfrom : forall k i, length text - i <= k -> P (inline_from text i)).
  { induction k as [|k IHk]; intros i Hk.
    - rewrite w_inline_from_end by lia. exact P_nil.
    - destruct (Nat.le_gt_cases (length text) i) as [Hle|Hlt].
      + rewrite w_inline_from_end by lia. exact P_nil.
      + rewrite w_inline_from_step by exact Hlt.
        pose proof (w_inline_piece_bounds text i Hlt) as Hb.
        apply P_app; [|apply IHk; lia].
        assert (Hrec : forall a b, 0 < a -> P (parse_inline (slice text a b))).
        { intros a b Ha. eapply IH; [|reflexivity|now apply ok_slice].
          pose proof (slice_length text a b). lia. }
        destruct (w_inline_piece_shape text i Hlt); eauto. }
  apply (Hfrom (length text)). lia.
Qed.

(** Escaped text holds no [<]. *)
Lemma w_replace_app (old : N) (new a b : wstr) :
  replace old new (a ++ b) = replace old new a ++ replace old new b.
Proof. unfold replace. apply flat_map_app. Qed.

Lemma w_replace_flat_map (old : N) (new : wstr) (f : N -> wstr) (s : wstr) :
  replace old new (flat_map f s) = flat_map (fun c => replace old new (f c)) s.
Proof.
  induction s as [|c s IH]; simpl; [reflexivity|].
  now rewrite w_replace_app, IH.
Qed.

Lemma w_escape_flat_map (s : wstr) :
  escape s true = flat_map (fun c => escape [c] true) s.
Proof.
  unfold escape.
  assert (H : replace (cp "&") (w "&amp;") s
              = flat_map (fun c => replace (cp "&") (w "&amp;") [c]) s).
  { unfold replace. apply flat_map_ext. intros c. simpl. now rewrite app_nil_r. }
  rewrite H, !w_replace_flat_map. reflexivity.
Qed.

Lemma w_escape_char_no_lt (c : N) : ~ In (cp "<") (escape [c] true).
Proof.
  destruct (N.eqb_spec c (cp "&")) as [->|H1]; [vm_compute; intuition discriminate|].
  destruct (N.eqb_spec c (cp "<")) as [->|H2]; [vm_compute; intuition discriminate|].
  destruct (N.eqb_spec c (cp ">")) as [->|H3]; [vm_compute; intuition discriminate|].
  destruct (N.eqb_spec c (cp dquote)) as [->|H4]; [vm_compute; intuition discriminate|].
  destruct (N.eqb_spec c (cp squote)) as [->|H5]; [vm_compute; intuition discriminate|].
  apply N.eqb_neq in H1, H2, H3, H4, H5.
  unfold escape, replace. cbn [flat_map app].
  rewrite H1. cbn [flat_map app]. rewrite H2. cbn [flat_map app].
  rewrite H3. cbn [flat_map app]. rewrite H4. cbn [flat_map app].
  rewrite H5. cbn [flat_map app].
  intros [E|[]]. apply N.eqb_neq in H2. congruence.
Qed.

Lemma w_escape_no_lt (s : wstr) : ~ In (cp "<") (escape s true).
Proof.
  rewrite w_escape_flat_map, in_flat_map. intros (c & _ & H).
  now apply (w_escape_char_no_lt c).
Qed.

Lemma w_no_anchor_start_app (a b : wstr) :
  no_anchor_start a = true -> no_anchor_start b = true ->
  no_anchor_start (a ++ b) = true.
Proof.
  intros Ha Hb. induction a as [|c a IH]; [exact Hb|].
  cbn [no_anchor_start app] in *. destruct (c =? cp "<")%N.
  - destruct a as [|x a]; [discriminate|].
    apply andb_true_iff in Ha. destruct Ha as [Hx Ha].
    cbn [app]. rewrite Hx. cbn [andb]. apply IH. exact Ha.
  - apply IH. exact Ha.
Qed.

Lemma w_no_anchor_start_no_lt (s : wstr) :
  ~ In (cp "<") s -> no_anchor_start s = true.
Proof.
  induction s as [|c s IH]; intros H; [reflexivity|]. cbn [no_anchor_start].
  destruct (c =? cp "<")%N eqn:E.
  - apply N.eqb_eq in E. subst. exfalso. apply H. now left.
  - apply IH. intros Hin. apply H. now right.
Qed.

Lemma w_startswith_app (pre s : wstr) :
  startswith pre s = true -> exists rest, s = pre ++ rest.
Proof.
  revert s. induction pre as [|p pre IH]; intros s H; [exists s; reflexivity|].
  destruct s as [|c s]; [discriminate|]. cbn [startswith] in H.
  apply andb_true_iff in H. destruct H as [E H]. apply N.eqb_eq in E. subst c.
  destruct (IH s H) as [rest ->]. exists rest. reflexivity.
Qed.

Lemma w_contains_decomp (sub s : wstr) :
  0 < length sub -> contains sub s = true ->
  exists pre post, s = pre ++ sub ++ post.
Proof.
  unfold contains. intros Hs H.
  destruct (find sub s 0) as [e|] eqn:E; [|discriminate].
  apply w_find_bounds in E; [|exact Hs]. destruct E as (_ & _ & E).
  unfold startswith_at in E. apply w_startswith_app in E. destruct E as [rest E].
  exists (firstn e s), rest. rewrite <- E. symmetry. apply firstn_skipn.
Qed.

Lemma w_no_anchor_start_tail (c : N) (s : wstr) :
  no_anchor_start (c :: s) = true -> no_anchor_start s = true.
Proof.
  cbn [no_anchor_start]. destruct (c =? cp "<")%N; [|auto].
  destruct s; [discriminate|]. intros H. apply andb_true_iff in H. tauto.
Qed.

Lemma w_no_anchor_start_contains (s : wstr) :
  no_anchor_start s = true -> contains (w "<a") s = false.
Proof.
  intros H. destruct (contains (w "<a") s) eqn:C; [|reflexivity].
  apply w_contains_decomp in C; [|simpl; lia].
  destruct C as (pre & post & ->). exfalso.
  induction pre as [|c pre IH]; [discriminate|].
  apply IH. eapply w_no_anchor_start_tail. exact H.
Qed.

(** Without a closing bracket in the text no anchor is written. *)
Lemma w_parse_inline_no_anchor (text : wstr) :
  ~ In (cp "]") text -> no_anchor_start (parse_inline text) = true.
Proof.
  apply (w_parse_inline_ind (fun t => ~ In (cp "]") t)
           (fun h => no_anchor_start h = true)).
  - intros t a b H Hin. apply H. eapply in_slice; eauto.
  - reflexivity.
  - apply w_no_anchor_start_app.
  - intros s. apply w_no_anchor_start_no_lt, w_escape_no_lt.
  - intros s. repeat apply w_no_anchor_start_app;
      [reflexivity|apply w_no_anchor_start_no_lt, w_escape_no_lt|reflexivity].
  - intros h Hh. repeat apply w_no_anchor_start_app; auto.
  - intros h Hh. repeat apply w_no_anchor_start_app; auto.
  - intros t url h Hn Hin. contradiction.
Qed.

(** The link with a [javascript:] URL, on wide text. *)
Lemma w_javascript_link (text : wstr) (i cb cpar : nat) :
  nth_error text i = Some (cp "[") ->
  find (w "]") text (i + 1) = Some cb ->
  char_is text (cb + 1) (cp "(") = true ->
  find (w ")") text (cb + 2) = Some cpar ->
  startswith (w "javascript:") (lower (strip (slice text (cb + 2) cpar))) = true ->
  inline_piece text i = (parse_inline (slice text (i + 1) cb), cpar + 1)
  /\ inline_from text i
     = parse_inline (slice text (i + 1) cb) ++ inline_from text (cpar + 1)
  /\ contains (w "<a") (parse_inline (slice text (i + 1) cb)) = false.
Proof.
  intros Hn Hb Hp Hc Hjs.
  pose proof (w_piece_link_js text i cb cpar Hn Hb Hp Hc Hjs) as Hpiece.
  split; [exact Hpiece|]. split.
  - rewrite (w_inline_from_step text i (nth_error_lt _ _ _ Hn)), Hpiece. reflexivity.
  - apply w_no_anchor_start_contains, w_parse_inline_no_anchor.
    apply (w_find_char_slice (cp "]") text (i + 1) cb Hb).
Qed.

End WideLink.

(** ** Links with a [javascript:] URL *)

Lemma find_char_slice (c : ascii) (text : str) (start e : nat) :
  find [c] text start = Some e -> ~ In c (slice text start e).
Proof.
  unfold find. intros H.
  pose proof (find_from_char c (skipn start text) start) as Hf.
  rewrite H in Hf. destruct Hf as (pre & post & Hs & Hp & ->).
  unfold slice. rewrite Hs. replace (start + length pre - start) with (length pre) by lia.
  rewrite firstn_app, Nat.sub_diag, firstn_all. simpl. rewrite app_nil_r.
  intros Hin. rewrite Forall_forall in Hp. now apply (Hp c Hin).
Qed.

Lemma javascript_link_latin1 (text : str) (i cb cp : nat) :
  nth_error text i = Some "["%char ->
  find "]" text (i + 1) = Some cb ->
  char_is text (cb + 1) "(" = true ->
  find ")" text (cb + 2) = Some cp ->
  startswith "javascript:" (lower (strip (slice text (cb + 2) cp))) = true ->
  inline_piece text i = (parse_inline (slice text (i + 1) cb), cp + 1)
  /\ inline_from text i
     = parse_inline (slice text (i + 1) cb) ++ inline_from text (cp + 1)
  /\ contains "<a" (parse_inline (slice text (i + 1) cb)) = false.
Proof.
  intros Hn Hb Hp Hc Hjs.
  pose proof (piece_link_js text i cb cp Hn Hb Hp Hc Hjs) as Hpiece.
  split; [exact Hpiece|]. split.
  - rewrite (inline_from_step text i (nth_error_lt _ _ _ Hn)), Hpiece. reflexivity.
  - apply no_anchor_start_contains, parse_inline_no_anchor.
    apply (find_char_slice "]" text (i + 1) cb Hb).
Qed.

(** C1, as the specification states it, has the URL trimmed and
    case-folded.  The code lower-cases it with [str.lower], which leaves
    the long s, U+017F, as it is, while case folding turns it into [s]:
    this URL starts with [javascript:] once trimmed and case-folded, not
    once trimmed and lower-cased, and the link gets its anchor element.
    With [s] itself, in either case, the label alone is emitted. *)
Lemma long_s_url_gets_anchor :
  forallb Wide.modelled long_s_link = true
  /\ Wide.startswith (Wide.w "javascript:") (Wide.casefold (Wide.strip long_s_url))
     = true
  /\ Wide.startswith (Wide.w "javascript:") (Wide.lower (Wide.strip long_s_url))
     = false
  /\ Wide.parse_inline long_s_link
     = Wide.w "<a href=" ++ [Wide.cp dquote] ++ long_s_url ++ [Wide.cp dquote]
         ++ Wide.w ">x</a>"
  /\ Wide.parse_inline (Wide.w "[x](JavaScript:alert)") = Wide.w "x".
Proof. repeat split; reflexivity. Qed.

(** C1, amended. With the cursor on the [[] of a link [[label](url)]
    whose URL, stripped and lower-cased with [str.lower], starts with
    [javascript:], the turn of the loop appends the recursively formatted
    label and nothing else, the cursor moves past the closing parenthesis,
    and the appended text holds no start of an anchor tag; what else the
    URL holds plays no part.  This holds of the formatter as
    [parse_markdown] runs it on text of U+0000..U+00FF, and of the
    formatter on text of any code points whose URL is of modelled ones. *)
Theorem javascript_link_suppressed :
  (forall (text : str) (i cb cp : nat),
     nth_error text i = Some "["%char ->
     find "]" text (i + 1) = Some cb ->
     char_is text (cb + 1) "(" = true ->
     find ")" text (cb + 2) = Some cp ->
     startswith "javascript:" (lower (strip (slice text (cb + 2) cp))) = true ->
     inline_piece text i = (parse_inline (slice text (i + 1) cb), cp + 1)
     /\ inline_from text i
        = parse_inline (slice text (i + 1) cb) ++ inline_from text (cp + 1)
     /\ contains "<a" (parse_inline (slice text (i + 1) cb)) = false)
  /\ (forall (text : Wide.wstr) (i cb cp : nat),
        nth_error text i = Some (Wide.cp "[") ->
        Wide.find (Wide.w "]") text (i + 1) = Some cb ->
        Wide.char_is text (cb + 1) (Wide.cp "(") = true ->
        Wide.find (Wide.w ")") text (cb + 2) = Some cp ->
        forallb Wide.modelled (slice text (cb + 2) cp) = true ->
        Wide.startswith (Wide.w "javascript:")
          (Wide.lower (Wide.strip (slice text (cb + 2) cp))) = true ->
        Wide.inline_piece text i = (Wide.parse_inline (slice text (i + 1) cb), cp + 1)
        /\ Wide.inline_from text i
           = Wide.parse_inline (slice text (i + 1) cb) ++ Wide.inline_from text (cp + 1)
        /\ Wide.contains (Wide.w "<a") (Wide.parse_inline (slice text (i + 1) cb))
           = false).
Proof.
  split; [exact javascript_link_latin1|].
  intros text i cb cp Hn Hb Hp Hc _. now apply w_javascript_link.
Qed.

Lemma javascript_link_suppressed_witness :
  inline_piece "[bad](  JavaScript:alert(1 )" 0 = (lit "bad", 28)
  /\ inline_from "[bad](  JavaScript:alert(1 )" 0
     = "bad" ++ inline_from "[bad](  JavaScript:alert(1 )" 28
  /\ parse_markdown_fuel 2 "[bad](  JavaScript:alert(1 ) end"
     = Ok (lit "<p>bad end</p>")
  /\ Wide.inline_piece
       (Wide.w "[x]( JavaScript:" ++ [Wide.long_s] ++ Wide.w " ) end") 0
     = (Wide.w "x", 19).
Proof.
  destruct javascript_link_suppressed as [Hlatin Hwide].
  pose proof (Hlatin "[bad](  JavaScript:alert(1 )" 0 4 27
                eq_refl eq_refl eq_refl eq_refl eq_refl) as (Hp & Hf & _).
  pose proof (Hwide (Wide.w "[x]( JavaScript:" ++ [Wide.long_s] ++ Wide.w " ) end")
                0 2 18 eq_refl eq_refl eq_refl eq_refl eq_refl eq_refl) as (Hq & _).
  split; [exact Hp|]. split; [exact Hf|]. split; [reflexivity|exact Hq].
Defined.

(** ** Escaping in content positions *)

(** C4, as the specification states it, has only [&], [<] and [>]
    replaced and the quote characters left as they are.  The double quote
    is none of the three and is replaced, in a content position too. *)
Lemma content_escape_replaces_quote :
  (dquote <> "&"%char /\ dquote <> "<"%char /\ dquote <> ">"%char)
  /\ escape [dquote] true = "&quot;"
  /\ escape [dquote] true <> [dquote]
  /\ parse_inline [dquote; squote] = "&quot;&#x27;".
Proof.
  repeat split; try discriminate; reflexivity.
Qed.

(** C4, amended. [escape] replaces each of the five characters [&], [<],
    [>], the double and the single quote with its entity and leaves every
    other character as it is; a character that opens no span is appended
    to the output that way. *)
Theorem content_escape_five (s : str) :
  escape s true = flat_map entity s
  /\ (forall c, ~ html_special c -> entity c = [c])
  /\ entity "&" = "&amp;" /\ entity "<" = "&lt;" /\ entity ">" = "&gt;"
  /\ entity dquote = "&quot;" /\ entity squote = "&#x27;"
  /\ (forall text i ch,
        nth_error text i = Some ch ->
        ch <> "`"%char -> ~ is_emph ch -> ch <> "["%char ->
        inline_piece text i = (entity ch, i + 1)).
Proof.
  split; [apply escape_entities|]. split; [apply entity_other|].
  repeat (split; [reflexivity|]).
  intros text i ch Hn H1 H2 H3. rewrite <- escape_char.
  now apply piece_default.
Qed.

Lemma content_escape_five_witness :
  escape ("a<b>&" ++ [dquote; squote]) true = "a&lt;b&gt;&amp;&quot;&#x27;"
  /\ inline_piece "x > y" 2 = (lit "&gt;", 3).
Proof.
  pose proof (content_escape_five ("a<b>&" ++ [dquote; squote])) as (H & _ & _ & _ & _ & _ & _ & Hp).
  split.
  - rewrite H. reflexivity.
  - apply (Hp "x > y" 2 ">"%char eq_refl); [discriminate| |discriminate].
    intros [E|E]; discriminate.
Defined.

(** ** The output is made of markup and escaped text *)

Lemma parse_inline_html (text : str) : inline_html (parse_inline text).
Proof.
  apply (parse_inline_ind (fun _ => True) inline_html); auto.
  - apply ih_nil.
  - apply ih_app.
  - apply ih_text.
  - apply ih_code.
  - apply ih_strong.
  - apply ih_em.
  - intros t url h _ _. apply ih_link.
Qed.

Lemma list_html_concat (l : list str) : Forall list_html l -> list_html (concat l).
Proof.
  induction 1; simpl; [apply lh_nil|now apply lh_app].
Qed.

Lemma close_levels_html (indent : nat) (lt : ltype) (stack : list level)
  (html : list str) :
  Forall list_html html -> Forall list_html (snd (close_levels indent lt stack html)).
Proof.
  revert html. induction stack as [|[t ind] rest IH]; intros html H; simpl; [exact H|].
  destruct (_ || _); [|exact H].
  apply IH. apply Forall_app. split; [exact H|].
  constructor; [apply lh_close|constructor].
Qed.

Lemma open_level_html (indent : nat) (lt : ltype) (stack : list level)
  (html : list str) :
  Forall list_html html -> Forall list_html (snd (open_level indent lt stack html)).
Proof.
  intros H. unfold open_level. destruct (opens_level _ _ _); simpl; [|exact H].
  apply Forall_app. split; [exact H|].
  constructor; [apply lh_open|constructor].
Qed.

Lemma list_output_html (f : nat) :
  (forall lines start b h i',
     parse_list_fuel f lines start b = Ok (h, i') -> list_html h)
  /\ (forall lines i stack html h s i',
     Forall list_html html ->
     list_loop f lines i stack html = Ok (h, s, i') -> Forall list_html h).
Proof.
  induction f as [|f (IHp & IHl)]; [split; intros; discriminate|]. split.
  - intros lines start b h i' H. rewrite parse_list_fuel_S in H.
    destruct (list_loop f lines start [] []) as [[[hh ss] ii]| |] eqn:E;
      cbn [bind] in H; try discriminate.
    injection H as <- _. apply IHl in E; [|constructor].
    apply list_html_concat, Forall_app. split; [exact E|].
    apply Forall_map, Forall_forall. intros; apply lh_close.
  - intros lines i stack html h s i' Hh H. rewrite list_loop_S in H.
    assert (Hsame : Ok (html, stack, i) = Ok (h, s, i') -> Forall list_html h).
    { intros [= <- _ _]. exact Hh. }
    destruct (i <? length lines); [|auto].
    destruct (get lines i) as [line| |]; cbn [bind] in H; try discriminate.
    destruct (negb _); [auto|]. cbv zeta in H.
    destruct (list_item _) as [[lt content]|]; [|auto].
    pose proof (close_levels_html (indent_of line) lt stack html Hh) as H1.
    destruct (close_levels _ _ _ _) as [stack1 html1]. simpl in H1.
    pose proof (open_level_html (indent_of line) lt stack1 html1 H1) as H2.
    destruct (open_level _ _ _ _) as [stack2 html2]. simpl in H2.
    pose proof (parse_inline_html content) as Hc.
    destruct (nested_indent _ _ _ _) as [[d|]| |]; cbn [bind] in H; try discriminate.
    + destruct (parse_list_fuel f lines (i + 1) d) as [[nh ni]| |] eqn:E;
        cbn [bind] in H; try discriminate.
      apply IHp in E. eapply IHl; [|exact H].
      repeat (apply Forall_app; split); auto.
      * constructor; [|constructor].
        apply lh_app; [apply lh_item_open|now apply lh_inline].
      * constructor; [apply lh_item_close|constructor].
    + eapply IHl; [|exact H].
      apply Forall_app; split; auto. constructor; [|constructor].
      apply lh_app; [apply lh_item_open|].
      apply lh_app; [now apply lh_inline|apply lh_item_close].
Qed.

Lemma parse_list_html (lines : list str) (start b : nat) :
  list_html (fst (parse_list lines start b)).
Proof.
  pose proof (parse_list_fuel_enough lines start b _ (le_n _)) as H.
  destruct (parse_list lines start b) as [h i']. simpl.
  apply (proj1 (list_output_html _) _ _ _ _ _ H).
Qed.

Lemma block_step_html (lines : list str) (i : nat) (b : str) (i' : nat) :
  block_step lines i = Ok (Some b, i') -> block_html b.
Proof.
  unfold block_step. intros H.
  destruct (get lines i) as [line| |]; cbn [bind] in H; try discriminate.
  destruct (startswith "```" line).
  { destruct (find_fence _ _); injection H as <- _.
    - apply bh_code.
    - apply bh_literal. }
  cbv zeta in H.
  destruct (_ && _) eqn:Hh.
  { injection H as <- _.
    apply andb_true_iff in Hh. destruct Hh as [Hh _].
    apply andb_true_iff in Hh. destruct Hh as [H1 H6].
    apply Nat.leb_le in H1, H6.
    apply bh_heading; [lia|apply parse_inline_html]. }
  destruct (takes_for_list _).
  { pose proof (parse_list_html lines i (length line - length (lstrip_sp line))) as Hl.
    destruct (parse_list _ _ _) as [html j]. injection H as <- _.
    now apply bh_list. }
  destruct (nonempty (strip line)); [|discriminate].
  injection H as <- _. apply bh_para, parse_inline_html.
Qed.

Lemma block_loop_html (fuel : nat) (lines : list str) (i : nat)
  (output out : list str) :
  Forall block_html output ->
  block_loop fuel lines i output = Ok out -> Forall block_html out.
Proof.
  revert i output. induction fuel as [|f IH]; intros i output Ho H; [discriminate|].
  simpl in H. destruct (i <? length lines); [|injection H as <-; exact Ho].
  destruct (block_step lines i) as [[[b|] i']| |] eqn:E; cbn [bind] in H;
    try discriminate.
  - eapply IH; [|exact H]. apply Forall_app. split; [exact Ho|].
    constructor; [|constructor]. eapply block_step_html; eauto.
  - eapply IH; eauto.
Qed.

(** C2. Whatever [parse_markdown] returns is a sequence of blocks joined
    by line feeds; every block, list fragment and inline fragment is made
    of the constructs' own tags and of text that went through [escape]
    with [quote] true: the content of paragraphs, headings, items, code
    spans and code blocks, and the two attribute values ([href] and the
    [class] of a code block).  Escaped text is the entities of its
    characters, and holds none of [<], [>] and the two quote characters. *)
Theorem output_is_escaped (fuel : nat) (markdown out : str) :
  parse_markdown_fuel fuel markdown = Ok out ->
  doc_html out
  /\ (forall text, inline_html (parse_inline text))
  /\ (forall s, escape s true = flat_map entity s)
  /\ (forall s x, In x (escape s true) ->
        x <> "<"%char /\ x <> ">"%char /\ x <> dquote /\ x <> squote).
Proof.
  intros H. split; [|split; [apply parse_inline_html|split;
                              [apply escape_entities|apply escape_chars]]].
  unfold parse_markdown_fuel in H. destruct (_ || _).
  - injection H as <-. exists []. split; [constructor|reflexivity].
  - destruct (block_loop fuel (splitlines markdown) 0 []) as [blocks| |] eqn:E;
      cbn [bind] in H; try discriminate.
    injection H as <-. exists blocks. split; [|reflexivity].
    eapply block_loop_html; [|exact E]. constructor.
Qed.

Lemma output_is_escaped_witness :
  parse_markdown_fuel 2 "<b>x</b> & [q](u'v)"
  = Ok (lit "<p>&lt;b&gt;x&lt;/b&gt; &amp; <a href=" ++ [dquote] ++ "u&#x27;v"
          ++ [dquote] ++ ">q</a></p>")
  /\ doc_html ("<p>&lt;b&gt;x&lt;/b&gt; &amp; <a href=" ++ [dquote] ++ "u&#x27;v"
                 ++ [dquote] ++ ">q</a></p>").
Proof.
  assert (H : parse_markdown_fuel 2 "<b>x</b> & [q](u'v)"
              = Ok (lit "<p>&lt;b&gt;x&lt;/b&gt; &amp; <a href=" ++ [dquote] ++ "u&#x27;v"
                      ++ [dquote] ++ ">q</a></p>")) by reflexivity.
  split; [exact H|]. exact (proj1 (output_is_escaped _ _ _ H)).
Defined.

(** ** No error is raised *)



Lemma block_step_ok (lines : list str) (i : nat) :
  i < length lines -> exists r, block_step lines i = Ok r.
Proof.
  intros Hi. unfold block_step.
  destruct (get_lt lines i Hi) as (line & Hg & _). rewrite Hg. cbn [bind].
  destruct (startswith "```" line); [destruct (find_fence _ _); eauto|].
  cbv zeta. destruct (_ && _); [eauto|].
  destruct (takes_for_list _); [destruct (parse_list _ _ _); eauto|].
  destruct (nonempty _); eauto.
Qed.




(** ** The block loop *)

Lemma block_loop_mono (f f' : nat) (lines : list str) (i : nat) (output : list str) :
  f <= f' -> le_res (block_loop f lines i output) (block_loop f' lines i output).
Proof.
  revert f' i output. induction f as [|f IH]; intros f' i output Hf; [left; reflexivity|].
  destruct f' as [|f']; [lia|]. simpl. le_res_tac. apply IH. lia.
Qed.

(** The result does not depend on the fuel, once there is enough of it. *)
Lemma parse_markdown_fuel_det (f f' : nat) (markdown a b : str) :
  parse_markdown_fuel f markdown = Ok a ->
  parse_markdown_fuel f' markdown = Ok b -> a = b.
Proof.
  assert (Hm : forall g g', g <= g' ->
            le_res (parse_markdown_fuel g markdown) (parse_markdown_fuel g' markdown)).
  { intros g g' Hg. unfold parse_markdown_fuel. le_res_tac. now apply block_loop_mono. }
  intros Ha Hb.
  apply (le_res_ok _ _ _ (Hm f (max f f') (Nat.le_max_l _ _))) in Ha.
  apply (le_res_ok _ _ _ (Hm f' (max f f') (Nat.le_max_r _ _))) in Hb.
  congruence.
Qed.

Lemma find_fence_spec (ls : list str) (j k : nat) :
  find_fence ls j = Some k ->
  j <= k
  /\ (exists l, nth_error ls (k - j) = Some l /\ startswith "```" l = true)
  /\ (forall m l, m < k - j -> nth_error ls m = Some l -> startswith "```" l = false).
Proof.
  revert j. induction ls as [|x ls IH]; intros j H; cbn [find_fence] in H;
    [discriminate|].
  destruct (startswith "```" x) eqn:E.
  - injection H as <-. rewrite Nat.sub_diag. split; [lia|]. split.
    + exists x. split; [reflexivity|exact E].
    + intros m l Hm. lia.
  - apply IH in H. destruct H as (Hle & (l & Hl & Hs) & Hmin).
    replace (k - j) with (S (k - S j)) by lia. split; [lia|]. split.
    + exists l. split; [exact Hl|exact Hs].
    + intros [|m] l' Hm Hn; simpl in Hn.
      * injection Hn as <-. exact E.
      * apply (Hmin m l'); [lia|exact Hn].
Qed.

(** A turn of the block loop moves the cursor forward, except on a line
    that the loop takes for a list line and [parse_list] does not: there
    the turn appends an empty block and the cursor stays. *)
Lemma block_step_advances (lines : list str) (i : nat) (r : option str * nat) :
  block_step lines i = Ok r ->
  i < snd r
  \/ (r = (Some [], i)
      /\ exists line, nth_error lines i = Some line
                      /\ takes_for_list (lstrip_sp line) = true
                      /\ list_item (lstrip_sp line) = None).
Proof.
  unfold block_step. intros H. unfold get in H.
  destruct (nth_error lines i) as [line|] eqn:Hn; cbn [bind] in H; [|discriminate].
  destruct (startswith "```" line).
  { destruct (find_fence _ _) as [j|] eqn:Hf; injection H as <-; left; simpl; [|lia].
    apply find_fence_spec in Hf. lia. }
  cbv zeta in H. destruct (_ && _); [injection H as <-; left; simpl; lia|].
  destruct (takes_for_list _) eqn:Ht.
  { destruct (list_item (lstrip_sp line)) as [[lt content]|] eqn:Hit.
    - pose proof (parse_list_on_item lines i (length line - length (lstrip_sp line))
                    line lt content Hn Hit) as [_ Hadv].
      destruct (parse_list _ _ _) as [html j]. injection H as <-. left. exact Hadv.
    - right. rewrite parse_list_unfold, list_run_stop in H.
      + injection H as <-. split; [reflexivity|eauto].
      + right. eauto. }
  destruct (nonempty (strip line)); injection H as <-; left; simpl; lia.
Qed.

(** Where every turn moves the cursor forward, the block loop ends within
    one turn per line. *)
Lemma block_loop_returns (lines : list str) (k i : nat) (output : list str) :
  (forall j r, i <= j -> block_step lines j = Ok r -> j < snd r) ->
  length lines - i <= k ->
  exists out, block_loop (S k) lines i output = Ok out.
Proof.
  revert i output. induction k as [|k IH]; intros i output Hadv Hk.
  - simpl. destruct (i <? length lines) eqn:Hi; [|eauto].
    apply Nat.ltb_lt in Hi. lia.
  - cbn [block_loop]. destruct (i <? length lines) eqn:Hi; [|eauto].
    apply Nat.ltb_lt in Hi. destruct (block_step_ok lines i Hi) as [[b i'] Hr].
    rewrite Hr. cbn [bind]. specialize (Hadv i (b, i') (le_n _) Hr) as Hlt.
    simpl in Hlt. apply IH; [|lia].
    intros j r Hj. apply Hadv. lia.
Qed.

(** [parse_markdown] returns on every input whose lines are list items
    whenever the block loop takes them for list lines. *)
Lemma parse_markdown_returns (markdown : str) :
  (forall line, In line (splitlines markdown) ->
     takes_for_list (lstrip_sp line) = true ->
     is_list_line (lstrip_sp line) = true) ->
  exists out,
    parse_markdown_fuel (S (length (splitlines markdown))) markdown = Ok out.
Proof.
  intros Hok. unfold parse_markdown_fuel. destruct (_ || _); [eauto|].
  destruct (block_loop_returns (splitlines markdown) (length (splitlines markdown)) 0 [])
    as [out Hout]; [|lia|rewrite Hout; cbn [bind]; eauto].
  intros j r _ Hr.
  destruct (block_step_advances _ _ _ Hr) as [Hlt|(_ & line & Hn & Ht & Hit)];
    [exact Hlt|exfalso].
  apply Hok in Ht; [|eapply nth_error_In; eauto].
  rewrite is_list_line_item, Hit in Ht. discriminate.
Qed.

(** C3. On the one-line input [3.14] the block loop takes the list branch
    (the line starts with a digit and holds a dot), [parse_list] stops at
    once on the line, which is no list item, and returns the index it was
    given: the turn appends an empty block and leaves the cursor where it
    was, and the loop does not end with any fuel. *)
Theorem numeric_line_never_returns :
  block_step (strs ["3.14"]) 0 = Ok (Some [], 0)
  /\ parse_list (strs ["3.14"]) 0 0 = ([], 0)
  /\ is_list_line "3.14" = false
  /\ forall fuel, parse_markdown_fuel fuel "3.14" = OutOfFuel.
Proof.
  split; [reflexivity|]. split; [reflexivity|]. split; [reflexivity|].
  intros fuel. unfold parse_markdown_fuel.
  change (negb (nonempty (lit "3.14")) || negb (nonempty (strip "3.14"))) with false.
  change (splitlines "3.14") with (strs ["3.14"]). cbv iota.
  assert (H : forall output, block_loop fuel (strs ["3.14"]) 0 output = OutOfFuel).
  { induction fuel as [|f IH]; intros output; [reflexivity|].
    simpl block_loop. change (block_step (strs ["3.14"]) 0) with (@Ok (option str * nat) (Some [], 0)).
    cbn [bind]. apply IH. }
  now rewrite H.
Qed.

(** ** The nested list of the specification's fifth scenario *)

(** C8, as the specification states it, has the fragment with a space
    between [c] and the nested list.  The third line is [- c], with no
    space after [c], and the output holds no such fragment. *)
Lemma nested_fragment_has_no_space :
  parse_markdown_fuel 2 nested_input = Ok nested_output
  /\ count "<li>" nested_output = 5
  /\ contains "<li>c <ul><li>nested1</li><li>nested2</li></ul></li>" nested_output
     = false.
Proof. repeat split; reflexivity. Qed.

(** C8, amended. The output for the five lines holds five item elements
    and the fragment without the space; with a space after [c] in the third
    line the item text keeps it and the fragment is the one the
    specification gives. *)
Theorem nested_fragment :
  (forall fuel out,
     parse_markdown_fuel fuel nested_input = Ok out ->
     count "<li>" out = 5
     /\ contains "<li>c<ul><li>nested1</li><li>nested2</li></ul></li>" out = true)
  /\ (forall fuel out,
     parse_markdown_fuel fuel nested_input_spaced = Ok out ->
     count "<li>" out = 5
     /\ contains "<li>c <ul><li>nested1</li><li>nested2</li></ul></li>" out = true)
  /\ parse_markdown_fuel 2 nested_input = Ok nested_output.
Proof.
  split; [|split; [|reflexivity]].
  - intros fuel out H.
    assert (E : parse_markdown_fuel 2 nested_input = Ok nested_output) by reflexivity.
    rewrite (parse_markdown_fuel_det _ _ _ _ _ H E). split; reflexivity.
  - intros fuel out H.
    assert (E : parse_markdown_fuel 2 nested_input_spaced
                = Ok (lit "<ul><li>a</li><li>b</li><li>c <ul><li>nested1</li><li>nested2</li></ul></li></ul>"))
      by reflexivity.
    rewrite (parse_markdown_fuel_det _ _ _ _ _ H E). split; reflexivity.
Qed.

Lemma nested_fragment_witness :
  count "<li>" nested_output = 5
  /\ contains "<li>c<ul><li>nested1</li><li>nested2</li></ul></li>" nested_output = true.
Proof.
  destruct nested_fragment as (H & _ & _).
  exact (H 2 nested_output eq_refl).
Defined.

(** ** The tests of the repository, run on the model *)

Example test_empty_input :
  parse_markdown_fuel 1 [] = Ok []
  /\ parse_markdown_fuel 1 ("   " ++ nl ++ "  ") = Ok [].
Proof. split; reflexivity. Qed.

Example test_headings :
  parse_markdown_fuel 7
    ("# H1" ++ nl ++ "## H2 ##" ++ nl ++ "### H3 ###" ++ nl ++ "#### H4" ++ nl
       ++ "##### H5" ++ nl ++ "###### H6")
  = Ok ("<h1>H1</h1>" ++ nl ++ "<h2>H2</h2>" ++ nl ++ "<h3>H3</h3>" ++ nl
          ++ "<h4>H4</h4>" ++ nl ++ "<h5>H5</h5>" ++ nl ++ "<h6>H6</h6>").
Proof. reflexivity. Qed.

Example test_paragraph_merging :
  parse_markdown_fuel 5 ("Line one" ++ nl ++ "Line two" ++ nl ++ nl ++ "Line three")
  = Ok ("<p>Line one Line two</p>" ++ nl ++ "<p>Line three</p>").
Proof. reflexivity. Qed.

Example test_bold_and_italic :
  parse_markdown_fuel 2 "**bold** *italic* __bold2__ _italic2_"
  = Ok (lit "<p><strong>bold</strong> <em>italic</em> <strong>bold2</strong> <em>italic2</em></p>").
Proof. reflexivity. Qed.

Example test_unclosed_formatting_literal :
  parse_markdown_fuel 2 "**bold *italic" = Ok (lit "<p>**bold *italic</p>").
Proof. reflexivity. Qed.

Example test_inline_code :
  parse_markdown_fuel 2 "`<script>`" = Ok (lit "<p><code>&lt;script&gt;</code></p>").
Proof. reflexivity. Qed.

Example test_code_block_no_parsing :
  let markdown := "```python" ++ nl ++ "**not bold**" ++ nl ++ "<script>" ++ nl ++ "```" in
  output_has 2 markdown "<strong>" = false
  /\ output_has 2 markdown "&lt;script&gt;" = true.
Proof. split; reflexivity. Qed.

Example test_unclosed_code_block_literal :
  let markdown := "```python" ++ nl ++ "**not bold**" in
  output_has 3 markdown "<pre><code" = false
  /\ output_has 3 markdown "```" = true
  /\ output_has 3 markdown "<p>" = true.
Proof. repeat split; reflexivity. Qed.

Example test_safe_link :
  parse_markdown_fuel 2 "[ok](https://example.com)"
  = Ok ("<p><a href=" ++ [dquote] ++ "https://example.com" ++ [dquote] ++ ">ok</a></p>").
Proof. reflexivity. Qed.

Example test_block_javascript_link :
  output_has 2 "[bad](javascript:alert(1))" "<a" = false
  /\ output_has 2 "[bad](javascript:alert(1))" "bad" = true.
Proof. split; reflexivity. Qed.

Example test_unordered_list_with_nested :
  parse_markdown_fuel 2 nested_input_spaced
  = Ok (lit "<ul><li>a</li><li>b</li><li>c <ul><li>nested1</li><li>nested2</li></ul></li></ul>").
Proof. reflexivity. Qed.

Example test_ordered_list_with_nested :
  parse_markdown_fuel 2
    ("1. a" ++ nl ++ "2. b" ++ nl ++ "3. c " ++ nl ++ "   1. nested1" ++ nl
       ++ "   2. nested2")
  = Ok (lit "<ol><li>a</li><li>b</li><li>c <ol><li>nested1</li><li>nested2</li></ol></li></ol>").
Proof. reflexivity. Qed.

Example test_list_type_change_at_same_indent :
  parse_markdown_fuel 2 ("- a" ++ nl ++ "1. b")
  = Ok (lit "<ul><li>a</li></ul><ol><li>b</li></ol>").
Proof. reflexivity. Qed.

Example test_ordered_unordered_list :
  parse_markdown_fuel 2
    ("1. a" ++ nl ++ "2. b" ++ nl ++ "3. c " ++ nl ++ "   - nested1" ++ nl
       ++ "   - nested2")
  = Ok (lit "<ol><li>a</li><li>b</li><li>c <ul><li>nested1</li><li>nested2</li></ul></li></ol>").
Proof. reflexivity. Qed.

Example test_horizontal_rule_not_implemented :
  parse_markdown_fuel 6 ("before" ++ nl ++ nl ++ "---" ++ nl ++ nl ++ "after")
  = Ok ("<p>before</p>" ++ nl ++ "<p>---</p>" ++ nl ++ "<p>after</p>")
  /\ parse_markdown_fuel 6 ("before" ++ nl ++ nl ++ "***" ++ nl ++ nl ++ "after")
     = Ok ("<p>before</p>" ++ nl ++ "<p>***</p>" ++ nl ++ "<p>after</p>")
  /\ parse_markdown_fuel 6 ("before" ++ nl ++ nl ++ "___" ++ nl ++ nl ++ "after")
     = Ok ("<p>before</p>" ++ nl ++ "<p>___</p>" ++ nl ++ "<p>after</p>").
Proof. repeat split; reflexivity. Qed.

Example test_html_escaping :
  parse_markdown_fuel 2 "<b>x</b>" = Ok (lit "<p>&lt;b&gt;x&lt;/b&gt;</p>").
Proof. reflexivity. Qed.

Example test_inline_formatting :
  parse_markdown_fuel 2
    "*italic **bold inside italic** more italic* and **bold *italic inside bold* more bold**"
  = Ok (lit "<p><em>italic <strong>bold inside italic</strong> more italic</em> and <strong>bold <em>italic inside bold</em> more bold</strong></p>").
Proof. reflexivity. Qed.

Example test_inline_format_in_paragraph :
  parse_markdown_fuel 2 "This is a paragraph with **bold** and *italic* text."
  = Ok (lit "<p>This is a paragraph with <strong>bold</strong> and <em>italic</em> text.</p>").
Proof. reflexivity. Qed.

(** * Further properties *)

(** ** The inline scan looks forward only *)

Lemma find_from_shift (sub s : str) (m k : nat) :
  find_from sub s (m + k) = option_map (Nat.add m) (find_from sub s k).
Proof.
  revert k. induction s as [|c s IH]; intros k; simpl.
  - destruct (startswith sub []); reflexivity.
  - destruct (startswith sub (c :: s)); [reflexivity|].
    rewrite <- IH. f_equal. lia.
Qed.

Lemma find_shift (sub a b : str) (k : nat) :
  find sub (a ++ b) (length a + k) = option_map (Nat.add (length a)) (find sub b k).
Proof.
  unfold find. now rewrite skipn_app_exact, find_from_shift.
Qed.

Lemma nth_error_shift {A} (a b : list A) (k : nat) :
  nth_error (a ++ b) (length a + k) = nth_error b k.
Proof.
  rewrite nth_error_app2 by lia. f_equal. lia.
Qed.

Lemma char_is_shift (a b : str) (k : nat) (c : ascii) :
  char_is (a ++ b) (length a + k) c = char_is b k c.
Proof. unfold char_is. now rewrite nth_error_shift. Qed.

Lemma startswith_at_shift (sub a b : str) (k : nat) :
  startswith_at sub (a ++ b) (length a + k) = startswith_at sub b k.
Proof. unfold startswith_at. now rewrite skipn_app_exact. Qed.

Lemma slice_shift {A} (a b : list A) (x y : nat) :
  slice (a ++ b) (length a + x) (length a + y) = slice b x y.
Proof.
  unfold slice. rewrite skipn_app_exact. f_equal. lia.
Qed.

Lemma ltb_shift (a b : str) (k : nat) :
  (length a + k <? length (a ++ b)) = (k <? length b).
Proof.
  rewrite length_app. destruct (k <? length b) eqn:E.
  - apply Nat.ltb_lt in E. apply Nat.ltb_lt. lia.
  - apply Nat.ltb_ge in E. apply Nat.ltb_ge. lia.
Qed.

Lemma em_scan_shift (f : nat) (a b : str) (ch : ascii) (e : nat) :
  em_scan f (a ++ b) ch (length a + e) = shift_scan (length a) (em_scan f b ch e).
Proof.
  revert e. induction f as [|f IH]; intros e; [reflexivity|].
  simpl. rewrite find_shift. destruct (find [ch] b e) as [e'|]; simpl; [|reflexivity].
  rewrite <- !Nat.add_assoc, ltb_shift, char_is_shift.
  destruct (negb _); [reflexivity|]. apply IH.
Qed.

Lemma inline_step_shift (f : nat) (a b : str) (j : nat) :
  inline_step f (a ++ b) (length a + j) = shift_step (length a) (inline_step f b j).
Proof.
  destruct f as [|f]; [reflexivity|].
  rewrite !inline_step_S. unfold get. rewrite nth_error_shift.
  destruct (nth_error b j) as [ch|]; [|reflexivity]. cbn [bind shift_step].
  rewrite <- !Nat.add_assoc, !startswith_at_shift, !find_shift, !slice_shift,
    ltb_shift, char_is_shift, em_scan_shift.
  destruct (Ascii.eqb ch "`").
  { destruct (find "`" b (j + 1)); simpl; [|reflexivity].
    now rewrite <- !Nat.add_assoc, slice_shift. }
  destruct (_ || _).
  { cbv zeta. destruct (find _ b (j + 2)); simpl; [|reflexivity].
    rewrite <- !Nat.add_assoc, slice_shift.
    destruct (parse_inline_fuel _ _); reflexivity. }
  destruct (_ || _).
  { destruct (_ && _); [reflexivity|].
    destruct (em_scan f b ch (j + 1)) as [[e|]| |]; simpl; try reflexivity.
    rewrite <- !Nat.add_assoc, slice_shift.
    destruct (parse_inline_fuel _ _); reflexivity. }
  destruct (Ascii.eqb ch "["); [|reflexivity].
  destruct (find "]" b (j + 1)) as [cb|]; simpl; [|reflexivity].
  rewrite <- !Nat.add_assoc, ltb_shift, char_is_shift, find_shift.
  destruct (_ && _); [|reflexivity].
  destruct (find ")" b (cb + 2)) as [cp|]; simpl; [|reflexivity].
  rewrite <- !Nat.add_assoc, !slice_shift. cbv zeta.
  destruct (negb _); destruct (parse_inline_fuel _ _); reflexivity.
Qed.

Lemma inline_loop_shift (f : nat) (a b : str) (j : nat) (result : list str) :
  inline_loop f (a ++ b) (length a + j) result = inline_loop f b j result.
Proof.
  revert j result. induction f as [|f IH]; intros j result; [reflexivity|].
  rewrite !inline_loop_S, ltb_shift, inline_step_shift.
  destruct (j <? length b); [|reflexivity].
  destruct (inline_step f b j) as [[p j']| |]; simpl; try reflexivity.
  apply IH.
Qed.

Lemma inline_from_shift (a b : str) (j : nat) :
  inline_from (a ++ b) (length a + j) = inline_from b j.
Proof.
  unfold inline_from. rewrite inline_loop_shift, length_app.
  replace (length a + length b - (length a + j)) with (length b - j) by lia.
  reflexivity.
Qed.

Lemma inline_from_after (a rest : str) (n : nat) :
  n = length a -> inline_from (a ++ rest) n = inline_from rest 0.
Proof.
  intros ->. rewrite <- (Nat.add_0_r (length a)). apply inline_from_shift.
Qed.

Lemma too_long_tail (a b : str) : too_long (a ++ b) = false -> too_long b = false.
Proof.
  unfold too_long. rewrite length_app. intros H.
  apply N.ltb_ge in H. apply N.ltb_ge. lia.
Qed.

Lemma too_long_head (a b : str) : too_long (a ++ b) = false -> too_long a = false.
Proof.
  unfold too_long. rewrite length_app. intros H.
  apply N.ltb_ge in H. apply N.ltb_ge. lia.
Qed.

Lemma parse_inline_from (text : str) :
  too_long text = false -> parse_inline text = inline_from text 0.
Proof. intros H. now rewrite parse_inline_unfold, H. Qed.

(** The first turn of the loop and the output for the text after it. *)
Lemma inline_head (text a rest : str) (p : str) :
  text = a ++ rest -> a <> [] ->
  inline_piece text 0 = (p, length a) ->
  inline_from text 0 = p ++ inline_from rest 0.
Proof.
  intros -> Ha Hp. rewrite inline_from_step.
  - rewrite Hp. cbn [fst snd]. f_equal. now apply inline_from_after.
  - rewrite length_app. destruct a; [contradiction|simpl; lia].
Qed.

Lemma find_from_first (c : ascii) (s r : str) (k : nat) :
  ~ In c s -> find_from [c] (s ++ c :: r) k = Some (k + length s).
Proof.
  revert k. induction s as [|x s IH]; intros k Hn; simpl.
  - rewrite Ascii.eqb_refl. simpl. f_equal. lia.
  - destruct (Ascii.eqb c x) eqn:E.
    + apply Ascii.eqb_eq in E. subst. exfalso. apply Hn. now left.
    + simpl. rewrite IH by (intros H; apply Hn; now right). f_equal. lia.
Qed.

Lemma find_from_none (c : ascii) (s : str) (k : nat) :
  ~ In c s -> find_from [c] s k = None.
Proof.
  revert k. induction s as [|x s IH]; intros k Hn; simpl; [reflexivity|].
  destruct (Ascii.eqb c x) eqn:E.
  - apply Ascii.eqb_eq in E. subst. exfalso. apply Hn. now left.
  - simpl. apply IH. intros H. apply Hn. now right.
Qed.

Lemma find_from_pair_first (d : ascii) (s r : str) (k : nat) :
  ~ In d s -> find_from [d; d] (s ++ d :: d :: r) k = Some (k + length s).
Proof.
  revert k. induction s as [|x s IH]; intros k Hn; simpl.
  - rewrite Ascii.eqb_refl. simpl. f_equal. lia.
  - destruct (Ascii.eqb d x) eqn:E.
    + apply Ascii.eqb_eq in E. subst. exfalso. apply Hn. now left.
    + simpl. rewrite IH by (intros H; apply Hn; now right). f_equal. lia.
Qed.

Lemma firstn_app_exact {A} (a b : list A) : firstn (length a) (a ++ b) = a.
Proof.
  rewrite firstn_app, Nat.sub_diag, firstn_all. simpl. apply app_nil_r.
Qed.

Lemma escape_app (a b : str) : escape (a ++ b) true = escape a true ++ escape b true.
Proof. rewrite !escape_entities. apply flat_map_app. Qed.

Lemma plain_head (c : ascii) (t : str) :
  plain_char c -> inline_from (c :: t) 0 = escape [c] true ++ inline_from t 0.
Proof.
  intros (H1 & H2 & H3).
  apply (inline_head (c :: t) [c] t); [reflexivity|discriminate|].
  apply (piece_default (c :: t) 0 c eq_refl H1 H2 H3).
Qed.

Lemma plain_prefix (p rest : str) :
  plain_text p -> inline_from (p ++ rest) 0 = escape p true ++ inline_from rest 0.
Proof.
  induction 1 as [|c p Hc _ IH]; [reflexivity|].
  cbn [app]. rewrite (plain_head c _ Hc), IH.
  change (c :: p) with ([c] ++ p). now rewrite escape_app, <- app_assoc.
Qed.

(** X1. Text that holds no backtick, [*], [_] or [[] is escaped and
    nothing else, whatever its length. *)
Theorem plain_text_is_escaped (s : str) :
  plain_text s -> parse_inline s = escape s true.
Proof.
  intros H. rewrite parse_inline_unfold. destruct (too_long s); [reflexivity|].
  rewrite <- (app_nil_r s) at 1. rewrite (plain_prefix s [] H).
  rewrite inline_from_end by (simpl; lia). apply app_nil_r.
Qed.

Lemma plain_text_is_escaped_witness :
  parse_inline "a < b & c" = "a &lt; b &amp; c".
Proof.
  rewrite plain_text_is_escaped; [reflexivity|].
  repeat constructor; try discriminate; intros [E|E]; discriminate.
Defined.

(** X2. The output for a text that starts with plain text is the escaped
    plain text followed by the output for the rest: the formatter never
    looks back over what it has read. *)
Theorem plain_prefix_then_rest (p rest : str) :
  plain_text p -> too_long (p ++ rest) = false ->
  parse_inline (p ++ rest) = escape p true ++ parse_inline rest.
Proof.
  intros Hp Hl.
  rewrite (parse_inline_from _ Hl), (parse_inline_from _ (too_long_tail p rest Hl)).
  now apply plain_prefix.
Qed.

Lemma plain_prefix_then_rest_witness :
  parse_inline "1 < 2 **x**" = "1 &lt; 2 " ++ parse_inline "**x**".
Proof.
  apply (plain_prefix_then_rest "1 < 2 " "**x**"); [|reflexivity].
  repeat constructor; try discriminate; intros [E|E]; discriminate.
Defined.

(** ** Closed spans, from the text to the output *)

Lemma find_char_after (c : ascii) (a s r : str) :
  ~ In c s ->
  find [c] (a ++ s ++ c :: r) (length a) = Some (length a + length s).
Proof.
  intros H. rewrite <- (Nat.add_0_r (length a)) at 1. rewrite find_shift.
  unfold find. cbn [skipn]. rewrite (find_from_first c s r 0 H). reflexivity.
Qed.

Lemma find_pair_after (d : ascii) (a s r : str) :
  ~ In d s ->
  find [d; d] (a ++ s ++ d :: d :: r) (length a) = Some (length a + length s).
Proof.
  intros H. rewrite <- (Nat.add_0_r (length a)) at 1. rewrite find_shift.
  unfold find. cbn [skipn]. rewrite (find_from_pair_first d s r 0 H). reflexivity.
Qed.

Lemma slice_middle {A} (a s r : list A) :
  slice (a ++ s ++ r) (length a) (length a + length s) = s.
Proof.
  unfold slice. pose proof (skipn_app_exact a (s ++ r) 0) as H.
  rewrite Nat.add_0_r in H. cbn [skipn] in H. rewrite H.
  replace (length a + length s - length a) with (length s) by lia.
  apply firstn_app_exact.
Qed.

(** X3. A code span: the text between two backticks, with no backtick in
    it, is escaped and not formatted, and the formatter goes on after the
    closing backtick. *)
Theorem code_span (s rest : str) :
  ~ In "`"%char s ->
  too_long ("`" ++ s ++ "`" ++ rest) = false ->
  parse_inline ("`" ++ s ++ "`" ++ rest)
  = "<code>" ++ escape s true ++ "</code>" ++ parse_inline rest.
Proof.
  intros Hs Hl. change (lit "`") with ["`"%char] in *.
  rewrite (parse_inline_from _ Hl).
  assert (Hr : too_long rest = false).
  { apply (too_long_tail (["`"%char] ++ s ++ ["`"%char])). now rewrite <- !app_assoc. }
  rewrite (parse_inline_from _ Hr).
  rewrite (inline_head _ (["`"%char] ++ s ++ ["`"%char]) rest
             ("<code>" ++ escape s true ++ "</code>")).
  - now rewrite <- !app_assoc.
  - now rewrite <- !app_assoc.
  - discriminate.
  - pose proof (find_char_after "`" ["`"%char] s rest Hs) as Hf.
    pose proof (slice_middle ["`"%char] s ("`"%char :: rest)) as Hsl.
    cbn [length] in Hf, Hsl.
    rewrite (piece_code_closed (["`"%char] ++ s ++ ["`"%char] ++ rest) 0
               (1 + length s) eq_refl Hf).
    f_equal; [f_equal; f_equal; f_equal; exact Hsl|].
    rewrite !length_app. simpl. lia.
Qed.

Lemma code_span_witness :
  parse_inline "`<b>*x*` *y*" = "<code>&lt;b&gt;*x*</code>" ++ parse_inline " *y*".
Proof.
  apply (code_span "<b>*x*" " *y*"); [|reflexivity].
  intros H. repeat (destruct H as [H|H]; [discriminate|]). exact H.
Defined.

(** X4. A strong span: text between two [**] or two [__], with no such
    delimiter character in it, is formatted on its own and wrapped in
    [strong], and the formatter goes on after the closing delimiter. *)
Theorem strong_span (d : ascii) (s rest : str) :
  is_emph d -> ~ In d s ->
  too_long ([d; d] ++ s ++ [d; d] ++ rest) = false ->
  parse_inline ([d; d] ++ s ++ [d; d] ++ rest)
  = "<strong>" ++ parse_inline s ++ "</strong>" ++ parse_inline rest.
Proof.
  intros Hd Hs Hl. rewrite (parse_inline_from _ Hl).
  assert (Hr : too_long rest = false).
  { apply (too_long_tail ([d; d] ++ s ++ [d; d])). now rewrite <- !app_assoc. }
  rewrite (parse_inline_from _ Hr).
  rewrite (inline_head _ ([d; d] ++ s ++ [d; d]) rest
             ("<strong>" ++ parse_inline s ++ "</strong>")).
  - now rewrite <- !app_assoc.
  - now rewrite <- !app_assoc.
  - discriminate.
  - pose proof (find_pair_after d [d; d] s rest Hs) as Hf.
    pose proof (slice_middle [d; d] s (d :: d :: rest)) as Hsl.
    cbn [length] in Hf, Hsl.
    assert (Hst : startswith_at [d; d] ([d; d] ++ s ++ [d; d] ++ rest) 0 = true).
    { unfold startswith_at. cbn [skipn app startswith]. now rewrite Ascii.eqb_refl. }
    rewrite (piece_strong_closed ([d; d] ++ s ++ [d; d] ++ rest) 0
               (2 + length s) d Hd Hst Hf).
    f_equal; [f_equal; f_equal; f_equal; exact Hsl|].
    rewrite !length_app. simpl. lia.
Qed.

Lemma strong_span_witness :
  parse_inline "**a _b_** c" = "<strong>" ++ parse_inline "a _b_" ++ "</strong>" ++ parse_inline " c".
Proof.
  apply (strong_span "*" "a _b_" " c"); [now left| |reflexivity].
  intros H. repeat (destruct H as [H|H]; [discriminate|]). exact H.
Defined.

(** X5. An emphasis span: a single [*] or [_], text with no such character
    in it (and not empty), the same character again and then something that
    does not start with it: the text between is formatted on its own and
    wrapped in [em]. *)
Theorem em_span (d : ascii) (s rest : str) :
  is_emph d -> s <> [] -> ~ In d s -> hd_error rest <> Some d ->
  too_long ([d] ++ s ++ [d] ++ rest) = false ->
  parse_inline ([d] ++ s ++ [d] ++ rest)
  = "<em>" ++ parse_inline s ++ "</em>" ++ parse_inline rest.
Proof.
  intros Hd Hne Hs Hrest Hl. rewrite (parse_inline_from _ Hl).
  assert (Hr : too_long rest = false).
  { apply (too_long_tail ([d] ++ s ++ [d])). now rewrite <- !app_assoc. }
  rewrite (parse_inline_from _ Hr).
  rewrite (inline_head _ ([d] ++ s ++ [d]) rest
             ("<em>" ++ parse_inline s ++ "</em>")).
  - now rewrite <- !app_assoc.
  - now rewrite <- !app_assoc.
  - discriminate.
  - pose proof (slice_middle [d] s (d :: rest)) as Hsl. cbn [length] in Hsl.
    assert (Hc : char_is ([d] ++ s ++ [d] ++ rest) (0 + 1) d = false).
    { destruct s as [|c s']; [contradiction|]. unfold char_is. cbn.
      apply Ascii.eqb_neq. intros ->. apply Hs. now left. }
    assert (He : em_close ([d] ++ s ++ [d] ++ rest) d (0 + 1) = Some (1 + length s)).
    { apply (em_close_complete _ d 1 s rest); [reflexivity| |exact Hrest].
      apply skips_all_other, Forall_forall. intros x Hx ->. contradiction. }
    rewrite (piece_em_closed ([d] ++ s ++ [d] ++ rest) 0
               (1 + length s) d Hd eq_refl Hc He).
    f_equal; [f_equal; f_equal; f_equal; exact Hsl|].
    rewrite !length_app. simpl. lia.
Qed.

Lemma em_span_witness :
  parse_inline "_a **b**_ c"
  = "<em>" ++ parse_inline "a **b**" ++ "</em>" ++ parse_inline " c".
Proof.
  apply (em_span "_" "a **b**" " c"); [now right|discriminate| | |reflexivity].
  - intros H. repeat (destruct H as [H|H]; [discriminate|]). exact H.
  - discriminate.
Defined.

Lemma link_parts (label url rest : str) :
  ~ In "]"%char label -> ~ In ")"%char url ->
  let text := "[" ++ label ++ "](" ++ url ++ ")" ++ rest in
  let cb := 1 + length label in
  let cp := cb + 2 + length url in
  find "]" text (0 + 1) = Some cb
  /\ char_is text (cb + 1) "(" = true
  /\ find ")" text (cb + 2) = Some cp
  /\ slice text (cb + 2) cp = url
  /\ slice text (0 + 1) cb = label
  /\ text = ("[" ++ label ++ "](" ++ url ++ ")") ++ rest
  /\ cp + 1 = length ("[" ++ label ++ "](" ++ url ++ ")").
Proof.
  intros Hl Hu text cb cp. subst text cb cp.
  change (lit "[") with ["["%char]. change (lit "](") with ["]"; "("]%char.
  change (lit ")") with [")"%char].
  set (a2 := ["["%char] ++ label ++ ["]"; "("]%char).
  assert (E2 : ["["%char] ++ label ++ ["]"; "("]%char ++ url ++ [")"%char] ++ rest
               = a2 ++ url ++ ")"%char :: rest).
  { unfold a2. now rewrite <- !app_assoc. }
  assert (L2 : length a2 = 1 + length label + 2).
  { unfold a2. rewrite !length_app. simpl. lia. }
  repeat split.
  - apply (find_char_after "]" ["["%char] label _ Hl).
  - replace (1 + length label + 1) with (length (["["%char] ++ label ++ ["]"%char]) + 0)
      by (rewrite !length_app; simpl; lia).
    replace (["["%char] ++ label ++ ["]"; "("]%char ++ url ++ [")"%char] ++ rest)
      with ((["["%char] ++ label ++ ["]"%char]) ++ "("%char :: url ++ [")"%char] ++ rest)
      by (now rewrite <- !app_assoc).
    rewrite char_is_shift. reflexivity.
  - rewrite E2, <- L2. apply (find_char_after ")" a2 url rest Hu).
  - rewrite E2, <- L2. apply slice_middle.
  - apply (slice_middle ["["%char] label).
  - now rewrite <- !app_assoc.
  - rewrite !length_app. simpl. lia.
Qed.

(** X6. A link [[label](url)], with no []] in the label and no [)] in the
    URL: the label is formatted on its own; it is wrapped in an anchor whose
    [href] is the stripped, escaped URL, unless that URL, lowered, starts
    with [javascript:], in which case the label stands alone.  The formatter
    goes on after the closing parenthesis. *)
Theorem link_span (label url rest : str) :
  ~ In "]"%char label -> ~ In ")"%char url ->
  too_long ("[" ++ label ++ "](" ++ url ++ ")" ++ rest) = false ->
  parse_inline ("[" ++ label ++ "](" ++ url ++ ")" ++ rest)
  = (if startswith "javascript:" (lower (strip url))
     then parse_inline label
     else anchor (strip url) (parse_inline label))
      ++ parse_inline rest.
Proof.
  intros Hlab Hurl Hl.
  destruct (link_parts label url rest Hlab Hurl) as (Hb & Hp & Hc & Su & Sl & Ht & Hn).
  rewrite (parse_inline_from _ Hl).
  assert (Hr : too_long rest = false) by (rewrite Ht in Hl; now apply too_long_tail in Hl).
  rewrite (parse_inline_from _ Hr).
  apply (inline_head _ ("[" ++ label ++ "](" ++ url ++ ")") rest); [exact Ht|discriminate|].
  rewrite <- Hn.
  destruct (startswith "javascript:" (lower (strip url))) eqn:Hjs.
  - rewrite <- Su in Hjs.
    rewrite (piece_link_js ("[" ++ label ++ "](" ++ url ++ ")" ++ rest) 0 _ _
               eq_refl Hb Hp Hc Hjs), Sl. reflexivity.
  - rewrite <- Su in Hjs.
    rewrite (piece_link ("[" ++ label ++ "](" ++ url ++ ")" ++ rest) 0 _ _
               eq_refl Hb Hp Hc Hjs), Sl, Su. reflexivity.
Qed.

Lemma link_span_witness :
  parse_inline "[*ok*]( https://example.com/?a=1&b=2 ) and [x](JavaScript:alert(1))"
  = anchor "https://example.com/?a=1&b=2" (parse_inline "*ok*")
      ++ parse_inline " and [x](JavaScript:alert(1))"
  /\ parse_inline "[x](JavaScript:alert(1))" = parse_inline "x" ++ parse_inline ")".
Proof.
  assert (Hno : forall c s, existsb (Ascii.eqb c) s = false -> ~ In c s).
  { intros c s H Hin. assert (E : existsb (Ascii.eqb c) s = true).
    { apply existsb_exists. exists c. split; [exact Hin|apply Ascii.eqb_refl]. }
    congruence. }
  split.
  - exact (link_span "*ok*" " https://example.com/?a=1&b=2 "
             " and [x](JavaScript:alert(1))"
             (Hno "]"%char "*ok*" eq_refl)
             (Hno ")"%char " https://example.com/?a=1&b=2 " eq_refl) eq_refl).
  - exact (link_span "x" "JavaScript:alert(1" ")"
             (Hno "]"%char "x" eq_refl) (Hno ")"%char "JavaScript:alert(1" eq_refl)
             eq_refl).
Defined.

(** ** The length cap and blank input *)

(** X7. A text longer than [MAX_INLINE_CHARS] is escaped and not scanned:
    its output holds no tag at all, whatever delimiters the text has. *)
Theorem over_length_is_escaped (text : str) :
  too_long text = true ->
  parse_inline text = escape text true
  /\ ~ In "<"%char (parse_inline text)
  /\ ~ In ">"%char (parse_inline text).
Proof.
  intros H. rewrite parse_inline_unfold, H.
  repeat split; intros Hin; apply escape_chars in Hin; tauto.
Qed.

Lemma over_length_is_escaped_witness :
  parse_inline (repeat "*"%char 100001) = escape (repeat "*"%char 100001) true.
Proof.
  apply over_length_is_escaped. vm_compute. reflexivity.
Defined.

Lemma strip_blank (s : str) :
  Forall (fun c => isspace c = true) s -> strip s = [].
Proof.
  intros H. unfold strip, rstrip_by, lstrip_by.
  rewrite <- (app_nil_r s), (dropwhile_app_all isspace s [] H). reflexivity.
Qed.

(** X8. Input made of whitespace only (spaces, tabs, line breaks, or
    nothing at all) gives the empty output, with any fuel. *)
Theorem blank_input_gives_nothing (fuel : nat) (markdown : str) :
  Forall (fun c => isspace c = true) markdown ->
  parse_markdown_fuel fuel markdown = Ok [].
Proof.
  intros H. unfold parse_markdown_fuel. rewrite (strip_blank markdown H).
  cbn [nonempty negb]. now rewrite orb_true_r.
Qed.

Lemma blank_input_gives_nothing_witness :
  parse_markdown_fuel 0 ("   " ++ nl ++ ["009"%char] ++ "  ") = Ok [].
Proof.
  apply blank_input_gives_nothing. repeat constructor.
Defined.

(** ** The list-line tests of the source *)

Lemma ordinal_at_digit (s : str) :
  ordinal_at s (digit_run s) = true ->
  exists c s', s = c :: s' /\ isdigit c = true /\ In "."%char s.
Proof.
  unfold ordinal_at. intros H.
  repeat (apply andb_true_iff in H; destruct H as [H ?]).
  apply Nat.ltb_lt in H. destruct s as [|c s']; [simpl in H; lia|].
  exists c, s'. split; [reflexivity|]. split.
  - simpl in H. destruct (isdigit c); [reflexivity|lia].
  - match goal with Hc : char_is _ _ _ = true |- _ =>
      apply char_is_nth in Hc; eapply nth_error_In; exact Hc end.
Qed.

(** X9. The test [is_list_line] of the lookahead and the marker test inside
    the loop of [parse_list] accept the same lines, and the test of the
    block loop accepts every line they accept. *)
Theorem list_line_tests (s : str) :
  (is_list_line s = true <-> exists item, list_item s = Some item)
  /\ (is_list_line s = true -> takes_for_list s = true).
Proof.
  split.
  - rewrite is_list_line_item. destruct (list_item s) as [item|].
    + split; eauto.
    + split; [discriminate|intros [item H]; discriminate].
  - unfold is_list_line, takes_for_list.
    destruct (nonempty s) eqn:Hn; cbn [negb]; [|discriminate].
    destruct (starts_bullet s); [reflexivity|]. intros H.
    apply ordinal_at_digit in H. destruct H as (c & s' & -> & Hd & Hin).
    rewrite Hd. change (lit ".") with ["."%char]. now rewrite in_contains.
Qed.

Lemma list_line_tests_witness :
  is_list_line "12. x" = true /\ takes_for_list "12. x" = true
  /\ takes_for_list "1.5 kg" = true /\ is_list_line "1.5 kg" = false.
Proof.
  destruct (list_line_tests "12. x") as [_ H].
  split; [reflexivity|]. split; [exact (H eq_refl)|]. split; reflexivity.
Defined.

(** ** What the list assembler reads *)

Lemma list_reads_items (f : nat) :
  (forall lines start b h i',
     parse_list_fuel f lines start b = Ok (h, i') ->
     forall k, start <= k < i' -> is_item_line lines k)
  /\ (forall lines i stack html h s i',
     list_loop f lines i stack html = Ok (h, s, i') ->
     forall k, i <= k < i' -> is_item_line lines k).
Proof.
  induction f as [|f (IHp & IHl)]; [split; intros; discriminate|]. split.
  - intros lines start b h i' H. rewrite parse_list_fuel_S in H.
    destruct (list_loop f lines start [] []) as [[[hh ss] ii]| |] eqn:E;
      cbn [bind] in H; try discriminate.
    injection H as _ <-. apply (IHl _ _ _ _ _ _ _ E).
  - intros lines i stack html h s i' H k Hk. rewrite list_loop_S in H.
    assert (Hsame : Ok (html, stack, i) = Ok (h, s, i') -> is_item_line lines k).
    { intros [= _ _ <-]. lia. }
    destruct (i <? length lines); [|auto].
    unfold get in H. destruct (nth_error lines i) as [line|] eqn:Hn;
      cbn [bind] in H; try discriminate.
    destruct (negb _); [auto|]. cbv zeta in H.
    destruct (list_item (lstrip_sp line)) as [[lt content]|] eqn:Hit; [|auto].
    assert (Hi : is_item_line lines i) by (exists line, (lt, content); auto).
    destruct (close_levels _ _ _ _) as [stack1 html1].
    destruct (open_level _ _ _ _) as [stack2 html2].
    destruct (nested_indent _ _ _ _) as [[d|]| |]; cbn [bind] in H; try discriminate.
    + destruct (parse_list_fuel f lines (i + 1) d) as [[nh ni]| |] eqn:E;
        cbn [bind] in H; try discriminate.
      destruct (Nat.eq_dec k i) as [->|Hne]; [exact Hi|].
      destruct (Nat.lt_ge_cases k ni) as [Hlt|Hge].
      * apply (IHp _ _ _ _ _ E). lia.
      * apply (IHl _ _ _ _ _ _ _ H). lia.
    + destruct (Nat.eq_dec k i) as [->|Hne]; [exact Hi|].
      apply (IHl _ _ _ _ _ _ _ H). lia.
Qed.

(** X10. [parse_list] reads the run of list items that starts at [start]
    and returns the index of the first line from there on that is blank,
    no list item, or past the end: every line before it is a list item,
    deeper or shallower than the first, and the index stays within the
    lines. *)
Theorem parse_list_reads_run (lines : list str) (start b : nat) :
  start <= snd (parse_list lines start b)
  /\ (forall k, start <= k < snd (parse_list lines start b) -> is_item_line lines k)
  /\ list_stops lines (snd (parse_list lines start b))
  /\ (start <= length lines -> snd (parse_list lines start b) <= length lines).
Proof.
  pose proof (parse_list_fuel_enough lines start b _ (le_n _)) as H.
  pose proof (parse_list_index_ge lines start b) as Hge.
  pose proof (parse_list_stops lines start b) as Hst.
  destruct (parse_list lines start b) as [h i']. cbn [snd] in *.
  pose proof (proj1 (list_reads_items _) _ _ _ _ _ H) as Hrun.
  repeat split; auto. intros Hs.
  destruct (Nat.eq_dec i' start) as [->|Hne]; [exact Hs|].
  destruct (Hrun (i' - 1) ltac:(lia)) as (line & item & Hn & _).
  apply nth_error_lt in Hn. lia.
Qed.

(** ** The list output is well nested *)

Lemma list_elems_app (a b : str) : list_elems a -> list_elems b -> list_elems (a ++ b).
Proof.
  induction 1 as [|t items rest Hi Hr IH]; intros Hb; [exact Hb|].
  rewrite <- !app_assoc. apply le_cons; auto.
Qed.

Lemma ltype_eqb_eq (a b : ltype) : ltype_eqb a b = true -> a = b.
Proof. destruct a, b; simpl; congruence. Qed.

Lemma open_list_close (t : ltype) (out : str) :
  open_list t out -> list_elems (out ++ close_tag t).
Proof.
  intros (L & I & -> & HL & HI). rewrite <- !app_assoc.
  apply list_elems_app; [exact HL|].
  rewrite <- (app_nil_r (close_tag t)). apply le_cons; [exact HI|apply le_nil].
Qed.

(** The stack and the fragments after the closing and opening steps of a
    turn on an item of type [lt] at [indent]. *)
Lemma list_turn_levels (lines : list str) (i : nat) (stack : list level)
  (html : list str) (line : str) (lt : ltype) (content : str) :
  list_state_ok lines i stack html ->
  nth_error lines i = Some line ->
  list_item (lstrip_sp line) = Some (lt, content) ->
  let '(stack1, html1) := close_levels (indent_of line) lt stack html in
  let '(stack2, html2) := open_level (indent_of line) lt stack1 html1 in
  stack2 = [(lt, indent_of line)]
  /\ exists L I, concat html2 = L ++ open_tag lt ++ I
                 /\ list_elems L /\ (I = [] \/ list_items I).
Proof.
  intros Hok Hn Hit. destruct stack as [|[t ind] [|lv stack']]; simpl in Hok.
  - cbn [close_levels open_level opens_level]. split; [reflexivity|].
    exists (concat html), []. rewrite concat_app. simpl. rewrite !app_nil_r. auto.
  - destruct Hok as [Hopen Hind]. specialize (Hind line (lt, content) Hn Hit).
    cbn [close_levels].
    destruct ((indent_of line <? ind)
              || ((indent_of line =? ind) && negb (ltype_eqb lt t))) eqn:B.
    + cbn [close_levels open_level opens_level]. split; [reflexivity|].
      exists (concat html ++ close_tag t), [].
      rewrite !concat_app. simpl. rewrite !app_nil_r.
      split; [reflexivity|]. split; [now apply open_list_close|now left].
    + apply orb_false_iff in B. destruct B as [B1 B2].
      apply Nat.ltb_ge in B1. assert (E : indent_of line = ind) by lia.
      rewrite E, Nat.eqb_refl in B2. cbn [andb] in B2.
      apply negb_false_iff, ltype_eqb_eq in B2. subst t.
      unfold open_level, opens_level.
      replace (ltype_eqb lt lt) with true by (destruct lt; reflexivity).
      rewrite E, Nat.ltb_irrefl. cbn [negb orb]. split; [reflexivity|].
      destruct Hopen as (L & I & HE & HL & HI). exists L, I. auto.
  - contradiction.
Qed.

Lemma list_items_snoc (I body nested : str) :
  I = [] \/ list_items I -> inline_html body -> list_elems nested ->
  list_items (I ++ "<li>" ++ body ++ nested ++ "</li>").
Proof.
  intros [->|HI] Hb Hn; [now apply li_one|now apply li_more].
Qed.

Lemma nested_indent_none (lines : list str) (i : nat) (line next : str) (item : ltype * str) :
  nonempty (strip line) = true ->
  nested_indent lines i line (indent_of line) = Ok None ->
  nth_error lines (i + 1) = Some next ->
  list_item (lstrip_sp next) = Some item ->
  indent_of next <= indent_of line.
Proof.
  intros Hb H Hn Hit. unfold nested_indent in H. cbv zeta in H.
  pose proof (nth_error_lt _ _ _ Hn) as Hi. apply Nat.ltb_lt in Hi.
  rewrite Hi, Hb, (get_nth _ _ _ Hn) in H. cbn [andb bind] in H.
  rewrite is_list_line_item, Hit, andb_true_r in H.
  destruct (indent_of line <? indent_of next) eqn:E; [discriminate|].
  now apply Nat.ltb_ge in E.
Qed.

Lemma list_well_nested (f : nat) :
  (forall lines start b h i',
     parse_list_fuel f lines start b = Ok (h, i') -> list_elems h)
  /\ (forall lines i stack html h s i',
     list_state_ok lines i stack html ->
     list_loop f lines i stack html = Ok (h, s, i') -> list_final_ok s h).
Proof.
  induction f as [|f (IHp & IHl)]; [split; intros; discriminate|]. split.
  - intros lines start b h i' H. rewrite parse_list_fuel_S in H.
    destruct (list_loop f lines start [] []) as [[[hh ss] ii]| |] eqn:E;
      cbn [bind] in H; try discriminate.
    injection H as <- _. apply IHl in E; [|apply le_nil].
    rewrite concat_app. destruct ss as [|[t ind] [|lv ss']]; simpl in E.
    + simpl. now rewrite app_nil_r.
    + simpl. rewrite app_nil_r. now apply open_list_close.
    + contradiction.
  - intros lines i stack html h s i' Hok H. rewrite list_loop_S in H.
    assert (Hsame : Ok (html, stack, i) = Ok (h, s, i') -> list_final_ok s h).
    { intros [= <- <- _]. destruct stack as [|[t ind] [|lv stack']]; simpl in *; tauto. }
    destruct (i <? length lines); [|auto].
    unfold get in H. destruct (nth_error lines i) as [line|] eqn:Hn;
      cbn [bind] in H; try discriminate.
    destruct (nonempty (strip line)) eqn:Hb; cbn [negb] in H; [|auto].
    cbv zeta in H.
    destruct (list_item (lstrip_sp line)) as [[lt content]|] eqn:Hit; [|auto].
    pose proof (list_turn_levels lines i stack html line lt content Hok Hn Hit) as Hturn.
    destruct (close_levels _ _ _ _) as [stack1 html1].
    destruct (open_level _ _ _ _) as [stack2 html2].
    destruct Hturn as (-> & L & I & HE & HL & HI).
    pose proof (parse_inline_html content) as Hc.
    destruct (nested_indent lines i line (indent_of line)) as [[d|]| |] eqn:Hnest;
      cbn [bind] in H; try discriminate.
    + destruct (parse_list_fuel f lines (i + 1) d) as [[nh ni]| |] eqn:E;
        cbn [bind] in H; try discriminate.
      pose proof (proj1 (list_stops_mutual f) _ _ _ _ _ E) as Hstop.
      apply IHp in E. eapply IHl; [|exact H]. unfold list_state_ok. split.
      * exists L, (I ++ "<li>" ++ parse_inline content ++ nh ++ "</li>").
        split; [|split; [exact HL|now apply list_items_snoc]].
        rewrite !concat_app, HE. cbn [concat]. rewrite !app_nil_r, <- !app_assoc.
        reflexivity.
      * intros l2 it2 Hn2 Hit2. exfalso.
        destruct Hstop as [Hs|(l3 & Hn3 & [Hs|Hs])].
        -- apply nth_error_lt in Hn2. lia.
        -- rewrite Hn2 in Hn3. injection Hn3 as <-.
           rewrite (list_item_nonblank _ _ Hit2) in Hs. discriminate.
        -- rewrite Hn2 in Hn3. injection Hn3 as <-. congruence.
    + eapply IHl; [|exact H]. unfold list_state_ok. split.
      * exists L, (I ++ "<li>" ++ parse_inline content ++ [] ++ "</li>").
        split; [|split; [exact HL|apply list_items_snoc; auto using le_nil]].
        rewrite !concat_app, HE. cbn [concat app]. rewrite !app_nil_r, <- !app_assoc.
        reflexivity.
      * intros l2 it2 Hn2 Hit2.
        eapply nested_indent_none; eauto.
Qed.

(** X11. The fragment [parse_list] returns is well nested: a sequence of
    whole list elements, each holding whole items, each item holding its
    inline content and then the lists nested in it; every list and item the
    assembler opens it also closes.  The stack of open lists never holds
    more than one level: deeper lists come from the recursive call. *)
Theorem parse_list_well_nested (lines : list str) (start b : nat) :
  list_elems (fst (parse_list lines start b))
  /\ length (snd (fst (list_run lines start [] []))) <= 1.
Proof.
  split.
  - pose proof (parse_list_fuel_enough lines start b _ (le_n _)) as H.
    destruct (parse_list lines start b) as [h i']. simpl.
    apply (proj1 (list_well_nested _) _ _ _ _ _ H).
  - pose proof (list_loop_enough lines start _ [] [] (le_n _)) as H.
    destruct (list_run lines start [] []) as [[h s] i']. simpl.
    apply (proj2 (list_well_nested _)) in H; [|apply le_nil].
    destruct s as [|[t ind] [|lv s']]; simpl in *; lia.
Qed.

(** ** The states of the list loop *)

Lemma parse_list_elems (lines : list str) (start b : nat) :
  list_elems (fst (parse_list lines start b)).
Proof.
  pose proof (parse_list_fuel_enough lines start b _ (le_n _)) as H.
  destruct (parse_list lines start b) as [h i']. simpl.
  apply (proj1 (list_well_nested _) _ _ _ _ _ H).
Qed.

(** What the closing and opening steps of a turn append, in a state that
    [list_state_ok] holds of. *)
Lemma list_markup_ok (lines : list str) (i : nat) (stack : list level)
  (html : list str) (line : str) (lt : ltype) (content : str) :
  list_state_ok lines i stack html ->
  nth_error lines i = Some line ->
  list_item (lstrip_sp line) = Some (lt, content) ->
  let '(stack1, html1) := close_levels (indent_of line) lt stack html in
  let '(stack2, html2) := open_level (indent_of line) lt stack1 html1 in
  stack2 = [(lt, indent_of line)]
  /\ match stack with
     | [] => html2 = html ++ [open_tag lt]
     | (t, ind) :: _ =>
         indent_of line <= ind
         /\ if ltype_eqb lt t && (indent_of line =? ind)
            then html2 = html
            else html2 = html ++ [close_tag t; open_tag lt]
     end.
Proof.
  intros Hok Hn Hit. destruct stack as [|[t ind] [|lv stack']]; simpl in Hok.
  - cbn [close_levels open_level opens_level]. split; reflexivity.
  - destruct Hok as [_ Hind]. specialize (Hind line (lt, content) Hn Hit).
    cbn [close_levels].
    destruct (indent_of line <? ind) eqn:B1.
    + cbn [orb close_levels open_level opens_level]. apply Nat.ltb_lt in B1.
      replace (indent_of line =? ind) with false by (symmetry; apply Nat.eqb_neq; lia).
      rewrite andb_false_r, <- app_assoc. repeat split; [lia].
    + apply Nat.ltb_ge in B1. assert (E : indent_of line = ind) by lia.
      rewrite E, Nat.eqb_refl, andb_true_r. cbn [orb andb].
      destruct (ltype_eqb lt t) eqn:B2; cbn [negb].
      * apply ltype_eqb_eq in B2. subst t. unfold open_level, opens_level.
        replace (ltype_eqb lt lt) with true by (destruct lt; reflexivity).
        rewrite Nat.ltb_irrefl. cbn [negb orb]. repeat split; lia.
      * cbn [close_levels open_level opens_level]. rewrite <- app_assoc.
        repeat split; lia.
  - contradiction.
Qed.

(** The loop is its turn, repeated until the turn ends it. *)
Lemma list_run_turn (lines : list str) (i : nat) (stack : list level)
  (html : list str) :
  list_run lines i stack html
  = match list_turn lines i stack html with
    | Some (html', stack', i') => list_run lines i' stack' html'
    | None => (html, stack, i)
    end.
Proof.
  unfold list_turn. destruct (nth_error lines i) as [line|] eqn:Hn.
  2:{ apply list_run_stop. left. now apply nth_error_None. }
  destruct (nonempty (strip line)) eqn:Hb; cbn [negb].
  2:{ apply list_run_stop. right. exists line. auto. }
  destruct (list_item (lstrip_sp line)) as [[lt content]|] eqn:Hit.
  2:{ apply list_run_stop. right. exists line. auto. }
  rewrite (list_run_item lines i stack html line lt content Hn Hb Hit).
  destruct (close_levels _ _ _ _) as [stack1 html1].
  destruct (open_level _ _ _ _) as [stack2 html2].
  destruct (unwrap None _) as [d|]; [|reflexivity].
  destruct (parse_list lines (i + 1) d) as [nh ni]. reflexivity.
Qed.

Lemma list_turn_advances (lines : list str) (i : nat) (stack : list level)
  (html : list str) (st : list_state) :
  list_turn lines i stack html = Some st -> i < snd st.
Proof.
  unfold list_turn. destruct (nth_error lines i) as [line|]; [|discriminate].
  destruct (negb _); [discriminate|].
  destruct (list_item _) as [[lt content]|]; [|discriminate].
  destruct (close_levels _ _ _ _) as [stack1 html1].
  destruct (open_level _ _ _ _) as [stack2 html2].
  destruct (unwrap None _) as [d|].
  - pose proof (parse_list_index_ge lines (i + 1) d) as Hge.
    destruct (parse_list lines (i + 1) d) as [nh ni]. intros [= <-]. simpl in *. lia.
  - intros [= <-]. simpl. lia.
Qed.

(** A turn keeps the state of the loop as [list_state_ok] has it. *)
Lemma list_turn_ok (lines : list str) (i : nat) (stack : list level)
  (html : list str) (html' : list str) (stack' : list level) (i' : nat) :
  list_state_ok lines i stack html ->
  list_turn lines i stack html = Some (html', stack', i') ->
  list_state_ok lines i' stack' html'.
Proof.
  intros Hok H. unfold list_turn in H.
  destruct (nth_error lines i) as [line|] eqn:Hn; [|discriminate].
  destruct (nonempty (strip line)) eqn:Hb; cbn [negb] in H; [|discriminate].
  destruct (list_item (lstrip_sp line)) as [[lt content]|] eqn:Hit; [|discriminate].
  pose proof (list_turn_levels lines i stack html line lt content Hok Hn Hit) as Hturn.
  destruct (close_levels _ _ _ _) as [stack1 html1].
  destruct (open_level _ _ _ _) as [stack2 html2].
  destruct Hturn as (-> & L & I & HE & HL & HI).
  pose proof (parse_inline_html content) as Hc.
  destruct (nested_indent_ok lines i line (indent_of line)) as [r Hr].
  rewrite Hr in H. cbn [unwrap] in H. destruct r as [d|].
  - pose proof (parse_list_stops lines (i + 1) d) as Hstop.
    pose proof (parse_list_elems lines (i + 1) d) as Hnest.
    destruct (parse_list lines (i + 1) d) as [nh ni]. simpl in Hstop, Hnest.
    injection H as <- <- <-. unfold list_state_ok. split.
    + exists L, (I ++ "<li>" ++ parse_inline content ++ nh ++ "</li>").
      split; [|split; [exact HL|now apply list_items_snoc]].
      rewrite !concat_app, HE. cbn [concat]. rewrite !app_nil_r, <- !app_assoc.
      reflexivity.
    + intros l2 it2 Hn2 Hit2. exfalso.
      destruct Hstop as [Hs|(l3 & Hn3 & [Hs|Hs])].
      * apply nth_error_lt in Hn2. lia.
      * rewrite Hn2 in Hn3. injection Hn3 as <-.
        rewrite (list_item_nonblank _ _ Hit2) in Hs. discriminate.
      * rewrite Hn2 in Hn3. injection Hn3 as <-. congruence.
  - injection H as <- <- <-. unfold list_state_ok. split.
    + exists L, (I ++ "<li>" ++ parse_inline content ++ [] ++ "</li>").
      split; [|split; [exact HL|apply list_items_snoc; auto using le_nil]].
      rewrite !concat_app, HE. cbn [concat app]. rewrite !app_nil_r, <- !app_assoc.
      reflexivity.
    + intros l2 it2 Hn2 Hit2.
      eapply nested_indent_none; eauto.
Qed.

(** Every state the loop reaches has at most one list open, and no coming
    item is indented more than the open list. *)
Lemma list_reaches_ok (lines : list str) (start : nat) (html : list str)
  (stack : list level) (i : nat) :
  list_reaches lines start (html, stack, i) -> list_state_ok lines i stack html.
Proof.
  intros H. remember (html, stack, i) as st eqn:E. revert html stack i E.
  induction H as [|h s j st _ IH Ht]; intros html stack i E.
  - injection E as <- <- <-. apply le_nil.
  - subst st. eapply list_turn_ok; [|exact Ht]. now apply IH.
Qed.

(** The loop passes through reached states only, and its last state is
    reached. *)
Lemma list_run_reached (lines : list str) (start : nat) (k : nat) :
  forall html stack i,
    length lines - i <= k ->
    list_reaches lines start (html, stack, i) ->
    list_reaches lines start (list_run lines i stack html).
Proof.
  induction k as [|k IH]; intros html stack i Hk Hr.
  - rewrite list_run_stop; [exact Hr|]. left. lia.
  - rewrite list_run_turn.
    destruct (list_turn lines i stack html) as [[[h' s'] i']|] eqn:Ht; [|exact Hr].
    pose proof (list_turn_advances _ _ _ _ _ Ht) as Hadv. simpl in Hadv.
    apply IH; [lia|]. eapply reach_turn; eauto.
Qed.

(** X18. What a turn of the list loop emits before an item, in every state
    the loop reaches: with no list open, the opening tag of the item's
    list type; with a list of the same type open at the same indentation,
    nothing; otherwise (another type at that indentation, or less
    indentation, whatever the type) the closing tag of the open list and
    then the opening tag of the item's type.  Afterwards the one open list
    has the item's type and indentation. *)
Theorem list_turn_markup (lines : list str) (start i : nat) (stack : list level)
  (html : list str) (line : str) (lt : ltype) (content : str) :
  list_reaches lines start (html, stack, i) ->
  nth_error lines i = Some line ->
  list_item (lstrip_sp line) = Some (lt, content) ->
  let '(stack1, html1) := close_levels (indent_of line) lt stack html in
  let '(stack2, html2) := open_level (indent_of line) lt stack1 html1 in
  stack2 = [(lt, indent_of line)]
  /\ match stack with
     | [] => html2 = html ++ [open_tag lt]
     | (t, ind) :: _ =>
         indent_of line <= ind
         /\ if ltype_eqb lt t && (indent_of line =? ind)
            then html2 = html
            else html2 = html ++ [close_tag t; open_tag lt]
     end.
Proof.
  intros Hreach Hn Hit. apply list_reaches_ok in Hreach.
  now apply (list_markup_ok lines i stack html line lt content).
Qed.

Lemma list_turn_markup_witness :
  let html := strs ["<ul>"; "<li>a</li>"] in
  let '(stack1, html1) := close_levels 0 ol [(ul, 0)] html in
  let '(stack2, html2) := open_level 0 ol stack1 html1 in
  stack2 = [(ol, 0)]
  /\ 0 <= 0 /\ html2 = html ++ [close_tag ul; open_tag ol].
Proof.
  exact (list_turn_markup (strs ["- a"; "1. b"]) 0 1 [(ul, 0)]
           (strs ["<ul>"; "<li>a</li>"]) "1. b" ol "b"
           (reach_turn (strs ["- a"; "1. b"]) 0 [] [] 0
              (strs ["<ul>"; "<li>a</li>"], [(ul, 0)], 1)
              (reach_start _ _) eq_refl)
           eq_refl eq_refl).
Defined.

(** ** Headings *)

Lemma hash_run_repeat (n : nat) (rest : str) :
  hd_error rest <> Some "#"%char ->
  hash_run (repeat "#"%char n ++ rest) = n.
Proof.
  intros H. induction n as [|n IH]; simpl.
  - destruct rest as [|c rest]; [reflexivity|]. simpl.
    destruct (Ascii.eqb c "#") eqn:E; [|reflexivity].
    apply Ascii.eqb_eq in E. subst. exfalso. now apply H.
  - now rewrite IH.
Qed.

Lemma space_facts (c : ascii) :
  isspace c = true -> Ascii.eqb "`" c = false /\ c <> "#"%char.
Proof.
  destruct c as [[] [] [] [] [] [] [] []]; vm_compute; intros H; try discriminate;
    split; (reflexivity || discriminate).
Qed.

Lemma lstrip_hashes (ws : str) (n : nat) (rest : str) :
  Forall (fun c => isspace c = true) ws -> 1 <= n ->
  lstrip (ws ++ repeat "#"%char n ++ rest) = repeat "#"%char n ++ rest.
Proof.
  intros Hws Hn. unfold lstrip, lstrip_by. rewrite dropwhile_app_all by exact Hws.
  destruct n as [|n]; [lia|]. cbn [repeat app]. now apply dropwhile_stop.
Qed.

Lemma no_fence_after_space (ws : str) (n : nat) (rest : str) :
  Forall (fun c => isspace c = true) ws -> 1 <= n ->
  startswith "```" (ws ++ repeat "#"%char n ++ rest) = false.
Proof.
  intros Hws Hn. change (lit "```") with ["`"; "`"; "`"]%char.
  destruct Hws as [|c ws Hc _]; cbn [app startswith].
  - destruct n as [|n]; [lia|]. reflexivity.
  - now rewrite (proj1 (space_facts c Hc)).
Qed.

Lemma skipn_repeat_app {A} (x : A) (n k : nat) (l : list A) :
  skipn (n + k) (repeat x n ++ l) = skipn k l.
Proof.
  rewrite <- (repeat_length x n) at 1. apply skipn_app_exact.
Qed.

(** X12. A heading: a line of optional leading whitespace, one to six
    [#], a space and the rest.  The block loop emits the heading element
    of that level around the inline output of the rest, with trailing [#]
    and spaces and then surrounding whitespace removed, and goes to the
    next line. *)
Theorem heading_line (lines : list str) (i n : nat) (ws rest : str) :
  nth_error lines i = Some (ws ++ repeat "#"%char n ++ " " ++ rest) ->
  Forall (fun c => isspace c = true) ws ->
  1 <= n <= 6 ->
  block_step lines i
  = Ok (Some (heading_element n (parse_inline (strip (rstrip_hash_sp rest)))), i + 1).
Proof.
  intros Hn Hws Hr. change (lit " ") with [" "%char] in *.
  unfold block_step. rewrite (get_nth _ _ _ Hn). cbn [bind].
  rewrite (no_fence_after_space ws n _ Hws (proj1 Hr)). cbv zeta.
  rewrite (lstrip_hashes ws n _ Hws (proj1 Hr)).
  rewrite (hash_run_repeat n ([" "%char] ++ rest)) by discriminate.
  assert (H1 : (1 <=? n) = true) by (apply Nat.leb_le; lia).
  assert (H6 : (n <=? 6) = true) by (apply Nat.leb_le; lia).
  rewrite H1, H6. unfold slice.
  pose proof (skipn_repeat_app "#"%char n 0 ([" "%char] ++ rest)) as S0.
  pose proof (skipn_repeat_app "#"%char n 1 ([" "%char] ++ rest)) as S1.
  rewrite Nat.add_0_r in S0. rewrite S0, S1.
  replace (n + 1 - n) with 1 by lia. reflexivity.
Qed.

Lemma heading_line_witness :
  block_step (strs ["  ## H2 *x* ##"; "next"]) 0
  = Ok (Some (lit "<h2>H2 <em>x</em></h2>"), 1).
Proof.
  rewrite (heading_line (strs ["  ## H2 *x* ##"; "next"]) 0 2 "  " "H2 *x* ##");
    [reflexivity|reflexivity|repeat constructor|lia].
Defined.

(** ** Paragraphs *)

Lemma para_lines_spec (ls : list str) :
  para_lines ls = map strip (firstn (length (para_lines ls)) ls)
  /\ Forall (fun l => nonempty (strip l) = true) (firstn (length (para_lines ls)) ls)
  /\ match nth_error ls (length (para_lines ls)) with
     | Some l => nonempty (strip l) = false
     | None => True
     end.
Proof.
  induction ls as [|l ls (IH1 & IH2 & IH3)]; simpl.
  - repeat split; constructor.
  - destruct (nonempty (strip l)) eqn:E; simpl.
    + repeat split; [now rewrite <- IH1|now constructor|exact IH3].
    + repeat split; [constructor|exact E].
Qed.

Lemma block_step_paragraph (lines : list str) (i : nat) (line : str) :
  nth_error lines i = Some line ->
  opens_paragraph line ->
  exists k,
    1 <= k /\ i + k <= length lines
    /\ block_step lines i
       = Ok (Some ("<p>" ++ parse_inline (join " " (map strip (slice lines i (i + k))))
                     ++ "</p>"), i + k)
    /\ Forall (fun l => nonempty (strip l) = true) (slice lines i (i + k))
    /\ match nth_error lines (i + k) with
       | Some l => nonempty (strip l) = false
       | None => True
       end.
Proof.
  intros Hn (Hf & Hh & Hl & Hb).
  destruct (para_lines_spec (skipn (i + 1) lines)) as (P1 & P2 & P3).
  set (m := length (para_lines (skipn (i + 1) lines))) in *.
  assert (Hsk : skipn i lines = line :: skipn (i + 1) lines).
  { rewrite skipn_S_tl. pose proof (nth_error_skipn_hd lines i) as Hd.
    rewrite Hn in Hd. destruct (skipn i lines); [discriminate|].
    simpl in Hd. injection Hd as <-. reflexivity. }
  assert (Hsl : slice lines i (i + S m) = line :: firstn m (skipn (i + 1) lines)).
  { unfold slice. replace (i + S m - i) with (S m) by lia. now rewrite Hsk. }
  assert (Hm : m <= length (skipn (i + 1) lines)).
  { unfold m. rewrite P1 at 1. rewrite length_map, length_firstn. lia. }
  rewrite length_skipn in Hm. pose proof (nth_error_lt _ _ _ Hn) as Hi.
  exists (S m). split; [lia|]. split; [lia|]. split; [|split].
  - unfold block_step. rewrite (get_nth _ _ _ Hn). cbn [bind].
    rewrite Hf. cbv zeta. unfold heading_test in Hh. rewrite Hh, Hl, Hb, Hsl.
    cbn [map length]. rewrite <- P1. reflexivity.
  - rewrite Hsl. constructor; [exact Hb|exact P2].
  - rewrite nth_error_skipn in P3. replace (i + S m) with (i + 1 + m) by lia. exact P3.
Qed.

(** X13. A paragraph: on a line that is no fence, no heading, not taken
    for a list line and not blank, the block loop reads on to the next
    blank line or to the end, whatever the lines in between start with, and
    emits one paragraph of those lines, each stripped, joined by single
    spaces and formatted as one text. *)
Theorem paragraph_lines (lines : list str) (i : nat) (line : str) :
  nth_error lines i = Some line ->
  opens_paragraph line ->
  exists k,
    1 <= k /\ i + k <= length lines
    /\ block_step lines i
       = Ok (Some ("<p>" ++ parse_inline (join " " (map strip (slice lines i (i + k))))
                     ++ "</p>"), i + k)
    /\ Forall (fun l => nonempty (strip l) = true) (slice lines i (i + k))
    /\ match nth_error lines (i + k) with
       | Some l => nonempty (strip l) = false
       | None => True
       end.
Proof. exact (block_step_paragraph lines i line). Qed.

Lemma paragraph_lines_witness :
  let lines := strs ["Line one"; "# not a heading"; "- no item"; ""; "after"] in
  exists k,
    1 <= k /\ 0 + k <= length lines
    /\ block_step lines 0
       = Ok (Some ("<p>" ++ parse_inline (join " " (map strip (slice lines 0 (0 + k))))
                     ++ "</p>"), 0 + k)
    /\ Forall (fun l => nonempty (strip l) = true) (slice lines 0 (0 + k))
    /\ match nth_error lines (0 + k) with
       | Some l => nonempty (strip l) = false
       | None => True
       end.
Proof.
  intros lines. apply (paragraph_lines lines 0 "Line one" eq_refl).
  repeat split; reflexivity.
Defined.

Lemma hash_line_facts (n : nat) (rest : str) :
  1 <= n ->
  startswith "```" (repeat "#"%char n ++ rest) = false
  /\ lstrip (repeat "#"%char n ++ rest) = repeat "#"%char n ++ rest
  /\ takes_for_list (lstrip_sp (repeat "#"%char n ++ rest)) = false
  /\ nonempty (strip (repeat "#"%char n ++ rest)) = true.
Proof.
  intros Hn. destruct n as [|n]; [lia|]. cbn [repeat app].
  repeat split; try reflexivity.
  eapply strip_head_nonblank; reflexivity.
Qed.

(** X14. No heading: a line that starts with more than six [#], or with
    [#] not followed by a space, opens a paragraph; the block loop reads
    its hashes as text. *)
Theorem hash_run_not_heading (lines : list str) (i n : nat) (rest : str) :
  nth_error lines i = Some (repeat "#"%char n ++ rest) ->
  1 <= n ->
  hd_error rest <> Some "#"%char ->
  6 < n \/ hd_error rest <> Some " "%char ->
  opens_paragraph (repeat "#"%char n ++ rest)
  /\ exists k,
       1 <= k
       /\ block_step lines i
          = Ok (Some ("<p>" ++ parse_inline (join " " (map strip (slice lines i (i + k))))
                        ++ "</p>"), i + k).
Proof.
  intros Hl Hn Hrest Hno.
  assert (Hop : opens_paragraph (repeat "#"%char n ++ rest)).
  { destruct (hash_line_facts n rest Hn) as (Hf & Hs & Ht & Hb).
    split; [exact Hf|]. split; [|split; [exact Ht|exact Hb]].
    rewrite Hs. unfold heading_test. rewrite (hash_run_repeat n rest Hrest).
    destruct Hno as [H6|Hsp].
    - replace (n <=? 6) with false by (symmetry; apply Nat.leb_gt; lia).
      now rewrite andb_false_r.
    - unfold slice. pose proof (skipn_repeat_app "#"%char n 0 rest) as S0.
      rewrite Nat.add_0_r in S0. rewrite S0. cbn [skipn].
      replace (n + 1 - n) with 1 by lia. change (lit " ") with [" "%char].
      destruct rest as [|c rest]; [now rewrite andb_false_r|].
      cbn [firstn eq_str]. destruct (Ascii.eqb c " ") eqn:E.
      + apply Ascii.eqb_eq in E. subst. exfalso. now apply Hsp.
      + now rewrite andb_false_r. }
  split; [exact Hop|].
  destruct (block_step_paragraph lines i _ Hl Hop) as (k & Hk & _ & H & _).
  exists k. split; [exact Hk|exact H].
Qed.

Lemma hash_run_not_heading_witness :
  opens_paragraph "####### seven" /\ opens_paragraph "#hashtag".
Proof.
  split.
  - apply (hash_run_not_heading (strs ["####### seven"]) 0 7 " seven" eq_refl);
      [lia|discriminate|left; lia].
  - apply (hash_run_not_heading (strs ["#hashtag"]) 0 1 "hashtag" eq_refl);
      [lia|discriminate|right; discriminate].
Defined.

(** ** The block loop and the list assembler come to an end *)

Lemma block_step_stalls (lines : list str) (i : nat) (line : str) :
  nth_error lines i = Some line ->
  stalls line = true ->
  block_step lines i = Ok (Some [], i).
Proof.
  intros Hn H. unfold stalls in H.
  apply andb_true_iff in H. destruct H as [H Hit].
  apply andb_true_iff in H. destruct H as [H Ht].
  apply andb_true_iff in H. destruct H as [Hf Hh].
  apply negb_true_iff in Hf, Hh. unfold heading_test in Hh.
  destruct (list_item (lstrip_sp line)) eqn:Hi; [discriminate|].
  unfold block_step. rewrite (get_nth _ _ _ Hn). cbn [bind].
  rewrite Hf. cbv zeta. rewrite Hh, Ht.
  rewrite parse_list_unfold, list_run_stop; [reflexivity|].
  right. exists line. auto.
Qed.

Lemma block_step_moves (lines : list str) (i : nat) (line : str) :
  nth_error lines i = Some line ->
  stalls line = false ->
  exists r, block_step lines i = Ok r /\ i < snd r.
Proof.
  intros Hn H.
  destruct (block_step_ok lines i (nth_error_lt _ _ _ Hn)) as [r Hr].
  exists r. split; [exact Hr|].
  destruct (block_step_advances lines i r Hr) as [Hlt|(-> & l & Hl & Ht & Hit)];
    [exact Hlt|exfalso].
  rewrite Hn in Hl. injection Hl as <-.
  unfold block_step in Hr. rewrite (get_nth _ _ _ Hn) in Hr. cbn [bind] in Hr.
  unfold stalls, heading_test in H. rewrite Ht, Hit in H.
  destruct (startswith "```" line).
  { destruct (find_fence _ _) as [j|] eqn:Hf.
    - apply find_fence_spec in Hf. injection Hr as _ Hr. lia.
    - injection Hr as _ Hr. lia. }
  cbv zeta in Hr. cbn [negb andb] in H. rewrite !andb_true_r in H.
  apply negb_false_iff in H. rewrite H in Hr. injection Hr as _ Hr. lia.
Qed.

(** X15. A turn of the block loop moves the cursor forward, with one
    exception: on a line that is no fence and no heading, that the loop
    takes for a list line and that is no list item, the turn appends an
    empty block and leaves the cursor on the line. *)
Theorem block_turn_progress (lines : list str) (i : nat) (line : str) :
  nth_error lines i = Some line ->
  (stalls line = true -> block_step lines i = Ok (Some [], i))
  /\ (stalls line = false -> exists r, block_step lines i = Ok r /\ i < snd r).
Proof.
  intros Hn. split.
  - now apply block_step_stalls.
  - now apply block_step_moves.
Qed.

Lemma block_turn_progress_witness :
  block_step (strs ["- a"; ""; "1.5 kg"]) 2 = Ok (Some [], 2)
  /\ (exists r, block_step (strs ["- a"; ""; "1.5 kg"]) 0 = Ok r /\ 0 < snd r)
  /\ (exists r, block_step (strs ["# 1.5 kg"]) 0 = Ok r /\ 0 < snd r).
Proof.
  split; [|split].
  - exact (proj1 (block_turn_progress (strs ["- a"; ""; "1.5 kg"]) 2 "1.5 kg" eq_refl)
             eq_refl).
  - exact (proj2 (block_turn_progress (strs ["- a"; ""; "1.5 kg"]) 0 "- a" eq_refl)
             eq_refl).
  - exact (proj2 (block_turn_progress (strs ["# 1.5 kg"]) 0 "# 1.5 kg" eq_refl)
             eq_refl).
Defined.

(** X16. [parse_markdown] returns, within one turn of the block loop per
    line, on every input in which each line the block loop takes for a list
    line is a list line. *)
Theorem markdown_returns (markdown : str) :
  (forall line, In line (splitlines markdown) ->
     takes_for_list (lstrip_sp line) = true ->
     is_list_line (lstrip_sp line) = true) ->
  exists out,
    parse_markdown_fuel (S (length (splitlines markdown))) markdown = Ok out.
Proof. exact (parse_markdown_returns markdown). Qed.

Lemma markdown_returns_witness :
  exists out,
    parse_markdown_fuel
      (S (length (splitlines ("# T" ++ nl ++ "1. a" ++ nl ++ nl ++ "text"))))
      ("# T" ++ nl ++ "1. a" ++ nl ++ nl ++ "text") = Ok out.
Proof.
  apply markdown_returns. intros line Hin Ht.
  change (splitlines ("# T" ++ nl ++ "1. a" ++ nl ++ nl ++ "text"))
    with (strs ["# T"; "1. a"; ""; "text"]) in Hin.
  repeat (destruct Hin as [<-|Hin]; [try reflexivity; discriminate Ht|]).
  contradiction.
Defined.

(** X17. The list assembler comes to an end on every line sequence: with
    fuel for two nested steps per line from [start] on it returns, and
    with less fuel it runs out or returns the same; it never reads a line
    out of range. *)
Theorem list_assembler_ends (lines : list str) (start b f : nat) :
  (list_fuel lines start <= f ->
   parse_list_fuel f lines start b = Ok (parse_list lines start b))
  /\ (parse_list_fuel f lines start b = OutOfFuel
      \/ parse_list_fuel f lines start b = Ok (parse_list lines start b)).
Proof.
  split; [apply parse_list_fuel_enough|].
  pose proof (proj1 (list_mono f) (max f (list_fuel lines start)) lines start b
                (Nat.le_max_l _ _)) as Hm.
  rewrite (parse_list_fuel_enough lines start b _ (Nat.le_max_r _ _)) in Hm.
  exact Hm.
Qed.

Lemma list_assembler_ends_witness :
  parse_list_fuel 6 (strs ["- a"; "  - b"]) 0 0
  = Ok (parse_list (strs ["- a"; "  - b"]) 0 0).
Proof.
  apply (proj1 (list_assembler_ends (strs ["- a"; "  - b"]) 0 0 6)).
  vm_compute. lia.
Defined.

(** ** Fence lines *)

(** The search of the block loop for the closing fence finds the nearest
    line that starts with the token, whenever there is one. *)
Lemma find_fence_complete (ls : list str) (j m : nat) (l : str) :
  nth_error ls m = Some l ->
  startswith "```" l = true ->
  (forall m' l', m' < m -> nth_error ls m' = Some l' -> startswith "```" l' = false) ->
  find_fence ls j = Some (j + m).
Proof.
  revert j m. induction ls as [|x ls IH]; intros j m Hn Hs Hmin.
  - destruct m; discriminate.
  - cbn [find_fence]. destruct m as [|m].
    + injection Hn as ->. rewrite Hs. f_equal. lia.
    + rewrite (Hmin 0 x (Nat.lt_0_succ _) eq_refl).
      rewrite (IH (S j) m Hn Hs); [f_equal; lia|].
      intros m' l' Hm' Hn'. apply (Hmin (S m') l'); [lia|exact Hn'].
Qed.


Lemma block_step_fence (lines : list str) (i j : nat) (line close : str) :
  nth_error lines i = Some line ->
  startswith "```" line = true ->
  i < j ->
  nth_error lines j = Some close ->
  startswith "```" close = true ->
  (forall k l, i < k < j -> nth_error lines k = Some l -> startswith "```" l = false) ->
  block_step lines i
  = Ok (Some (code_block (strip (skipn 3 line)) (slice lines (i + 1) j)), j + 1).
Proof.
  intros Hn Hs Hij Hc Hcs Hmin.
  assert (Hf : find_fence (skipn (i + 1) lines) (i + 1) = Some j).
  { replace (Some j) with (Some (i + 1 + (j - (i + 1)))) by (f_equal; lia).
    apply (find_fence_complete _ _ _ close).
    - rewrite nth_error_skipn. replace (i + 1 + (j - (i + 1))) with j by lia. exact Hc.
    - exact Hcs.
    - intros m' l' Hm' Hn'. rewrite nth_error_skipn in Hn'.
      apply (Hmin (i + 1 + m') l'); [lia|exact Hn']. }
  unfold block_step. rewrite (get_nth _ _ _ Hn). cbn [bind].
  rewrite Hs, Hf. reflexivity.
Qed.


Lemma space_not_marker (c : ascii) :
  isspace c = true ->
  Ascii.eqb "`" c = false /\ isdigit c = false
  /\ Ascii.eqb "-" c = false /\ Ascii.eqb "*" c = false /\ Ascii.eqb "+" c = false.
Proof.
  destruct c as [[] [] [] [] [] [] [] []]; vm_compute; intros H; try discriminate;
    repeat split; reflexivity.
Qed.

Lemma dropwhile_all_inv (p : ascii -> bool) (s : str) :
  dropwhile p s = [] -> Forall (fun c => p c = true) s.
Proof.
  induction s as [|c s IH]; simpl; [constructor|].
  destruct (p c) eqn:E; [|discriminate]. intros H. constructor; auto.
Qed.

Lemma dropwhile_head (p : ascii -> bool) (s : str) (c : ascii) (r : str) :
  dropwhile p s = c :: r -> p c = false.
Proof.
  induction s as [|x s IH]; simpl; [discriminate|].
  destruct (p x) eqn:E; [exact IH|]. intros [= <- _]. exact E.
Qed.

(** A line that holds a character other than whitespace is not blank. *)
Lemma strip_nonblank (line : str) (c : ascii) :
  In c line -> isspace c = false -> nonempty (strip line) = true.
Proof.
  intros Hin Hc. unfold strip, rstrip_by, lstrip_by.
  destruct (dropwhile isspace line) as [|x r] eqn:E.
  - apply dropwhile_all_inv in E. rewrite Forall_forall in E.
    rewrite (E c Hin) in Hc. discriminate.
  - pose proof (dropwhile_head _ _ _ _ E) as Hx.
    destruct (dropwhile isspace (rev (x :: r))) as [|y r'] eqn:E'.
    + apply dropwhile_all_inv in E'. rewrite Forall_forall in E'.
      rewrite (E' x) in Hx; [discriminate|]. apply in_rev. rewrite rev_involutive. now left.
    + destruct (rev (y :: r')) eqn:R; [|reflexivity].
      apply (f_equal (@length _)) in R. rewrite length_rev in R. discriminate.
Qed.

(** What is left of an indented fence line when its leading spaces are
    dropped starts with a whitespace character or with the backtick. *)
Lemma lstrip_sp_indented (ws rest : str) :
  Forall (fun c => isspace c = true) ws ->
  exists c r, lstrip_sp (indented_fence ws rest) = c :: r
              /\ (isspace c = true \/ c = "`"%char).
Proof.
  unfold indented_fence, lstrip_sp, lstrip_by. change (lit "```") with ["`"; "`"; "`"]%char.
  induction 1 as [|x ws Hx _ IH]; cbn [app dropwhile].
  - change (Ascii.eqb " " "`") with false. cbv iota. eauto.
  - destruct (Ascii.eqb " " x); [exact IH|eauto].
Qed.

Lemma lstrip_indented (ws rest : str) :
  Forall (fun c => isspace c = true) ws ->
  lstrip (indented_fence ws rest) = "```" ++ rest.
Proof.
  intros Hws. unfold indented_fence, lstrip, lstrip_by.
  rewrite dropwhile_app_all by exact Hws. reflexivity.
Qed.

(** The block loop opens a paragraph on an indented fence line: the test
    for a fence reads the line as it is, and the line is no heading, no
    list line and not blank. *)
Lemma indented_fence_opens_paragraph (ws rest : str) :
  indentation ws -> opens_paragraph (indented_fence ws rest).
Proof.
  intros [Hne Hws]. split; [|split; [|split]].
  - unfold indented_fence. destruct Hws as [|c ws Hc _]; [congruence|].
    change (lit "```") with ["`"; "`"; "`"]%char. cbn [app startswith].
    now rewrite (proj1 (space_not_marker c Hc)).
  - now rewrite lstrip_indented.
  - destruct (lstrip_sp_indented ws rest Hws) as (c & r & -> & Hc).
    destruct Hc as [Hc| ->]; [|reflexivity].
    destruct (space_not_marker c Hc) as (_ & Hd & H1 & H2 & H3).
    unfold takes_for_list, starts_bullet.
    change (lit "- ") with ["-"; " "]%char. change (lit "* ") with ["*"; " "]%char.
    change (lit "+ ") with ["+"; " "]%char. cbn [startswith].
    rewrite H1, H2, H3, Hd. reflexivity.
  - apply (strip_nonblank _ "`"%char); [|reflexivity].
    unfold indented_fence. apply in_or_app. right. now left.
Qed.

Lemma block_step_indented_fence (lines : list str) (i : nat) (ws rest : str) :
  nth_error lines i = Some (indented_fence ws rest) ->
  indentation ws ->
  exists k,
    1 <= k
    /\ block_step lines i
       = Ok (Some ("<p>" ++ parse_inline (join " " (map strip (slice lines i (i + k))))
                     ++ "</p>"), i + k).
Proof.
  intros Hn Hws.
  destruct (block_step_paragraph lines i _ Hn (indented_fence_opens_paragraph ws rest Hws))
    as (k & Hk & _ & H & _).
  exists k. split; [exact Hk|exact H].
Qed.

(** ** Fenced code blocks *)

(** C6, as the specification states it, has a fence recognized on the
    line with its indentation stripped.  Here the first line is a fence
    after stripping, a later line starts with the fence token, and the
    turn of the block loop emits a paragraph that reads the three lines as
    inline text, not a code block. *)
Lemma indented_fence_is_a_paragraph :
  startswith "```" (lstrip (nth 0 (strs ["  ```"; "code"; "```"]) [])) = true
  /\ find_fence (skipn 1 (strs ["  ```"; "code"; "```"])) 1 = Some 2
  /\ block_step (strs ["  ```"; "code"; "```"]) 0
     = Ok (Some (lit "<p><code></code><code> code </code><code></code></p>"), 3)
  /\ contains "<pre>" "<p><code></code><code> code </code><code></code></p>" = false.
Proof. repeat split; reflexivity. Qed.

(** C6, amended. With the cursor on a line that itself starts with the
    fence token, and [j] the nearest later line that starts with it, the
    turn of the block loop emits a code block: the language is the rest of
    the opening line, stripped; the body is the lines between the two;
    nothing of the closing line is read beyond its first three characters;
    the cursor moves past it.  With the cursor on a line that has
    indentation before the token, the line is a fence once its indentation
    is stripped and the turn emits no code block: it opens a paragraph,
    whatever the later lines are. *)
Theorem fence_at_line_start :
  (forall lines i j line close,
     nth_error lines i = Some line ->
     startswith "```" line = true ->
     i < j ->
     nth_error lines j = Some close ->
     startswith "```" close = true ->
     (forall k l, i < k < j -> nth_error lines k = Some l ->
                  startswith "```" l = false) ->
     block_step lines i
     = Ok (Some (code_block (strip (skipn 3 line)) (slice lines (i + 1) j)), j + 1))
  /\ (forall lines i ws rest,
        nth_error lines i = Some (indented_fence ws rest) ->
        indentation ws ->
        startswith "```" (lstrip (indented_fence ws rest)) = true
        /\ opens_paragraph (indented_fence ws rest)
        /\ exists k,
             1 <= k
             /\ block_step lines i
                = Ok (Some ("<p>" ++ parse_inline
                                       (join " " (map strip (slice lines i (i + k))))
                              ++ "</p>"), i + k)).
Proof.
  split; [exact block_step_fence|].
  intros lines i ws rest Hn Hws.
  split; [|split].
  - now rewrite (lstrip_indented ws rest (proj2 Hws)).
  - now apply indented_fence_opens_paragraph.
  - now apply (block_step_indented_fence lines i ws rest).
Qed.

Lemma fence_at_line_start_witness :
  block_step (strs ["```python"; "**not bold**"; "<script>"; "``` trailing"; "after"]) 0
  = Ok (Some ("<pre><code class=" ++ [dquote] ++ "language-python" ++ [dquote] ++ ">"
                ++ ["010"%char] ++ "**not bold**" ++ ["010"%char] ++ "&lt;script&gt;"
                ++ ["010"%char] ++ "</code></pre>"), 4)
  /\ opens_paragraph " ```python".
Proof.
  destruct fence_at_line_start as [Hfence Hind]. split.
  - rewrite (Hfence
               (strs ["```python"; "**not bold**"; "<script>"; "``` trailing"; "after"])
               0 3 "```python" "``` trailing" eq_refl eq_refl ltac:(lia) eq_refl eq_refl);
      [reflexivity|].
    intros [|[|[|k]]] l Hk Hl; try lia; injection Hl as <-; reflexivity.
  - apply (Hind (strs [" ```python"; "text"; "```"]) 0 " " "python" eq_refl).
    split; [discriminate|repeat constructor].
Defined.

(** ** Malformed markup *)



